(** * Character-aware embedding of [TransformerChrawr]

    A shallow embedding of [models/transformer_chrawr.py]: the padding mask
    extractor ([embedding_mask]), the multi-kernel convolutional feature
    extractor ([conv_emb]), the highway stack ([highway]) and the pipeline
    that composes them ([chrawr_embedding]).

    The Python functions run at graph-construction time: they add nodes to
    the default graph, may raise a Python exception, and return symbolic
    tensors.  A symbolic tensor is evaluated later, in a session, against
    the values of the variables and the random draws of that run.  The
    embedding keeps the two stages apart: a source function is a computation
    in the construction monad [G] that returns a [Sym], and [eval] gives the
    value of a [Sym] in a run-time environment [Env].

    Scalars are an abstract ordered ring ([Scalar] with [ScalarLaws]), the
    exact arithmetic that float32 approximates; the canonical rationals [Qc]
    are the executable instance.  The properties of padding rest on the
    laws of zero that floats keep ([FiniteLaws]), with the finite values
    told from the infinities and NaN; [Fl32] is the range of float32 with
    its overflow, an executable instance of these. *)

From Stdlib Require Import String DecimalString DecimalNat Bool Arith ZArith Lia List.
From Stdlib Require QArith Qcanon Qcabs.
Import ListNotations.

Set Implicit Arguments.

(** ** Scalars *)

(** The element type of a tensor with the operations the graph uses.
    [sigmoid] and [timing] (the entries of tensor2tensor's sinusoidal
    [get_timing_signal_1d], by channel count, position and channel) are
    primitives of the numeric run time; no property below depends on their
    values. *)
Class Scalar (F : Type) : Type := {
  zero : F;
  one : F;
  add : F -> F -> F;
  sub : F -> F -> F;
  mul : F -> F -> F;
  div : F -> F -> F;
  fabs : F -> F;
  feqb : F -> F -> bool;
  fleb : F -> F -> bool;
  sigmoid : F -> F;
  timing : nat -> nat -> nat -> F
}.

(** The laws of exact arithmetic that the properties rely on.  They hold in
    every ordered field.  IEEE floats satisfy the ones about [fabs], [add]
    and the order on finite and infinite values, and break [mul_0_r] at
    infinities and NaN. *)
Class ScalarLaws (F : Type) {SF : Scalar F} : Prop := {
  feqb_eq : forall x y : F, feqb x y = true <-> x = y;
  fleb_refl : forall x : F, fleb x x = true;
  fleb_1_0 : fleb one zero = false;
  add_0_r : forall x : F, add x zero = x;
  sub_0_r : forall x : F, sub x zero = x;
  mul_0_r : forall x : F, mul x zero = zero;
  mul_1_r : forall x : F, mul x one = x;
  fabs_nonneg : forall x : F, fleb zero (fabs x) = true;
  fabs_eq_0 : forall x : F, fabs x = zero <-> x = zero;
  add_nonneg : forall x y : F,
      fleb zero x = true -> fleb zero y = true -> fleb zero (add x y) = true;
  add_eq_0 : forall x y : F,
      fleb zero x = true -> fleb zero y = true -> add x y = zero ->
      x = zero /\ y = zero
}.

Arguments ScalarLaws F {SF}.

(** The laws of zero that IEEE floats keep.  [finite] tells the finite
    values from the infinities and NaN, whose product with 0 is NaN and
    not 0. *)
Class FiniteLaws (F : Type) {SF : Scalar F} : Type := {
  finite : F -> Prop;
  mul_0_r_finite : forall x : F, finite x -> mul x zero = zero;
  fabs_0 : fabs zero = zero;
  add_0_0 : add zero zero = zero;
  feqb_0_0 : feqb zero zero = true
}.

Arguments FiniteLaws F {SF}.

(** In exact arithmetic every scalar is finite. *)
Definition exact_FiniteLaws {F : Type} {SF : Scalar F} (SL : ScalarLaws F)
  : FiniteLaws F := {|
  finite := fun _ => True;
  mul_0_r_finite := fun x _ => mul_0_r x;
  fabs_0 := proj2 (fabs_eq_0 zero) eq_refl;
  add_0_0 := add_0_r zero;
  feqb_0_0 := proj2 (feqb_eq zero zero) eq_refl
|}.

(** ** Python exceptions and the graph-construction monad *)

Inductive PyError : Type :=
| AssertionError (msg : string)
| UnboundLocalError (name : string)
| IndexError (msg : string)
| ValueError (msg : string).

Inductive Result (A : Type) : Type :=
| Ok (a : A)
| Raise (e : PyError).

Arguments Ok {A} a.
Arguments Raise {A} e.

Definition is_ok {A} (r : Result A) : bool :=
  match r with
  | Ok _ => true
  | Raise _ => false
  end.

(** The default graph: the labels of its nodes, oldest first.  A node's id
    is its position. *)
Definition Graph := list string.

(** A construction-time computation.  The graph keeps the nodes created
    before an exception. *)
Definition G (A : Type) : Type := Graph -> Result A * Graph.

Definition ret {A} (a : A) : G A := fun g => (Ok a, g).

Definition bind {A B} (m : G A) (k : A -> G B) : G B :=
  fun g =>
    match m g with
    | (Ok a, g') => k a g'
    | (Raise e, g') => (Raise e, g')
    end.

Definition raise {A} (e : PyError) : G A := fun g => (Raise e, g).

Definition add_node (label : string) : G nat :=
  fun g => (Ok (length g), g ++ [label]).

Declare Scope graph_scope.
Delimit Scope graph_scope with graph.
Notation "x <- m ;; k" := (bind m (fun x => k))
  (at level 61, m at next level, right associativity) : graph_scope.
Notation "m ;;; k" := (bind m (fun _ => k))
  (at level 61, right associativity) : graph_scope.
Open Scope graph_scope.

(** [assert cond, msg] *)
Definition py_assert (cond : bool) (msg : string) : G unit :=
  if cond then ret tt else raise (AssertionError msg).

(** [for x in xs: body], with the variables the body assigns as the state *)
Fixpoint for_each {A S} (xs : list A) (body : A -> S -> G S) (s : S) : G S :=
  match xs with
  | [] => ret s
  | x :: xs' => s' <- body x s ;; for_each xs' body s'
  end.

(** ['%d' % n] *)
Definition str (n : nat) : string := NilEmpty.string_of_uint (Nat.to_uint n).

(** The name of a variable scope's member: [tf.variable_scope(scope)]. *)
Definition scope_name (scope name : string) : string :=
  match scope with
  | EmptyString => name
  | _ => (scope ++ "/" ++ name)%string
  end.

(** ** Lists as arrays *)

Definition zipWith {A B C} (f : A -> B -> C) (a : list A) (b : list B)
  : list C :=
  map (fun p => f (fst p) (snd p)) (combine a b).

Definition imap {A B} (f : nat -> A -> B) (l : list A) : list B :=
  map (fun p => f (fst p) (snd p)) (combine (seq 0 (length l)) l).

(** One axis of NumPy broadcasting: an axis of size 1 is stretched. Axes of
    other, different sizes abort the session run; here they are cut to the
    shorter one. *)
Definition bzip {A B C} (f : A -> B -> C) (a : list A) (b : list B)
  : list C :=
  match a, b with
  | [x], _ => map (f x) b
  | _, [y] => map (fun x => f x y) a
  | _, _ => zipWith f a b
  end.

(** Ceiling division, as TensorFlow computes the output size of SAME
    padding. *)
Definition ceil_div (n d : nat) : nat := (n + d - 1) / d.

(** The number of windows of VALID padding. *)
Definition valid_count (k s n : nat) : nat :=
  if n <? k then 0 else (n - k) / s + 1.

(** The total SAME padding, computed on integers as TensorFlow does. *)
Definition same_pad_total (k s n : nat) : nat :=
  Z.to_nat (Z.max ((Z.of_nat (ceil_div n s) - 1) * Z.of_nat s
                   + Z.of_nat k - Z.of_nat n) 0).

(** SAME padding: the input padded on both sides (the odd unit at the end),
    padding marked [None]. *)
Definition same_padded {A} (k s : nat) (xs : list A) : list (option A) :=
  let total := same_pad_total k s (length xs) in
  let left := total / 2 in
  repeat None left ++ map Some xs ++ repeat None (total - left).

(** The windows of width [k] at stride [s] over the SAME-padded input. *)
Definition same_windows {A} (k s : nat) (xs : list A)
  : list (list (option A)) :=
  let padded := same_padded k s xs in
  map (fun i => firstn k (skipn (i * s) padded))
      (seq 0 (valid_count k s (length padded))).

Definition somes {A} (w : list (option A)) : list A :=
  flat_map (fun o => match o with Some x => [x] | None => [] end) w.

(** ** Tensor values and the kernels of the operations *)

Section Model.

Context {F : Type} {SF : Scalar F}.

(** A float tensor of rank 3, indexed by batch, time and channel. *)
Definition Tensor : Type := list (list (list F)).

Definition map3 {A B} (f : A -> B) (x : list (list (list A)))
  : list (list (list B)) :=
  map (map (map f)) x.

Definition bzip3 (f : F -> F -> F) (x y : Tensor) : Tensor :=
  bzip (bzip (bzip f)) x y.

Definition imap3 (f : nat -> nat -> nat -> F -> F) (x : Tensor) : Tensor :=
  imap (fun b => imap (fun t => imap (fun c => f b t c))) x.

Definition sumF (v : list F) : F := fold_right add zero v.

Definition fmax (x y : F) : F := if fleb x y then y else x.

(** The variables of one [tf.layers.conv1d] layer: [kernel j c o] is the
    weight of tap [j] from input channel [c] to filter [o]. *)
Record ConvParams : Type := {
  kernel : nat -> nat -> nat -> F;
  bias : nat -> F
}.

(** What a session run supplies: the value of every layer's variables, by
    variable-scope name, and for every random node and tensor element
    whether the draw keeps the element. *)
Record Env : Type := {
  weights : string -> ConvParams;
  noise : nat -> nat -> nat -> nat -> bool
}.

(** A symbolic rank-3 float tensor: its static channel dimension
    ([get_shape()[-1]]; batch and time are dynamic) and its value in a
    run. *)
Record Sym : Type := {
  depth : nat;
  eval : Env -> Tensor
}.

(** A symbolic rank-2 tensor (batch by time). *)
Definition Sym2 (A : Type) : Type := Env -> list (list A).

(** The contribution of one window to filter [o]; padding contributes
    nothing. *)
Definition window_dot (P : ConvParams) (w : list (option (list F))) (o : nat)
  : F :=
  sumF (imap (fun j ov =>
                match ov with
                | None => zero
                | Some v => sumF (imap (fun c x => mul x (kernel P j c o)) v)
                end) w).

Definition activate (activation : option (F -> F)) (x : F) : F :=
  match activation with
  | Some f => f x
  | None => x
  end.

(** The Conv1D kernel with SAME padding and a bias. *)
Definition conv1d_same (P : ConvParams) (filters kernel_size strides : nat)
    (activation : option (F -> F)) (x : Tensor) : Tensor :=
  map (fun row =>
         map (fun w =>
                map (fun o => activate activation
                                (add (window_dot P w o) (bias P o)))
                    (seq 0 filters))
             (same_windows kernel_size strides row))
      x.

(** The maximum over the positions of a window that are not padding,
    channel by channel. *)
Definition pool_window (w : list (option (list F))) : list F :=
  match somes w with
  | [] => []
  | v :: vs => fold_left (zipWith fmax) vs v
  end.

(** The MaxPool kernel with SAME padding. *)
Definition max_pool_same (pool_size strides : nat) (x : Tensor) : Tensor :=
  map (fun row => map pool_window (same_windows pool_size strides row)) x.

(** Concatenation along the channel axis. *)
Definition concat_channels (x y : Tensor) : Tensor :=
  zipWith (zipWith (@app F)) x y.

(** The sinusoidal signal of shape (1, length, channels). *)
Definition timing_signal (length channels : nat) : Tensor :=
  [map (fun pos => map (fun c => timing channels pos c) (seq 0 channels))
       (seq 0 length)].

(** ** The TensorFlow API at graph-construction time *)

(** The static channel dimension of a broadcast. *)
Definition broadcast_depth (d1 d2 : nat) : option nat :=
  if d1 =? d2 then Some d1
  else if d1 =? 1 then Some d2
  else if d2 =? 1 then Some d1
  else None.

Definition binary_op (label : string) (f : F -> F -> F) (x y : Sym) : G Sym :=
  match broadcast_depth (depth x) (depth y) with
  | None => raise (ValueError "Dimensions must be equal")
  | Some d =>
      add_node label ;;;
      ret {| depth := d;
             eval := fun env => bzip3 f (eval x env) (eval y env) |}
  end.

(** [x * y] *)
Definition tf_multiply : Sym -> Sym -> G Sym := binary_op "Mul" mul.

(** [x + y] *)
Definition tf_add : Sym -> Sym -> G Sym := binary_op "Add" add.

(** [c - x] for a Python float [c] *)
Definition tf_rsub (c : F) (x : Sym) : G Sym :=
  add_node "Sub" ;;;
  ret {| depth := depth x; eval := fun env => map3 (sub c) (eval x env) |}.

Definition tf_abs (x : Sym) : G Sym :=
  add_node "Abs" ;;;
  ret {| depth := depth x; eval := fun env => map3 fabs (eval x env) |}.

(** [tf.reduce_sum(x, axis=-1)] *)
Definition tf_reduce_sum (x : Sym) : G (Sym2 F) :=
  add_node "Sum" ;;;
  ret (fun env => map (map sumF) (eval x env)).

(** [tf.not_equal(x, c)] *)
Definition tf_not_equal (x : Sym2 F) (c : F) : G (Sym2 bool) :=
  add_node "NotEqual" ;;;
  ret (fun env => map (map (fun s => negb (feqb s c))) (x env)).

Definition tf_to_float (x : Sym2 bool) : G (Sym2 F) :=
  add_node "ToFloat" ;;;
  ret (fun env => map (map (fun b : bool => if b then one else zero)) (x env)).

(** [tf.expand_dims(x, -1)] *)
Definition tf_expand_dims (x : Sym2 F) : G Sym :=
  add_node "ExpandDims" ;;;
  ret {| depth := 1; eval := fun env => map (map (fun s => [s])) (x env) |}.

(** [tf.summary.image(name, tf.expand_dims(x[:32], 0))]: a summary node;
    it feeds nothing. *)
Definition tf_summary_image (name : string) (x : Sym) : G unit :=
  add_node ("ImageSummary:" ++ name) ;;;
  ret tt.

(** [tf.layers.conv1d(inputs, filters, kernel_size, strides, 'same',
    activation=activation, name=name)] inside the variable scope [scope].
    An initializer fixes the first value of a variable; the value in a run
    is the environment's.  The variable store is not part of the graph
    here: TensorFlow refuses a second layer under a name its scope
    already holds, and a kernel of width 0; the theorems that state that
    a construction succeeds take distinct names and widths of at least 1
    as hypotheses. *)
Definition tf_layers_conv1d (scope : string) (inputs : Sym)
    (filters kernel_size strides : nat) (activation : option (F -> F))
    (name : string) : G Sym :=
  if strides =? 0 then raise (ValueError "Stride must be > 0")
  else
    add_node ("conv1d:" ++ scope_name scope name) ;;;
    ret {| depth := filters;
           eval := fun env =>
             conv1d_same (weights env (scope_name scope name))
                         filters kernel_size strides activation
                         (eval inputs env) |}.

(** [tf.layers.max_pooling1d(inputs, pool_size, strides, 'same',
    name=name)] *)
Definition tf_layers_max_pooling1d (scope : string) (inputs : Sym)
    (pool_size strides : nat) (name : string) : G Sym :=
  if strides =? 0 then raise (ValueError "Stride must be > 0")
  else
    add_node ("max_pooling1d:" ++ scope_name scope name) ;;;
    ret {| depth := depth inputs;
           eval := fun env => max_pool_same pool_size strides
                                            (eval inputs env) |}.

(** [tf.concat(values, 2)] *)
Definition tf_concat (values : list Sym) : G Sym :=
  match values with
  | [] => raise (ValueError "List argument 'values' to 'ConcatV2' Op with length 0 shorter than minimum length 2")
  | v :: vs =>
      add_node "ConcatV2" ;;;
      ret {| depth := fold_left (fun d s => d + depth s) vs (depth v);
             eval := fun env =>
               fold_left (fun acc s => concat_channels acc (eval s env))
                         vs (eval v env) |}
  end.

(** [tf.nn.dropout(x, keep_prob)] for a Python float [keep_prob]: outside
    (0, 1] it raises, at 1 it returns [x] itself, and otherwise it scales
    [x] by [1 / keep_prob] and zeroes the elements the draw of its random
    node does not keep. *)
Definition tf_nn_dropout (x : Sym) (keep_prob : F) : G Sym :=
  if negb (negb (fleb keep_prob zero) && fleb keep_prob one)
  then raise (ValueError "keep_prob must be a scalar tensor or a float in the range (0, 1]")
  else if feqb keep_prob one then ret x
  else
    id <- add_node "dropout" ;;
    ret {| depth := depth x;
           eval := fun env =>
             imap3 (fun b t c v =>
                      mul (div v keep_prob)
                          (if noise env id b t c then one else zero))
                   (eval x env) |}.

(** [common_attention.add_timing_signal_1d(x)] *)
Definition add_timing_signal_1d (x : Sym) : G Sym :=
  add_node "add_timing_signal_1d" ;;;
  ret {| depth := depth x;
         eval := fun env =>
           let v := eval x env in
           bzip3 add v (timing_signal (length (hd [] v)) (depth x)) |}.

(** ** The source *)

(** The hyperparameters the embedding reads. *)
Record HParams : Type := {
  num_highway_layers : nat;
  reduced_input_size : nat;
  hidden_size : nat;
  chr_kernels : list nat;
  chr_kernel_features : list nat;
  chr_maxpool_size : nat;
  chr_nonlinearity : F -> F;
  chr_dropout_rate : F;
  chr_pos_enc : bool
}.

Definition embedding_mask (emb : Sym) : G Sym :=
  a <- tf_abs emb ;;
  emb_sum <- tf_reduce_sum a ;;
  ne <- tf_not_equal emb_sum zero ;;
  fl <- tf_to_float ne ;;
  tf_expand_dims fl.

(** The body of the loop of [highway]; the state is the pair of the
    variables [inputs] and [output], the second unbound before the first
    assignment. *)
Definition highway_body (size : nat) (hparams : HParams) (scope : string)
    (idx : nat) (st : Sym * option Sym) : G (Sym * option Sym) :=
  let inputs := fst st in
  t <- tf_layers_conv1d scope inputs size 1 1 (Some sigmoid)
         ("highway_lin_" ++ str idx) ;;
  g <- tf_layers_conv1d scope inputs size 1 1
         (Some (chr_nonlinearity hparams)) ("highway_gate_" ++ str idx) ;;
  tg <- tf_multiply t g ;;
  carry <- tf_rsub one t ;;
  ci <- tf_multiply carry inputs ;;
  output <- tf_add tg ci ;;
  ret (output, Some output).

(** [bias] initialises the gate's bias variable and [f] is not used by the
    body; both are kept as the signature has them. *)
Definition highway (inputs : Sym) (size : nat) (hparams : HParams)
    (bias : F) (f : F -> F) (scope : string) : G Sym :=
  st <- for_each (seq 0 (num_highway_layers hparams))
          (highway_body size hparams scope) (inputs, None) ;;
  match snd st with
  | Some output => ret output
  | None => raise (UnboundLocalError "output")
  end.

(** The body of the loop of [conv_emb]; the state is the list [layers]. *)
Definition conv_emb_body (inputs : Sym) (hparams : HParams)
    (input_mask : Sym) (scope : string) (kf : nat * nat) (layers : list Sym)
  : G (list Sym) :=
  let kernel_size := fst kf in
  let kernel_feature_size := snd kf in
  conv <- tf_layers_conv1d scope inputs kernel_feature_size kernel_size 1
            (Some (chr_nonlinearity hparams)) ("kernel_" ++ str kernel_size) ;;
  conv <- tf_multiply conv input_mask ;;
  pool <- tf_layers_max_pooling1d scope conv (chr_maxpool_size hparams)
            (chr_maxpool_size hparams)
            ("kernel_" ++ str kernel_size ++ "_pool") ;;
  ret (layers ++ [pool]).

Definition conv_emb (inputs : Sym) (hparams : HParams) (input_mask : Sym)
    (scope : string) : G Sym :=
  py_assert (length (chr_kernels hparams)
             =? length (chr_kernel_features hparams))
            "Kernel and Features must have the same size" ;;;
  layers <- for_each (combine (chr_kernels hparams)
                              (chr_kernel_features hparams))
              (conv_emb_body inputs hparams input_mask scope) [] ;;
  if 1 <? length (chr_kernels hparams) then tf_concat layers
  else
    match layers with
    | output :: _ => ret output
    | [] => raise (IndexError "list index out of range")
    end.

(** [tf.nn.relu], the default of [highway]'s parameter [f] *)
Definition relu (x : F) : F := if fleb x zero then zero else x.

(** The default [-2.0] of [highway]'s parameter [bias] *)
Definition minus_two : F := sub zero (add one one).

Definition chrawr_embedding (emb : Sym) (hparams : HParams) : G Sym :=
  emb_mask <- embedding_mask emb ;;
  tf_summary_image "emb_mask" emb_mask ;;;
  emb <- tf_layers_conv1d EmptyString emb (reduced_input_size hparams) 1 1
           None "rescaled_embedding" ;;
  emb <- (if chr_pos_enc hparams then add_timing_signal_1d emb
          else ret emb) ;;
  emb <- tf_multiply emb emb_mask ;;
  emb <- conv_emb emb hparams emb_mask "ConvEmb" ;;
  emb_mask_in <- embedding_mask emb ;;
  tf_summary_image "emb_mask_in" emb_mask_in ;;;
  emb <- tf_nn_dropout emb (sub one (chr_dropout_rate hparams)) ;;
  emb <- highway emb (depth emb) hparams minus_two relu "Highway" ;;
  emb <- tf_multiply emb emb_mask_in ;;
  encoder_input <- tf_nn_dropout emb (sub one (chr_dropout_rate hparams)) ;;
  emb <- tf_layers_conv1d EmptyString emb (hidden_size hparams) 1 1
           None "restored_embedding" ;;
  emb <- tf_multiply emb emb_mask_in ;;
  ret emb.

(** Lines 74 to 85 of [chrawr_embedding]: the construction up to and
    with the call of [conv_emb]; it returns the pooled embedding, the
    tensor the mask is recomputed from. *)
Definition chrawr_pooled (emb : Sym) (hparams : HParams) : G Sym :=
  emb_mask <- embedding_mask emb ;;
  tf_summary_image "emb_mask" emb_mask ;;;
  emb <- tf_layers_conv1d EmptyString emb (reduced_input_size hparams) 1 1
           None "rescaled_embedding" ;;
  emb <- (if chr_pos_enc hparams then add_timing_signal_1d emb
          else ret emb) ;;
  emb <- tf_multiply emb emb_mask ;;
  conv_emb emb hparams emb_mask "ConvEmb".

(** Lines 86 to 98 of [chrawr_embedding]: what it does with the pooled
    embedding. *)
Definition chrawr_after_conv (emb : Sym) (hparams : HParams) : G Sym :=
  emb_mask_in <- embedding_mask emb ;;
  tf_summary_image "emb_mask_in" emb_mask_in ;;;
  emb <- tf_nn_dropout emb (sub one (chr_dropout_rate hparams)) ;;
  emb <- highway emb (depth emb) hparams minus_two relu "Highway" ;;
  emb <- tf_multiply emb emb_mask_in ;;
  encoder_input <- tf_nn_dropout emb (sub one (chr_dropout_rate hparams)) ;;
  emb <- tf_layers_conv1d EmptyString emb (hidden_size hparams) 1 1
           None "restored_embedding" ;;
  emb <- tf_multiply emb emb_mask_in ;;
  ret emb.

(** The pipeline in the words of the specification, every stage consuming
    the output of the stage before it: the restoring convolution (step 11)
    consumes the output of the second dropout (step 10). *)
Definition chrawr_embedding_sequential (emb : Sym) (hparams : HParams)
  : G Sym :=
  emb_mask <- embedding_mask emb ;;
  tf_summary_image "emb_mask" emb_mask ;;;
  emb <- tf_layers_conv1d EmptyString emb (reduced_input_size hparams) 1 1
           None "rescaled_embedding" ;;
  emb <- (if chr_pos_enc hparams then add_timing_signal_1d emb
          else ret emb) ;;
  emb <- tf_multiply emb emb_mask ;;
  emb <- conv_emb emb hparams emb_mask "ConvEmb" ;;
  emb_mask_in <- embedding_mask emb ;;
  tf_summary_image "emb_mask_in" emb_mask_in ;;;
  emb <- tf_nn_dropout emb (sub one (chr_dropout_rate hparams)) ;;
  emb <- highway emb (depth emb) hparams minus_two relu "Highway" ;;
  emb <- tf_multiply emb emb_mask_in ;;
  emb <- tf_nn_dropout emb (sub one (chr_dropout_rate hparams)) ;;
  emb <- tf_layers_conv1d EmptyString emb (hidden_size hparams) 1 1
           None "restored_embedding" ;;
  emb <- tf_multiply emb emb_mask_in ;;
  ret emb.

(** A session run of the tensor a construction returns: there is nothing
    to run when the construction raised. *)
Definition session_run (m : G Sym) (g : Graph) (env : Env) : option Tensor :=
  match fst (m g) with
  | Ok s => Some (eval s env)
  | Raise _ => None
  end.

End Model.

Arguments Tensor F : clear implicits.
Arguments ConvParams F : clear implicits.
Arguments Env F : clear implicits.
Arguments Sym F : clear implicits.
Arguments Sym2 F A : clear implicits.
Arguments HParams F : clear implicits.

(** ** The executable instance: canonical rationals *)

Module QcScalar.
Import QArith Qcanon Qcabs.

Definition q (n : Z) (d : positive) : Qc := Q2Qc (Qmake n d).

Definition Qc_leb (x y : Qc) : bool :=
  if Qclt_le_dec y x then false else true.

(** A rational function of the sigmoid's shape stands in for the
    exponential one. *)
Definition Qc_sigmoid (x : Qc) : Qc :=
  Qcdiv (Qcplus (q 1 1) (Qcdiv x (Qcplus (q 1 1) (Qcabs x)))) (q 2 1).

(** A rational stand-in for the sinusoids. *)
Definition Qc_timing (channels pos c : nat) : Qc :=
  q (Z.of_nat pos) (Pos.of_succ_nat (channels + c)).

#[export] Instance Qc_Scalar : Scalar Qc := {|
  zero := q 0 1;
  one := q 1 1;
  add := Qcplus;
  sub := Qcminus;
  mul := Qcmult;
  div := Qcdiv;
  fabs := Qcabs;
  feqb := Qc_eq_bool;
  fleb := Qc_leb;
  sigmoid := Qc_sigmoid;
  timing := Qc_timing
|}.

End QcScalar.

(** ** The range of float32 *)

(** float32 without its rounding: a finite value is an exact rational, a
    result beyond the largest finite float32 overflows to an infinity, and
    the infinities and NaN follow IEEE 754 (inf - inf, inf * 0, 0 / 0 and
    inf / inf are NaN; NaN compares false with everything).  The two zeros
    are one. *)
Module Fl32.
Import QArith Qcanon Qcabs QcScalar.

Inductive fl : Type :=
| Fin (x : Qc)
| PInf
| NInf
| NaN.

(** The largest finite float32, (2 - 2^-23) * 2^127 *)
Definition max_float : Qc := q 340282346638528859811704183484516925440 1.

Definition overflow (x : Qc) : fl :=
  if Qc_leb x max_float
  then if Qc_leb (Qcopp max_float) x then Fin x else NInf
  else PInf.

Definition inf (positive : bool) : fl := if positive then PInf else NInf.

(** The infinity of sign [s] times the finite [x]; inf * 0 is NaN. *)
Definition inf_times (s : bool) (x : Qc) : fl :=
  if Qc_eq_bool x (q 0 1) then NaN
  else inf (Bool.eqb s (Qc_leb (q 0 1) x)).

Definition fl_opp (a : fl) : fl :=
  match a with
  | Fin x => Fin (Qcopp x)
  | PInf => NInf
  | NInf => PInf
  | NaN => NaN
  end.

Definition fl_add (a b : fl) : fl :=
  match a, b with
  | NaN, _ => NaN
  | _, NaN => NaN
  | Fin x, Fin y => overflow (Qcplus x y)
  | PInf, NInf => NaN
  | NInf, PInf => NaN
  | PInf, _ => PInf
  | _, PInf => PInf
  | NInf, _ => NInf
  | _, NInf => NInf
  end.

Definition fl_sub (a b : fl) : fl := fl_add a (fl_opp b).

Definition fl_mul (a b : fl) : fl :=
  match a, b with
  | NaN, _ => NaN
  | _, NaN => NaN
  | Fin x, Fin y => overflow (Qcmult x y)
  | Fin x, PInf => inf_times true x
  | Fin x, NInf => inf_times false x
  | PInf, Fin y => inf_times true y
  | NInf, Fin y => inf_times false y
  | PInf, PInf => PInf
  | NInf, NInf => PInf
  | PInf, NInf => NInf
  | NInf, PInf => NInf
  end.

Definition fl_div (a b : fl) : fl :=
  match a, b with
  | NaN, _ => NaN
  | _, NaN => NaN
  | Fin x, Fin y =>
      if Qc_eq_bool y (q 0 1)
      then if Qc_eq_bool x (q 0 1) then NaN else inf (Qc_leb (q 0 1) x)
      else overflow (Qcdiv x y)
  | Fin _, _ => Fin (q 0 1)
  | PInf, Fin y => inf (Qc_leb (q 0 1) y)
  | NInf, Fin y => inf (negb (Qc_leb (q 0 1) y))
  | _, _ => NaN
  end.

Definition fl_abs (a : fl) : fl :=
  match a with
  | Fin x => Fin (Qcabs x)
  | PInf => PInf
  | NInf => PInf
  | NaN => NaN
  end.

Definition fl_eqb (a b : fl) : bool :=
  match a, b with
  | Fin x, Fin y => Qc_eq_bool x y
  | PInf, PInf => true
  | NInf, NInf => true
  | _, _ => false
  end.

Definition fl_leb (a b : fl) : bool :=
  match a, b with
  | NaN, _ => false
  | _, NaN => false
  | Fin x, Fin y => Qc_leb x y
  | NInf, _ => true
  | _, PInf => true
  | _, _ => false
  end.

Definition fl_sigmoid (a : fl) : fl :=
  match a with
  | Fin x => Fin (Qc_sigmoid x)
  | PInf => Fin (q 1 1)
  | NInf => Fin (q 0 1)
  | NaN => NaN
  end.

#[export] Instance fl_Scalar : Scalar fl := {|
  zero := Fin (q 0 1);
  one := Fin (q 1 1);
  add := fl_add;
  sub := fl_sub;
  mul := fl_mul;
  div := fl_div;
  fabs := fl_abs;
  feqb := fl_eqb;
  fleb := fl_leb;
  sigmoid := fl_sigmoid;
  timing := fun channels pos c => Fin (Qc_timing channels pos c)
|}.

Definition is_finite (a : fl) : Prop :=
  match a with
  | Fin _ => True
  | _ => False
  end.

End Fl32.

(** ** A concrete configuration, input and run *)

Module Example.
Import QcScalar.

(** A rational function of the shape of tanh *)
Definition soft_sign (x : Qcanon.Qc) : Qcanon.Qc :=
  Qcanon.Qcdiv x (Qcanon.Qcplus (q 1 1) (Qcabs.Qcabs x)).

(** Two kernels, two highway layers, dropout at rate 1/2 *)
Definition hp : HParams Qcanon.Qc := {|
  num_highway_layers := 2;
  reduced_input_size := 3;
  hidden_size := 2;
  chr_kernels := [1; 2];
  chr_kernel_features := [2; 1];
  chr_maxpool_size := 2;
  chr_nonlinearity := soft_sign;
  chr_dropout_rate := q 1 2;
  chr_pos_enc := false
|}.

(** The same without dropout *)
Definition hp_nodrop : HParams Qcanon.Qc := {|
  num_highway_layers := 2;
  reduced_input_size := 3;
  hidden_size := 2;
  chr_kernels := [1; 2];
  chr_kernel_features := [2; 1];
  chr_maxpool_size := 2;
  chr_nonlinearity := soft_sign;
  chr_dropout_rate := q 0 1;
  chr_pos_enc := false
|}.

(** One kernel *)
Definition hp_single : HParams Qcanon.Qc := {|
  num_highway_layers := 2;
  reduced_input_size := 3;
  hidden_size := 2;
  chr_kernels := [3];
  chr_kernel_features := [2];
  chr_maxpool_size := 2;
  chr_nonlinearity := soft_sign;
  chr_dropout_rate := q 0 1;
  chr_pos_enc := false
|}.

(** Three kernels against two feature counts *)
Definition hp_mismatch : HParams Qcanon.Qc := {|
  num_highway_layers := 2;
  reduced_input_size := 3;
  hidden_size := 2;
  chr_kernels := [1; 2; 3];
  chr_kernel_features := [4; 4];
  chr_maxpool_size := 2;
  chr_nonlinearity := soft_sign;
  chr_dropout_rate := q 0 1;
  chr_pos_enc := true
|}.

(** No highway layer *)
Definition hp_nolayer : HParams Qcanon.Qc := {|
  num_highway_layers := 0;
  reduced_input_size := 3;
  hidden_size := 2;
  chr_kernels := [1; 2];
  chr_kernel_features := [2; 1];
  chr_maxpool_size := 2;
  chr_nonlinearity := soft_sign;
  chr_dropout_rate := q 0 1;
  chr_pos_enc := false
|}.

(** One batch element of five positions and two channels; the positions
    1, 2 and 4 are padding. *)
Definition x : Tensor Qcanon.Qc :=
  [[ [q 1 1; q 2 1]; [q 0 1; q 0 1]; [q 0 1; q 0 1];
     [q 3 1; q (-1) 1]; [q 0 1; q 0 1] ]].

Definition inp : Sym Qcanon.Qc := {| depth := 2; eval := fun _ => x |}.

(** The mask of [x] as a constant *)
Definition x_mask : Sym Qcanon.Qc :=
  {| depth := 1;
     eval := fun _ => [[ [q 1 1]; [q 0 1]; [q 0 1]; [q 1 1]; [q 0 1] ]] |}.

Definition w (name : string) : ConvParams Qcanon.Qc :=
  {| kernel := fun j c o => q (Z.of_nat (j + c + o + 1)) 3;
     bias := fun o => q 1 4 |}.

(** A run in which every draw keeps its element but those of the node
    [id], which all take the value [keep] *)
Definition env_at (id : nat) (keep : bool) : Env Qcanon.Qc :=
  {| weights := w;
     noise := fun n b t c => if n =? id then keep else true |}.

(** The tensor and the graph [chrawr_embedding] builds for [hp] *)
Definition built : Result (Sym Qcanon.Qc) * Graph :=
  chrawr_embedding inp hp [].

Definition out : Sym Qcanon.Qc :=
  match fst built with Ok s => s | Raise _ => inp end.

(** The same for [hp_nodrop] *)
Definition built_nodrop : Result (Sym Qcanon.Qc) * Graph :=
  chrawr_embedding inp hp_nodrop [].

Definition out_nodrop : Sym Qcanon.Qc :=
  match fst built_nodrop with Ok s => s | Raise _ => inp end.

(** The tensor of the pipeline in the words of the specification *)
Definition out_sequential : Sym Qcanon.Qc :=
  match fst (chrawr_embedding_sequential inp hp []) with
  | Ok s => s
  | Raise _ => inp
  end.

End Example.

(** ** Vocabulary of the properties *)

Section Vocabulary.

Context {F : Type} {SF : Scalar F}.

(** The feature vector at batch position [b] and sequence position [t] *)
Definition lookup2 (x : Tensor F) (b t : nat) : option (list F) :=
  match nth_error x b with
  | Some row => nth_error row t
  | None => None
  end.

(** A padding position: its feature vector is the all-zero vector. *)
Definition is_padding (v : list F) : Prop := Forall (fun x => x = zero) v.

(** The static channel dimension is the channel count of every position in
    every run. *)
Definition wf_sym (s : Sym F) : Prop :=
  forall env,
    Forall (Forall (fun v : list F => length v = depth s)) (eval s env).

(** The same batch size and, row by row, the same number of positions *)
Definition same_bt (x y : Tensor F) : Prop :=
  Forall2 (fun r r' : list (list F) => length r = length r') x y.

(** The mask entry of a feature vector: 0 when the sum of the absolute
    values is zero, else 1 *)
Definition mask_bit (v : list F) : F :=
  if feqb (sumF (map fabs v)) zero then zero else one.

(** The mask of a tensor value, position by position *)
Definition mask_value (e : Tensor F) : Tensor F :=
  map (map (fun v => [mask_bit v])) e.

(** The batch and time shape of a tensor value: the number of positions
    of every batch element *)
Definition bt_shape (x : Tensor F) : list nat := map (@length (list F)) x.

(** Every position has [d] channels. *)
Definition channels (d : nat) (x : Tensor F) : Prop :=
  Forall (Forall (fun v : list F => length v = d)) x.

(** A tensor value times a mask of its own batch and time shape *)
Definition masked_by (e : Tensor F) (m : list F -> F) : Tensor F :=
  map (map (fun v => map (fun x => mul x (m v)) v)) e.

(** The variable scopes of the two projections of highway layer [idx] *)
Definition lin_name (scope : string) (idx : nat) : string :=
  scope_name scope ("highway_lin_" ++ str idx).

Definition gate_name (scope : string) (idx : nat) : string :=
  scope_name scope ("highway_gate_" ++ str idx).

(** The value of the tensor one pass of the loop of [highway] builds, from
    the value [x] of [inputs] *)
Definition highway_layer_eval (size : nat) (hparams : HParams F)
    (scope : string) (idx : nat) (x : Tensor F) (env : Env F) : Tensor F :=
  let t := conv1d_same (weights env (lin_name scope idx)) size 1 1
             (Some sigmoid) x in
  let g := conv1d_same (weights env (gate_name scope idx)) size 1 1
             (Some (chr_nonlinearity hparams)) x in
  bzip3 add (bzip3 mul t g) (bzip3 mul (map3 (sub one) t) x).

(** The value after the passes [idxs] *)
Definition highway_eval (size : nat) (hparams : HParams F) (scope : string)
    (idxs : list nat) (x : Tensor F) (env : Env F) : Tensor F :=
  fold_left (fun x idx => highway_layer_eval size hparams scope idx x env)
            idxs x.

(** The nodes one pass of the loop of [highway] adds to the graph *)
Definition highway_layer_nodes (scope : string) (idx : nat) : list string :=
  [("conv1d:" ++ lin_name scope idx)%string;
   ("conv1d:" ++ gate_name scope idx)%string;
   "Mul"%string; "Sub"%string; "Mul"%string; "Add"%string].

(** The variable scope of the convolution of width [k] *)
Definition kernel_name (scope : string) (k : nat) : string :=
  scope_name scope ("kernel_" ++ str k).

(** The value of the tensor one pass of the loop of [conv_emb] appends to
    [layers], from the values of [inputs] and [input_mask] *)
Definition branch_eval (hparams : HParams F) (scope : string)
    (kf : nat * nat) (x m : Tensor F) (env : Env F) : Tensor F :=
  max_pool_same (chr_maxpool_size hparams) (chr_maxpool_size hparams)
    (bzip3 mul
       (conv1d_same (weights env (kernel_name scope (fst kf)))
                    (snd kf) (fst kf) 1 (Some (chr_nonlinearity hparams)) x)
       m).

(** The nodes one pass of the loop of [conv_emb] adds to the graph *)
Definition branch_nodes (scope : string) (kf : nat * nat) : list string :=
  [("conv1d:" ++ kernel_name scope (fst kf))%string;
   "Mul"%string;
   ("max_pooling1d:"
      ++ scope_name scope ("kernel_" ++ str (fst kf) ++ "_pool"))%string].

(** The value of the tensor [conv_emb] returns: the only branch, or the
    branches concatenated along the channels *)
Definition conv_emb_eval (hparams : HParams F) (scope : string)
    (x m : Tensor F) (env : Env F) : Tensor F :=
  match map (fun kf => branch_eval hparams scope kf x m env)
            (combine (chr_kernels hparams) (chr_kernel_features hparams))
  with
  | [] => []
  | b :: bs =>
      if 1 <? length (chr_kernels hparams)
      then fold_left concat_channels bs b
      else b
  end.

(** The value of the tensor [chrawr_embedding] passes to [conv_emb]: the
    embedding rescaled, with the timing signal when configured, times the
    mask of the embedding *)
Definition rescaled_eval (hparams : HParams F) (x : Tensor F) (env : Env F)
  : Tensor F :=
  let r := conv1d_same (weights env "rescaled_embedding")
             (reduced_input_size hparams) 1 1 None x in
  bzip3 mul
    (if chr_pos_enc hparams
     then bzip3 add r (timing_signal (length (hd [] r))
                                     (reduced_input_size hparams))
     else r)
    (mask_value x).

(** The nodes [chrawr_embedding] adds to the graph before it calls
    [conv_emb] *)
Definition prefix_nodes (hparams : HParams F) : list string :=
  ["Abs"; "Sum"; "NotEqual"; "ToFloat"; "ExpandDims";
   "ImageSummary:emb_mask"; "conv1d:rescaled_embedding"]%string
  ++ (if chr_pos_enc hparams then ["add_timing_signal_1d"%string] else [])
  ++ ["Mul"%string].

(** The value of a dropout node with id [id] *)
Definition dropout_eval (keep_prob : F) (id : nat) (x : Tensor F)
    (env : Env F) : Tensor F :=
  imap3 (fun b t c v =>
           mul (div v keep_prob) (if noise env id b t c then one else zero))
        x.

(** The value [chrawr_embedding] returns, from the value [h] of the
    output of the highway stack and the value [x] of the pooled
    embedding *)
Definition restored_eval (hparams : HParams F) (h x : Tensor F)
    (env : Env F) : Tensor F :=
  bzip3 mul
    (conv1d_same (weights env "restored_embedding") (hidden_size hparams)
                 1 1 None (bzip3 mul h (mask_value x)))
    (mask_value x).

(** Equality of tensor values, decided entry by entry *)
Fixpoint list_eqb {A} (e : A -> A -> bool) (a b : list A) : bool :=
  match a, b with
  | [], [] => true
  | x :: a', y :: b' => e x y && list_eqb e a' b'
  | _, _ => false
  end.

Definition tensor_eqb (a b : Tensor F) : bool :=
  list_eqb (list_eqb (list_eqb feqb)) a b.

(** The nodes of [embedding_mask] and of the summary of the mask *)
Definition mask_nodes (name : string) : list string :=
  ["Abs"; "Sum"; "NotEqual"; "ToFloat"; "ExpandDims";
   ("ImageSummary:" ++ name)%string]%string.

(** A linear projection of one feature vector: output channel [c] of a
    layer with parameters [P] *)
Definition linear (P : ConvParams F) (v : list F) (c : nat) : F :=
  add (sumF (imap (fun c' x => mul x (kernel P 0 c' c)) v)) (bias P c).

(** One highway layer in the words of the specification: at every
    position and channel, [t * g + (1 - t) * input] with the transform
    gate [t = sigmoid (linear input)] and the candidate
    [g = nonlinearity (linear' input)]. *)
Definition highway_layer_spec (Plin Pgate : ConvParams F) (nonlinearity : F -> F)
    (W : nat) (x : Tensor F) : Tensor F :=
  map (map (fun v =>
              map (fun c =>
                     let t := sigmoid (linear Plin v c) in
                     let g := nonlinearity (linear Pgate v c) in
                     add (mul t g) (mul (sub one t) (nth c v zero)))
                  (seq 0 W))) x.

(** [N] sequential layers in the words of the specification, layer [i]
    with the parameters of its own two projections *)
Definition highway_spec (env : Env F) (scope : string)
    (nonlinearity : F -> F) (W N : nat) (x : Tensor F) : Tensor F :=
  fold_left (fun x i =>
               highway_layer_spec (weights env (lin_name scope i))
                                  (weights env (gate_name scope i))
                                  nonlinearity W x)
            (seq 0 N) x.

End Vocabulary.

(** ** Vocabulary of the properties of the whole pipeline *)

Section PipelineVocabulary.

Context {F : Type} {SF : Scalar F}.

(** Every batch element has the same number of positions. *)
Definition rectangular (x : Tensor F) : Prop :=
  exists T, Forall (fun row : list (list F) => length row = T) x.

(** The check of [tf.nn.dropout] on its [keep_prob]: in (0, 1] *)
Definition keep_prob_ok (keep_prob : F) : bool :=
  negb (fleb keep_prob zero) && fleb keep_prob one.

(** The nodes of a dropout with this [keep_prob]: none at 1 *)
Definition dropout_nodes (keep_prob : F) : list string :=
  if feqb keep_prob one then [] else ["dropout"%string].

(** The nodes [chrawr_embedding] adds to the graph after the call of
    [conv_emb] *)
Definition after_conv_nodes (hparams : HParams F) : list string :=
  mask_nodes "emb_mask_in"
  ++ dropout_nodes (sub one (chr_dropout_rate hparams))
  ++ flat_map (highway_layer_nodes "Highway")
       (seq 0 (num_highway_layers hparams))
  ++ ["Mul"%string]
  ++ dropout_nodes (sub one (chr_dropout_rate hparams))
  ++ ["conv1d:restored_embedding"%string; "Mul"%string].

(** Pairwise distinct numbers *)
Fixpoint distinct (l : list nat) : bool :=
  match l with
  | [] => true
  | k :: l' => negb (existsb (Nat.eqb k) l') && distinct l'
  end.

(** A configuration [chrawr_embedding] builds a graph for: as many
    feature counts as kernels, at least one kernel, kernels and pooling of
    width at least 1, at least one highway layer and a dropout rate whose
    [keep_prob] passes the check of [tf.nn.dropout]; every layer has at
    least one filter, and the kernel widths are pairwise distinct, as
    every branch of [conv_emb] names its variables after its width. *)
Definition valid_config (hparams : HParams F) : bool :=
  (length (chr_kernels hparams) =? length (chr_kernel_features hparams))
  && (1 <=? length (chr_kernels hparams))
  && forallb (fun k => 1 <=? k) (chr_kernels hparams)
  && (1 <=? chr_maxpool_size hparams)
  && (1 <=? num_highway_layers hparams)
  && keep_prob_ok (sub one (chr_dropout_rate hparams))
  && forallb (fun f => 1 <=? f) (chr_kernel_features hparams)
  && (1 <=? reduced_input_size hparams)
  && (1 <=? hidden_size hparams)
  && distinct (chr_kernels hparams).

(** The nodes [conv_emb] adds to the graph *)
Definition conv_emb_nodes (hparams : HParams F) (scope : string)
  : list string :=
  flat_map (branch_nodes scope)
    (combine (chr_kernels hparams) (chr_kernel_features hparams))
  ++ (if 1 <? length (chr_kernels hparams) then ["ConcatV2"%string] else []).

(** Input position [j] lies in the window of pooled position [i], for a
    sequence of [L] positions pooled with window and stride [p] under SAME
    padding: the window starts [pad / 2] positions before [i * p]. *)
Definition in_pool_window (p L i j : nat) : Prop :=
  i * p <= same_pad_total p p L / 2 + j < i * p + p.

(** A tensor computed from a batch sequence by sequence: the value for a
    (rectangular) batch is the list of the values of one function of a
    single batch element. *)
Definition rowwise (t : Tensor F -> Tensor F) : Prop :=
  exists tr : list (list F) -> list (list F),
    forall x, rectangular x -> t x = map tr x.

(** The static channel dimension of the tensor [conv_emb] returns *)
Definition conv_emb_depth (hparams : HParams F) : nat :=
  if 1 <? length (chr_kernels hparams)
  then list_sum (chr_kernel_features hparams)
  else hd 0 (chr_kernel_features hparams).

(** The value of the tensor [chrawr_embedding] returns when the dropout
    rate is 0, from the value [x] of its input *)
Definition chrawr_eval_nodrop (hparams : HParams F) (env : Env F)
    (x : Tensor F) : Tensor F :=
  let pooled := conv_emb_eval hparams "ConvEmb" (rescaled_eval hparams x env)
                              (mask_value x) env in
  restored_eval hparams
    (highway_eval (conv_emb_depth hparams) hparams "Highway"
       (seq 0 (num_highway_layers hparams)) pooled env)
    pooled env.

End PipelineVocabulary.

Section FiniteVocabulary.

Context {F : Type} {SF : Scalar F} {FL : FiniteLaws F}.

(** Every channel at batch position [b] and sequence position [t] is
    finite. *)
Definition finite_at (x : Tensor F) (b t : nat) : Prop :=
  forall v, lookup2 x b t = Some v -> Forall finite v.

(** The value of the convolution of one pass of the loop of [conv_emb],
    before its product with [input_mask], from the value [x] of
    [inputs] *)
Definition branch_conv_eval (hparams : HParams F) (scope : string)
    (kf : nat * nat) (x : Tensor F) (env : Env F) : Tensor F :=
  conv1d_same (weights env (kernel_name scope (fst kf)))
              (snd kf) (fst kf) 1 (Some (chr_nonlinearity hparams)) x.

End FiniteVocabulary.

(** ** The registered hyperparameter sets *)

Section Presets.

Context {F : Type} {SF : Scalar F}.

(** [tf.nn.tanh], [tf.nn.elu] and the float literal [.2] *)
Variables (tf_nn_tanh tf_nn_elu : F -> F) (point_two : F).

(** Assignments to the attributes of an [hparams] object.  The attributes
    the embedding does not read ([num_hidden_layers], [filter_size],
    [num_heads], [batch_size], [target_modality], [n_experts], the
    optimizer's and [layer_prepostprocess_dropout]) are not part of
    [HParams]; assigning them leaves it as it is. *)
Definition set_hidden_size (v : nat) (h : HParams F) : HParams F :=
  {| num_highway_layers := num_highway_layers h;
     reduced_input_size := reduced_input_size h;
     hidden_size := v;
     chr_kernels := chr_kernels h;
     chr_kernel_features := chr_kernel_features h;
     chr_maxpool_size := chr_maxpool_size h;
     chr_nonlinearity := chr_nonlinearity h;
     chr_dropout_rate := chr_dropout_rate h;
     chr_pos_enc := chr_pos_enc h |}.

Definition set_num_highway_layers (v : nat) (h : HParams F) : HParams F :=
  {| num_highway_layers := v;
     reduced_input_size := reduced_input_size h;
     hidden_size := hidden_size h;
     chr_kernels := chr_kernels h;
     chr_kernel_features := chr_kernel_features h;
     chr_maxpool_size := chr_maxpool_size h;
     chr_nonlinearity := chr_nonlinearity h;
     chr_dropout_rate := chr_dropout_rate h;
     chr_pos_enc := chr_pos_enc h |}.

Definition set_chr_kernels (v : list nat) (h : HParams F) : HParams F :=
  {| num_highway_layers := num_highway_layers h;
     reduced_input_size := reduced_input_size h;
     hidden_size := hidden_size h;
     chr_kernels := v;
     chr_kernel_features := chr_kernel_features h;
     chr_maxpool_size := chr_maxpool_size h;
     chr_nonlinearity := chr_nonlinearity h;
     chr_dropout_rate := chr_dropout_rate h;
     chr_pos_enc := chr_pos_enc h |}.

Definition set_chr_kernel_features (v : list nat) (h : HParams F)
  : HParams F :=
  {| num_highway_layers := num_highway_layers h;
     reduced_input_size := reduced_input_size h;
     hidden_size := hidden_size h;
     chr_kernels := chr_kernels h;
     chr_kernel_features := v;
     chr_maxpool_size := chr_maxpool_size h;
     chr_nonlinearity := chr_nonlinearity h;
     chr_dropout_rate := chr_dropout_rate h;
     chr_pos_enc := chr_pos_enc h |}.

Definition set_chr_maxpool_size (v : nat) (h : HParams F) : HParams F :=
  {| num_highway_layers := num_highway_layers h;
     reduced_input_size := reduced_input_size h;
     hidden_size := hidden_size h;
     chr_kernels := chr_kernels h;
     chr_kernel_features := chr_kernel_features h;
     chr_maxpool_size := v;
     chr_nonlinearity := chr_nonlinearity h;
     chr_dropout_rate := chr_dropout_rate h;
     chr_pos_enc := chr_pos_enc h |}.

Definition set_chr_nonlinearity (v : F -> F) (h : HParams F) : HParams F :=
  {| num_highway_layers := num_highway_layers h;
     reduced_input_size := reduced_input_size h;
     hidden_size := hidden_size h;
     chr_kernels := chr_kernels h;
     chr_kernel_features := chr_kernel_features h;
     chr_maxpool_size := chr_maxpool_size h;
     chr_nonlinearity := v;
     chr_dropout_rate := chr_dropout_rate h;
     chr_pos_enc := chr_pos_enc h |}.

Definition set_chr_dropout_rate (v : F) (h : HParams F) : HParams F :=
  {| num_highway_layers := num_highway_layers h;
     reduced_input_size := reduced_input_size h;
     hidden_size := hidden_size h;
     chr_kernels := chr_kernels h;
     chr_kernel_features := chr_kernel_features h;
     chr_maxpool_size := chr_maxpool_size h;
     chr_nonlinearity := chr_nonlinearity h;
     chr_dropout_rate := v;
     chr_pos_enc := chr_pos_enc h |}.

Definition set_chr_pos_enc (v : bool) (h : HParams F) : HParams F :=
  {| num_highway_layers := num_highway_layers h;
     reduced_input_size := reduced_input_size h;
     hidden_size := hidden_size h;
     chr_kernels := chr_kernels h;
     chr_kernel_features := chr_kernel_features h;
     chr_maxpool_size := chr_maxpool_size h;
     chr_nonlinearity := chr_nonlinearity h;
     chr_dropout_rate := chr_dropout_rate h;
     chr_pos_enc := v |}.

(** [transformer.transformer_base()] with every attribute the embedding
    reads assigned. *)
Definition transformer_chrawr_base : HParams F :=
  {| num_highway_layers := 4;
     reduced_input_size := 128;
     hidden_size := 512;
     chr_kernels := [1; 2; 3; 4; 5; 6; 7; 8];
     chr_kernel_features := [200; 200; 250; 250; 300; 300; 300; 300];
     chr_maxpool_size := 5;
     chr_nonlinearity := tf_nn_tanh;
     chr_dropout_rate := zero;
     chr_pos_enc := false |}.

Definition transformer_chrawr_big : HParams F :=
  set_hidden_size 1024 transformer_chrawr_base.

Definition transformer_chrawr_big_single_gpu : HParams F :=
  transformer_chrawr_big.

Definition transformer_chrawr_base_single_gpu : HParams F :=
  transformer_chrawr_base.

Definition transformer_chrawr_l2 : HParams F := transformer_chrawr_base.

Definition transformer_chrawr_test0 : HParams F := transformer_chrawr_l2.

Definition transformer_chrawr_test1 : HParams F :=
  set_chr_maxpool_size 3
    (set_chr_kernel_features [250; 250; 300; 300; 300]
       (set_chr_kernels [1; 2; 3; 4; 5] transformer_chrawr_l2)).

Definition transformer_chrawr_test2 : HParams F :=
  set_chr_kernel_features [250; 250; 300; 300; 300]
    (set_chr_kernels [1; 2; 3; 4; 5] transformer_chrawr_l2).

Definition transformer_chrawr_test3 : HParams F :=
  set_chr_maxpool_size 3 transformer_chrawr_l2.

Definition transformer_chrawr_test4 : HParams F :=
  set_num_highway_layers 1 transformer_chrawr_l2.

Definition transformer_chrawr_test5 : HParams F := transformer_chrawr_l2.

Definition transformer_chrawr_test6 : HParams F :=
  set_chr_nonlinearity relu transformer_chrawr_l2.

Definition transformer_chrawr_test7 : HParams F :=
  set_chr_nonlinearity tf_nn_elu transformer_chrawr_l2.

Definition transformer_chrawr_test8 : HParams F :=
  set_chr_dropout_rate point_two transformer_chrawr_l2.

Definition transformer_chrawr_test9 : HParams F :=
  set_chr_pos_enc true transformer_chrawr_l2.

Definition transformer_chrawr_test10 : HParams F :=
  set_chr_maxpool_size 2 transformer_chrawr_l2.

Definition transformer_chrawr_test11 : HParams F :=
  set_chr_kernel_features [250; 250; 300; 300; 300]
    (set_chr_kernels [1; 2; 3; 4; 5]
       (set_chr_maxpool_size 2 transformer_chrawr_l2)).

Definition transformer_chrawr_test12 : HParams F :=
  set_chr_pos_enc true (set_chr_maxpool_size 2 transformer_chrawr_l2).

Definition transformer_chrawr_test13 : HParams F :=
  set_chr_pos_enc true
    (set_chr_kernel_features [250; 250; 300; 300; 300]
       (set_chr_kernels [1; 2; 3; 4; 5]
          (set_chr_maxpool_size 2 transformer_chrawr_l2))).

Definition transformer_chrawr_test14 : HParams F :=
  set_chr_nonlinearity relu
    (set_num_highway_layers 1
       (set_chr_pos_enc true
          (set_chr_kernel_features [250; 250; 300; 300; 300]
             (set_chr_kernels [1; 2; 3; 4; 5]
                (set_chr_maxpool_size 2 transformer_chrawr_l2))))).

Definition transformer_chrawr_mos : HParams F := transformer_chrawr_base.

Definition transformer_chrawr_mos_single_gpu : HParams F :=
  transformer_chrawr_base_single_gpu.

Definition transformer_chrawr_long_single_gpu : HParams F :=
  set_chr_maxpool_size 1 transformer_chrawr_base_single_gpu.

Definition transformer_chrawr_many_single_gpu : HParams F :=
  set_chr_maxpool_size 3
    (set_chr_kernel_features [224; 224; 224; 224; 224; 224; 224; 224]
       transformer_chrawr_base_single_gpu).

Definition transformer_chrawr_general_single_gpu : HParams F :=
  set_chr_maxpool_size 3
    (set_chr_kernel_features [224; 224; 224; 224; 224; 224; 224; 224]
       transformer_chrawr_base_single_gpu).

Definition transformer_chrawr_general_long_single_gpu : HParams F :=
  set_chr_maxpool_size 1
    (set_chr_kernel_features [224; 224; 224; 224; 224; 224; 224; 224]
       transformer_chrawr_base_single_gpu).

(** The hyperparameter sets the file registers for the character-aware
    model *)
Definition chrawr_presets : list (HParams F) :=
  [transformer_chrawr_base; transformer_chrawr_big;
   transformer_chrawr_big_single_gpu; transformer_chrawr_base_single_gpu;
   transformer_chrawr_l2; transformer_chrawr_test0;
   transformer_chrawr_test1; transformer_chrawr_test2;
   transformer_chrawr_test3; transformer_chrawr_test4;
   transformer_chrawr_test5; transformer_chrawr_test6;
   transformer_chrawr_test7; transformer_chrawr_test8;
   transformer_chrawr_test9; transformer_chrawr_test10;
   transformer_chrawr_test11; transformer_chrawr_test12;
   transformer_chrawr_test13; transformer_chrawr_test14;
   transformer_chrawr_mos; transformer_chrawr_mos_single_gpu;
   transformer_chrawr_long_single_gpu; transformer_chrawr_many_single_gpu;
   transformer_chrawr_general_single_gpu;
   transformer_chrawr_general_long_single_gpu].

End Presets.

(** *** Further examples on the rationals *)

Module PipelineExample.
Import QcScalar Example.

(** No kernel at all *)
Definition hp_nokernel : HParams Qcanon.Qc := {|
  num_highway_layers := 2;
  reduced_input_size := 3;
  hidden_size := 2;
  chr_kernels := [];
  chr_kernel_features := [];
  chr_maxpool_size := 2;
  chr_nonlinearity := soft_sign;
  chr_dropout_rate := q 0 1;
  chr_pos_enc := false
|}.

(** A rational function of the shape of elu *)
Definition soft_elu (x : Qcanon.Qc) : Qcanon.Qc :=
  if Qc_leb (q 0 1) x then x
  else Qcanon.Qcdiv x (Qcanon.Qcminus (q 1 1) x).

(** The presets with the rational stand-ins and the rate 0.2 as 1/5 *)
Definition presets : list (HParams Qcanon.Qc) :=
  chrawr_presets soft_sign soft_elu (q 1 5).

End PipelineExample.

(** *** A run in the range of float32 that overflows *)

Module Overflow.
Import QcScalar Fl32.

(** One kernel of width 1, no pooling, two highway layers with relu, no
    dropout *)
Definition hp : HParams fl := {|
  num_highway_layers := 2;
  reduced_input_size := 1;
  hidden_size := 1;
  chr_kernels := [1];
  chr_kernel_features := [1];
  chr_maxpool_size := 1;
  chr_nonlinearity := relu;
  chr_dropout_rate := Fin (q 0 1);
  chr_pos_enc := false
|}.

(** One batch element of two positions and one channel; position 1 is
    padding. *)
Definition x : Tensor fl := [[ [Fin (q 1 1)]; [Fin (q 0 1)] ]].

Definition inp : Sym fl := {| depth := 1; eval := fun _ => x |}.

(** 2^127, a float32 *)
Definition two_127 : Qcanon.Qc :=
  q 170141183460469231731687303715884105728 1.

(** Finite variables: the transform gates are at sigmoid 0, the candidate
    of the first highway layer has bias 4, the candidate of the second
    has weight 2^127, and every other layer has weight 1 and bias 0. *)
Definition w (name : string) : ConvParams fl :=
  if String.eqb name "Highway/highway_gate_0"
  then {| kernel := fun _ _ _ => Fin (q 1 1); bias := fun _ => Fin (q 4 1) |}
  else if String.eqb name "Highway/highway_gate_1"
  then {| kernel := fun _ _ _ => Fin two_127; bias := fun _ => Fin (q 0 1) |}
  else if String.eqb name "Highway/highway_lin_0"
          || String.eqb name "Highway/highway_lin_1"
  then {| kernel := fun _ _ _ => Fin (q 0 1); bias := fun _ => Fin (q 0 1) |}
  else {| kernel := fun _ _ _ => Fin (q 1 1); bias := fun _ => Fin (q 0 1) |}.

Definition env : Env fl :=
  {| weights := w; noise := fun _ _ _ _ => true |}.

Definition built : Result (Sym fl) * Graph := chrawr_embedding inp hp [].

Definition out : Sym fl :=
  match fst built with Ok s => s | Raise _ => inp end.

(** The pooled embedding and the mask recomputed from it *)
Definition built_pooled : Result (Sym fl) * Graph := chrawr_pooled inp hp [].

Definition pooled : Sym fl :=
  match fst built_pooled with Ok s => s | Raise _ => inp end.

Definition built_mask : Result (Sym fl) * Graph :=
  embedding_mask pooled (snd built_pooled).

Definition emb_mask_in : Sym fl :=
  match fst built_mask with Ok s => s | Raise _ => inp end.

End Overflow.

(** *** A run in the range of float32 with two kernels and pooling *)

Module Fl32Example.
Import QcScalar Fl32.

(** Kernels of width 1 and 2, pooling by 2 *)
Definition hp : HParams fl := {|
  num_highway_layers := 2;
  reduced_input_size := 1;
  hidden_size := 1;
  chr_kernels := [1; 2];
  chr_kernel_features := [1; 1];
  chr_maxpool_size := 2;
  chr_nonlinearity := relu;
  chr_dropout_rate := Fin (q 0 1);
  chr_pos_enc := false
|}.

(** One batch element of four positions and one channel; the positions 2
    and 3 are padding. *)
Definition row0 : list (list fl) :=
  [ [Fin (q 1 1)]; [Fin (q 2 1)]; [Fin (q 0 1)]; [Fin (q 0 1)] ].

Definition inp : Sym fl := {| depth := 1; eval := fun _ => [row0] |}.

(** The pooled embedding, with the variables of [Overflow.env] *)
Definition built_pooled : Result (Sym fl) * Graph := chrawr_pooled inp hp [].

Definition pooled : Sym fl :=
  match fst built_pooled with Ok s => s | Raise _ => inp end.

End Fl32Example.

(** ** Arithmetic of SAME padding *)

Lemma ceil_div_spec (n d : nat) :
  1 <= d ->
  n <= ceil_div n d * d /\ forall m, n <= m * d -> ceil_div n d <= m.
Proof.
  intros Hd. unfold ceil_div.
  pose proof (Nat.div_mod_eq (n + d - 1) d) as E.
  pose proof (Nat.mod_upper_bound (n + d - 1) d ltac:(lia)) as B.
  split; [nia|].
  intros m Hm.
  assert ((n + d - 1) / d < S m); [|lia].
  apply Nat.Div0.div_lt_upper_bound. nia.
Qed.

Lemma same_pad_total_pool (p n : nat) :
  1 <= p -> n + same_pad_total p p n = ceil_div n p * p.
Proof.
  intros Hp. unfold same_pad_total.
  destruct (ceil_div_spec n Hp) as [H _]. lia.
Qed.

Lemma same_pad_total_lt (p n : nat) :
  1 <= p -> same_pad_total p p n < p.
Proof.
  intros Hp. pose proof (same_pad_total_pool n Hp) as E.
  destruct (ceil_div_spec n Hp) as [H M].
  destruct (ceil_div n p) as [|o] eqn:Eo; [lia|].
  assert (~ n <= o * p) as N by (intro C; apply M in C; lia).
  nia.
Qed.

Lemma length_same_padded {A} (k s : nat) (xs : list A) :
  length (same_padded k s xs) = length xs + same_pad_total k s (length xs).
Proof.
  unfold same_padded. rewrite !length_app, !repeat_length, length_map.
  pose proof (Nat.Div0.div_le_upper_bound (same_pad_total k s (length xs)) 2
                (same_pad_total k s (length xs))).
  assert (same_pad_total k s (length xs) / 2
          <= same_pad_total k s (length xs)) by (apply Nat.Div0.div_le_upper_bound; lia).
  lia.
Qed.

(** SAME pooling with window and stride [p] yields [ceil (L / p)]
    windows. *)
Lemma length_same_windows_pool {A} (p : nat) (xs : list A) :
  1 <= p -> length (same_windows p p xs) = ceil_div (length xs) p.
Proof.
  intros Hp. unfold same_windows.
  rewrite length_map, length_seq, length_same_padded, same_pad_total_pool
    by assumption.
  unfold valid_count.
  destruct (ceil_div (length xs) p) as [|o].
  - cbn. destruct p; [lia|reflexivity].
  - replace (S o * p <? p) with false by (symmetry; apply Nat.ltb_ge; nia).
    replace (S o * p - p) with (o * p) by nia.
    rewrite Nat.div_mul by lia. lia.
Qed.

(** A SAME convolution at stride 1 keeps the length. *)
Lemma length_same_windows_conv {A} (k : nat) (xs : list A) :
  1 <= k -> length (same_windows k 1 xs) = length xs.
Proof.
  intros Hk. unfold same_windows.
  rewrite length_map, length_seq, length_same_padded.
  assert (E : same_pad_total k 1 (length xs) = k - 1).
  { unfold same_pad_total, ceil_div.
    replace (length xs + 1 - 1) with (length xs) by lia.
    rewrite Nat.div_1_r. lia. }
  rewrite E. unfold valid_count.
  destruct (length xs) as [|n].
  - replace (0 + (k - 1) <? k) with true by (symmetry; apply Nat.ltb_lt; lia).
    reflexivity.
  - replace (S n + (k - 1) <? k) with false
      by (symmetry; apply Nat.ltb_ge; lia).
    rewrite Nat.div_1_r. lia.
Qed.

Lemma firstn_1_skipn_seq {A} (l : list A) :
  map (fun i => firstn 1 (skipn i l)) (seq 0 (length l))
  = map (fun x => [x]) l.
Proof.
  induction l as [|a l IH]; [reflexivity|].
  cbn [length seq map skipn firstn]. f_equal.
  rewrite <- seq_shift, map_map. exact IH.
Qed.

(** The windows of a convolution of width 1 are the positions. *)
Lemma same_windows_1x1 {A} (xs : list A) :
  same_windows 1 1 xs = map (fun x => [Some x]) xs.
Proof.
  unfold same_windows.
  assert (P : same_padded 1 1 xs = map Some xs).
  { unfold same_padded.
    assert (E : same_pad_total 1 1 (length xs) = 0).
    { unfold same_pad_total, ceil_div.
      replace (length xs + 1 - 1) with (length xs) by lia.
      rewrite Nat.div_1_r. lia. }
    rewrite E. cbn. apply app_nil_r. }
  rewrite P, length_map.
  assert (V : valid_count 1 1 (length xs) = length xs).
  { unfold valid_count. destruct (length xs) as [|n]; [reflexivity|].
    cbn [Nat.ltb Nat.leb]. rewrite Nat.div_1_r. lia. }
  rewrite V.
  rewrite (map_ext (fun i => firstn 1 (skipn (i * 1) (map Some xs)))
                   (fun i => firstn 1 (skipn i (map Some xs))))
    by (intros i; now rewrite Nat.mul_1_r).
  rewrite <- (length_map Some xs), firstn_1_skipn_seq. apply map_map.
Qed.

(** *** Every window of a SAME pooling holds a position of the input *)

Lemma in_firstn {A} (n : nat) (l : list A) (x : A) :
  In x (firstn n l) -> In x l.
Proof.
  intros H. rewrite <- (firstn_skipn n l). apply in_app_iff. now left.
Qed.

Lemma in_skipn {A} (n : nat) (l : list A) (x : A) :
  In x (skipn n l) -> In x l.
Proof.
  intros H. rewrite <- (firstn_skipn n l). apply in_app_iff. now right.
Qed.

Lemma in_somes {A} (w : list (option A)) (x : A) :
  In x (somes w) <-> In (Some x) w.
Proof.
  unfold somes. rewrite in_flat_map. split.
  - intros ([y|] & Hy & Hx); cbn in Hx; [|tauto].
    destruct Hx as [->|[]]. assumption.
  - intros H. exists (Some x). cbn. auto.
Qed.

Lemma in_same_padded {A} (k s : nat) (xs : list A) (x : A) :
  In (Some x) (same_padded k s xs) -> In x xs.
Proof.
  unfold same_padded. rewrite !in_app_iff. intros [H|[H|H]].
  - apply repeat_spec in H. discriminate.
  - apply in_map_iff in H. destruct H as (y & E & H). now injection E as <-.
  - apply repeat_spec in H. discriminate.
Qed.

Lemma nth_error_same_padded {A} (k s : nat) (xs : list A) (j : nat) :
  j < length xs ->
  exists x,
    nth_error (same_padded k s xs) (same_pad_total k s (length xs) / 2 + j)
    = Some (Some x).
Proof.
  intros Hj. unfold same_padded.
  rewrite nth_error_app2 by (rewrite repeat_length; lia).
  rewrite repeat_length.
  replace (same_pad_total k s (length xs) / 2 + j
           - same_pad_total k s (length xs) / 2) with j by lia.
  rewrite nth_error_app1 by (now rewrite length_map).
  rewrite nth_error_map.
  destruct (nth_error xs j) as [x|] eqn:E.
  - now exists x.
  - apply nth_error_None in E. lia.
Qed.

Lemma valid_count_pool {A} (p : nat) (xs : list A) :
  1 <= p ->
  valid_count p p (length (same_padded p p xs)) = ceil_div (length xs) p.
Proof.
  intros Hp. rewrite <- (length_same_windows_pool xs Hp).
  unfold same_windows. now rewrite length_map, length_seq.
Qed.

Lemma same_windows_pool_real {A} (p : nat) (xs : list A)
    (w : list (option A)) :
  1 <= p -> In w (same_windows p p xs) ->
  (exists x, In x (somes w)) /\ (forall x, In x (somes w) -> In x xs).
Proof.
  intros Hp Hw. unfold same_windows in Hw. apply in_map_iff in Hw.
  destruct Hw as (i & <- & Hi). apply in_seq in Hi.
  rewrite valid_count_pool in Hi by assumption.
  split.
  - pose proof (same_pad_total_pool (length xs) Hp) as T.
    pose proof (same_pad_total_lt (length xs) Hp) as B.
    set (total := same_pad_total p p (length xs)) in *.
    assert (HL : total / 2 <= total)
      by (apply Nat.Div0.div_le_upper_bound; lia).
    set (q := Nat.max (i * p) (total / 2)).
    assert (Hq1 : q - total / 2 < length xs) by nia.
    destruct (nth_error_same_padded p p xs Hq1) as (x & Hx).
    fold total in Hx.
    replace (total / 2 + (q - total / 2)) with (i * p + (q - i * p)) in Hx
      by lia.
    exists x. apply in_somes.
    apply (nth_error_In _ (q - i * p)).
    rewrite nth_error_firstn.
    replace (q - i * p <? p) with true by (symmetry; apply Nat.ltb_lt; lia).
    now rewrite nth_error_skipn.
  - intros x Hx. apply in_somes in Hx. apply in_firstn, in_skipn in Hx.
    now apply in_same_padded in Hx.
Qed.

(** ** Names of variable scopes *)

Lemma append_inj_l (s a b : string) :
  (s ++ a)%string = (s ++ b)%string -> a = b.
Proof.
  induction s as [|c s IH]; cbn; intros E; [assumption|].
  injection E as E. now apply IH.
Qed.

Lemma scope_name_inj (scope a b : string) :
  scope_name scope a = scope_name scope b -> a = b.
Proof.
  unfold scope_name. destruct scope as [|c s]; [auto|].
  intros E. apply append_inj_l in E. now apply (append_inj_l "/") in E.
Qed.

Lemma str_inj (i j : nat) : str i = str j -> i = j.
Proof.
  unfold str. intros E.
  apply (f_equal NilEmpty.uint_of_string) in E.
  rewrite !NilEmpty.usu in E. injection E as E.
  apply (f_equal Nat.of_uint) in E.
  now rewrite !DecimalNat.Unsigned.of_to in E.
Qed.

Lemma lin_gate_names_differ (scope : string) (i j : nat) :
  lin_name scope i <> gate_name scope j.
Proof.
  unfold lin_name, gate_name. intros E. apply scope_name_inj in E.
  cbn in E. discriminate.
Qed.

Lemma lin_name_inj (scope : string) (i j : nat) :
  lin_name scope i = lin_name scope j -> i = j.
Proof.
  unfold lin_name. intros E. apply scope_name_inj in E.
  apply (append_inj_l "highway_lin_") in E. now apply str_inj.
Qed.

Lemma gate_name_inj (scope : string) (i j : nat) :
  gate_name scope i = gate_name scope j -> i = j.
Proof.
  unfold gate_name. intros E. apply scope_name_inj in E.
  apply (append_inj_l "highway_gate_") in E. now apply str_inj.
Qed.

(** ** Properties *)

Section Properties.

Context {F : Type} {SF : Scalar F} {SL : ScalarLaws F}.

Lemma one_neq_zero : one <> zero :> F.
Proof.
  intro E. pose proof fleb_1_0 as H. rewrite E, fleb_refl in H. discriminate.
Qed.

Lemma sumF_nonneg (v : list F) :
  Forall (fun x => fleb zero x = true) v -> fleb zero (sumF v) = true.
Proof.
  induction 1 as [|x v Hx _ IH]; cbn.
  - apply fleb_refl.
  - now apply add_nonneg.
Qed.

Lemma sumF_nonneg_eq_0 (v : list F) :
  Forall (fun x => fleb zero x = true) v ->
  sumF v = zero <-> Forall (fun x => x = zero) v.
Proof.
  induction 1 as [|x v Hx Hv IH]; cbn.
  - split; [constructor | reflexivity].
  - split.
    + intros E. apply add_eq_0 in E; [|assumption|now apply sumF_nonneg].
      destruct E as [E1 E2]. constructor; [assumption | now apply IH].
    + intros E. inversion E as [|? ? E1 E2]; subst.
      apply IH in E2. fold (sumF v). rewrite E2. apply add_0_r.
Qed.

Lemma sum_abs_eq_0 (v : list F) :
  sumF (map fabs v) = zero <-> is_padding v.
Proof.
  rewrite sumF_nonneg_eq_0.
  - unfold is_padding. rewrite Forall_map, !Forall_forall.
    split; intros E x Hx; apply fabs_eq_0; auto.
  - rewrite Forall_map. apply Forall_forall. intros x _. apply fabs_nonneg.
Qed.

Lemma embedding_mask_run (emb : Sym F) (g : Graph) :
  embedding_mask emb g =
  (Ok {| depth := 1;
         eval := fun env =>
           map (map (fun s : F => [s]))
             (map (map (fun b : bool => if b then one else zero))
                (map (map (fun s => negb (feqb s zero)))
                   (map (map sumF) (map3 fabs (eval emb env))))) |},
   g ++ ["Abs"; "Sum"; "NotEqual"; "ToFloat"; "ExpandDims"]%string).
Proof.
  unfold embedding_mask, tf_abs, tf_reduce_sum, tf_not_equal, tf_to_float,
    tf_expand_dims, bind, add_node, ret. cbn.
  now rewrite <- !app_assoc.
Qed.

(** The value of the mask at one position *)
Lemma lookup2_embedding_mask (e : Tensor F) (b t : nat) :
  lookup2
    (map (map (fun s : F => [s]))
       (map (map (fun b : bool => if b then one else zero))
          (map (map (fun s => negb (feqb s zero)))
             (map (map sumF) (map3 fabs e))))) b t =
  option_map
    (fun v => [if feqb (sumF (map fabs v)) zero then zero else one])
    (lookup2 e b t).
Proof.
  unfold lookup2, map3. rewrite !nth_error_map.
  destruct (nth_error e b) as [row|]; cbn; [|reflexivity].
  rewrite !nth_error_map.
  destruct (nth_error row t) as [v|]; cbn; [|reflexivity].
  now destruct (feqb (sumF (map fabs v)) zero).
Qed.

(** C1: the mask [embedding_mask] builds has the batch and time shape of
    the embedding and one channel; its entry at (b,t) is 1 iff the sum of
    the absolute values of the feature vector at (b,t) is not zero and 0
    otherwise, so it is 0 exactly at the padding positions (all-zero
    feature vectors) and 1 elsewhere, every entry is 0 or 1, and a tensor
    without padding positions has a mask of 1s only. *)
Theorem embedding_mask_spec (emb : Sym F) (g : Graph) :
  exists m g',
    embedding_mask emb g = (Ok m, g') /\ depth m = 1 /\
    forall env,
      (forall b t,
          match lookup2 (eval emb env) b t with
          | None => lookup2 (eval m env) b t = None
          | Some v =>
              exists x,
                lookup2 (eval m env) b t = Some [x] /\
                (x = one <-> sumF (map fabs v) <> zero) /\
                (x = zero <-> sumF (map fabs v) = zero) /\
                (x = zero <-> is_padding v) /\
                (x = one <-> ~ is_padding v) /\
                (x = zero \/ x = one)
          end) /\
      ((forall b t v, lookup2 (eval emb env) b t = Some v -> ~ is_padding v) ->
       forall b t v, lookup2 (eval emb env) b t = Some v ->
                     lookup2 (eval m env) b t = Some [one]).
Proof.
  eexists. eexists. split; [apply embedding_mask_run|].
  split; [reflexivity|]. intros env. cbn [eval].
  assert (P : forall b t,
             match lookup2 (eval emb env) b t with
             | None => lookup2 (map (map (fun s : F => [s]))
                 (map (map (fun b : bool => if b then one else zero))
                    (map (map (fun s => negb (feqb s zero)))
                       (map (map sumF) (map3 fabs (eval emb env)))))) b t
                       = None
             | Some v =>
                 exists x,
                 lookup2 (map (map (fun s : F => [s]))
                   (map (map (fun b : bool => if b then one else zero))
                     (map (map (fun s => negb (feqb s zero)))
                       (map (map sumF) (map3 fabs (eval emb env)))))) b t
                       = Some [x] /\
                 (x = one <-> sumF (map fabs v) <> zero) /\
                 (x = zero <-> sumF (map fabs v) = zero) /\
                 (x = zero <-> is_padding v) /\
                 (x = one <-> ~ is_padding v) /\
                 (x = zero \/ x = one)
             end).
  { intros b t. rewrite lookup2_embedding_mask.
    destruct (lookup2 (eval emb env) b t) as [v|]; cbn; [|reflexivity].
    pose proof (feqb_eq (sumF (map fabs v)) zero) as E.
    pose proof (sum_abs_eq_0 v) as Z.
    pose proof one_neq_zero as N.
    destruct (feqb (sumF (map fabs v)) zero); eexists; (split; [reflexivity|]).
    - assert (S0 : sumF (map fabs v) = zero) by now apply E.
      repeat split; intros; try tauto; try congruence.
    - assert (S1 : sumF (map fabs v) <> zero).
      { intro S0. apply E in S0. discriminate. }
      repeat split; intros; try tauto; try congruence. }
  split; [exact P|].
  intros NP b t v Hv. specialize (P b t). rewrite Hv in P.
  destruct P as (x & Hx & _ & _ & _ & H1 & _).
  rewrite Hx. do 2 f_equal. apply H1. eauto.
Qed.

(** *** Broadcasting *)

Lemma bzip_map_r {A B C} (f : A -> B -> C) (h : A -> B) (a : list A) :
  bzip f a (map h a) = map (fun x => f x (h x)) a.
Proof.
  destruct a as [|x [|y a]]; try reflexivity.
  unfold bzip, zipWith. cbn [map]. cbn. f_equal. f_equal.
  induction a as [|z a IH]; cbn; [reflexivity|now rewrite IH].
Qed.

Lemma bzip_singleton_r {A B C} (f : A -> B -> C) (a : list A) (y : B) :
  bzip f a [y] = map (fun x => f x y) a.
Proof. destruct a as [|x [|x' a]]; reflexivity. Qed.

Lemma mask_maps_eq (e : Tensor F) :
  map (map (fun s : F => [s]))
    (map (map (fun b : bool => if b then one else zero))
       (map (map (fun s => negb (feqb s zero)))
          (map (map sumF) (map3 fabs e)))) = mask_value e.
Proof.
  unfold mask_value, map3, mask_bit. rewrite !map_map.
  apply map_ext. intros row. rewrite !map_map. apply map_ext. intros v.
  now destruct (feqb (sumF (map fabs v)) zero).
Qed.

(** A tensor times its own mask, evaluated *)
Lemma bzip3_mul_mask (e : Tensor F) (m : list F -> F) :
  bzip3 mul e (map (map (fun v => [m v])) e) = masked_by e m.
Proof.
  unfold bzip3, masked_by. rewrite bzip_map_r. apply map_ext. intros row.
  rewrite bzip_map_r. apply map_ext. intros v. apply bzip_singleton_r.
Qed.

Lemma broadcast_depth_1_r (d : nat) : broadcast_depth d 1 = Some d.
Proof.
  unfold broadcast_depth. destruct (d =? 1) eqn:E; [reflexivity|].
  reflexivity.
Qed.

Lemma broadcast_depth_refl (d : nat) : broadcast_depth d d = Some d.
Proof. unfold broadcast_depth. now rewrite Nat.eqb_refl. Qed.

Lemma mask_bit_cases (v : list F) :
  (mask_bit v = zero /\ is_padding v) \/ (mask_bit v = one /\ ~ is_padding v).
Proof.
  unfold mask_bit. pose proof (feqb_eq (sumF (map fabs v)) zero) as E.
  pose proof (sum_abs_eq_0 v) as Z.
  destruct (feqb (sumF (map fabs v)) zero).
  - left. split; [reflexivity|]. apply Z. now apply E.
  - right. split; [reflexivity|]. intro P. apply Z in P. apply E in P.
    discriminate.
Qed.

Lemma mask_bit_masked (v : list F) :
  mask_bit (map (fun x => mul x (mask_bit v)) v) = mask_bit v.
Proof.
  destruct (mask_bit_cases v) as [[E P]|[E P]]; rewrite E.
  - destruct (mask_bit_cases (map (fun x => mul x zero) v)) as [[E' _]|[_ P']];
      [assumption|].
    exfalso. apply P'. unfold is_padding. rewrite Forall_map.
    apply Forall_forall. intros x _. apply mul_0_r.
  - rewrite (map_ext _ (fun x => x)) by (intros; apply mul_1_r).
    now rewrite map_id.
Qed.

(** C9: masking is idempotent.  The mask extracted from an embedding times
    its own mask is, in every run, the mask of the embedding. *)
Theorem embedding_mask_idempotent (emb : Sym F) (g : Graph) :
  exists m g1 masked g2 m' g3,
    embedding_mask emb g = (Ok m, g1) /\
    tf_multiply emb m g1 = (Ok masked, g2) /\
    embedding_mask masked g2 = (Ok m', g3) /\
    forall env, eval m' env = eval m env.
Proof.
  do 6 eexists. split; [apply embedding_mask_run|].
  split.
  { unfold tf_multiply, binary_op. cbn [depth].
    rewrite broadcast_depth_1_r. reflexivity. }
  split; [apply embedding_mask_run|].
  intros env. cbn [eval]. rewrite !mask_maps_eq.
  unfold mask_value at 2. rewrite bzip3_mul_mask.
  unfold mask_value, masked_by. rewrite !map_map. apply map_ext.
  intros row. rewrite !map_map. apply map_ext. intros v.
  now rewrite mask_bit_masked.
Qed.

(** *** Batch and time shape of the kernels *)

Lemma length_zipWith {A B C} (f : A -> B -> C) (a : list A) (b : list B) :
  length (zipWith f a b) = Nat.min (length a) (length b).
Proof. unfold zipWith. now rewrite length_map, length_combine. Qed.

Lemma length_imap {A B} (f : nat -> A -> B) (l : list A) :
  length (imap f l) = length l.
Proof.
  unfold imap. rewrite length_map, length_combine, length_seq. lia.
Qed.

Lemma bzip_eq_zipWith {A B C} (f : A -> B -> C) (a : list A) (b : list B) :
  length a = length b -> bzip f a b = zipWith f a b.
Proof.
  destruct a as [|x [|x' a]], b as [|y [|y' b]]; cbn; intros E;
    try discriminate; reflexivity.
Qed.

Lemma zipWith_cons {A B C} (f : A -> B -> C) x a y b :
  zipWith f (x :: a) (y :: b) = f x y :: zipWith f a b.
Proof. reflexivity. Qed.

Lemma bt_shape_map3 (f : F -> F) (x : Tensor F) :
  bt_shape (map3 f x) = bt_shape x.
Proof.
  unfold bt_shape, map3. rewrite map_map. apply map_ext. intros r.
  apply length_map.
Qed.

Lemma map_snd_combine_seq {A B} (h : A -> B) (l : list A) (i : nat) :
  map (fun p : nat * A => h (snd p)) (combine (seq i (length l)) l) = map h l.
Proof.
  revert i. induction l as [|a l IH]; intros i; [reflexivity|].
  cbn. f_equal. apply IH.
Qed.

Lemma map_imap {A B C} (g : B -> C) (f : nat -> A -> B) (h : A -> C)
    (l : list A) :
  (forall i a, g (f i a) = h a) -> map g (imap f l) = map h l.
Proof.
  intros E. unfold imap. rewrite map_map.
  rewrite <- (map_snd_combine_seq h l 0). apply map_ext. intros [i a].
  apply E.
Qed.

Lemma bt_shape_imap3 (f : nat -> nat -> nat -> F -> F) (x : Tensor F) :
  bt_shape (imap3 f x) = bt_shape x.
Proof.
  unfold bt_shape, imap3. apply map_imap. intros i r. apply length_imap.
Qed.

Lemma bt_shape_mask_value (x : Tensor F) :
  bt_shape (mask_value x) = bt_shape x.
Proof.
  unfold bt_shape, mask_value. rewrite map_map. apply map_ext. intros r.
  apply length_map.
Qed.

Lemma bt_shape_conv1d (P : ConvParams F) (filters k : nat)
    (activation : option (F -> F)) (x : Tensor F) :
  1 <= k -> bt_shape (conv1d_same P filters k 1 activation x) = bt_shape x.
Proof.
  intros Hk. unfold bt_shape, conv1d_same. rewrite map_map. apply map_ext.
  intros r. rewrite length_map. now apply length_same_windows_conv.
Qed.

Lemma bt_shape_max_pool (p : nat) (x : Tensor F) :
  1 <= p ->
  bt_shape (max_pool_same p p x) = map (fun L => ceil_div L p) (bt_shape x).
Proof.
  intros Hp. unfold bt_shape, max_pool_same. rewrite !map_map.
  apply map_ext. intros r. rewrite length_map.
  now apply length_same_windows_pool.
Qed.

Lemma bt_shape_zipWith {X Y Z} (f : X -> Y -> Z)
    (x : list (list X)) (y : list (list Y)) :
  map (@length X) x = map (@length Y) y ->
  map (@length Z) (zipWith (zipWith f) x y) = map (@length X) x.
Proof.
  revert y. induction x as [|r x IH]; intros [|r' y] E; try discriminate;
    [reflexivity|].
  cbn in E. injection E as E1 E2. rewrite zipWith_cons. cbn [map].
  f_equal; [|now apply IH].
  rewrite length_zipWith. lia.
Qed.

Lemma bzip3_eq_zipWith (f : F -> F -> F) (x y : Tensor F) :
  bt_shape x = bt_shape y ->
  bzip3 f x y = zipWith (zipWith (bzip f)) x y.
Proof.
  intros E. unfold bzip3.
  rewrite bzip_eq_zipWith
    by (apply (f_equal (@length nat)) in E; unfold bt_shape in E;
        now rewrite !length_map in E).
  unfold bt_shape in E. revert y E.
  induction x as [|r x IH]; intros [|r' y] E; try discriminate;
    [reflexivity|].
  cbn in E. injection E as E1 E2. rewrite !zipWith_cons.
  f_equal; [now apply bzip_eq_zipWith | now apply IH].
Qed.

Lemma bt_shape_bzip3 (f : F -> F -> F) (x y : Tensor F) :
  bt_shape x = bt_shape y -> bt_shape (bzip3 f x y) = bt_shape x.
Proof.
  intros E. rewrite bzip3_eq_zipWith by assumption.
  now apply bt_shape_zipWith.
Qed.

Lemma bt_shape_concat (x y : Tensor F) :
  bt_shape x = bt_shape y -> bt_shape (concat_channels x y) = bt_shape x.
Proof. intros E. now apply bt_shape_zipWith. Qed.

(** *** Running the construction *)

Lemma binary_op_ok (label : string) (f : F -> F -> F) (x y : Sym F)
    (d : nat) (g : Graph) :
  broadcast_depth (depth x) (depth y) = Some d ->
  binary_op label f x y g =
  (Ok {| depth := d; eval := fun env => bzip3 f (eval x env) (eval y env) |},
   g ++ [label]).
Proof. intros E. unfold binary_op. now rewrite E. Qed.

Lemma binary_op_inv (label : string) (f : F -> F -> F) (x y z : Sym F)
    (g g' : Graph) :
  binary_op label f x y g = (Ok z, g') ->
  g' = g ++ [label] /\
  broadcast_depth (depth x) (depth y) = Some (depth z) /\
  forall env, eval z env = bzip3 f (eval x env) (eval y env).
Proof.
  unfold binary_op.
  destruct (broadcast_depth (depth x) (depth y)) as [d|]; [|discriminate].
  cbn. intros E. injection E as E1 E2. subst. auto.
Qed.

Lemma highway_body_ok (size : nat) (hp : HParams F) (scope : string)
    (idx : nat) (inp : Sym F) (o : option (Sym F)) (g : Graph) :
  depth inp = size ->
  exists out,
    highway_body size hp scope idx (inp, o) g =
    (Ok (out, Some out), g ++ highway_layer_nodes scope idx) /\
    depth out = size /\
    forall env,
      eval out env = highway_layer_eval size hp scope idx (eval inp env) env.
Proof.
  intros D. unfold highway_body, tf_layers_conv1d, tf_multiply, tf_add,
    tf_rsub, bind. cbn [fst Nat.eqb add_node ret].
  rewrite (@binary_op_ok _ _ _ _ size) by (cbn; apply broadcast_depth_refl).
  cbn [add_node ret].
  rewrite (@binary_op_ok _ _ _ _ size)
    by (cbn; rewrite D; apply broadcast_depth_refl).
  rewrite (@binary_op_ok _ _ _ _ size) by (cbn; apply broadcast_depth_refl).
  eexists. split.
  - unfold highway_layer_nodes, lin_name, gate_name.
    rewrite <- !app_assoc. reflexivity.
  - split; reflexivity.
Qed.

Lemma highway_body_inv (size : nat) (hp : HParams F) (scope : string)
    (idx : nat) (st st' : Sym F * option (Sym F)) (g g' : Graph) :
  highway_body size hp scope idx st g = (Ok st', g') ->
  snd st' = Some (fst st') /\
  g' = g ++ highway_layer_nodes scope idx /\
  forall env,
    eval (fst st') env
    = highway_layer_eval size hp scope idx (eval (fst st) env) env.
Proof.
  unfold highway_body, tf_layers_conv1d, tf_multiply, tf_add, tf_rsub, bind.
  cbn [Nat.eqb add_node ret].
  match goal with
  | |- context [binary_op ?l ?f ?x ?y ?g] =>
      destruct (binary_op l f x y g) as [[tg|e] g1] eqn:E1; [|discriminate]
  end.
  cbn [add_node ret].
  match goal with
  | |- context [binary_op "Mul" ?f ?x (fst st) ?g] =>
      destruct (binary_op "Mul" f x (fst st) g) as [[ci|e] g2] eqn:E2;
        [|discriminate]
  end.
  match goal with
  | |- context [binary_op ?l ?f ?x ?y ?g] =>
      destruct (binary_op l f x y g) as [[out|e] g3] eqn:E3; [|discriminate]
  end.
  intros E. injection E as E4 E5. subst st' g'. cbn [fst snd].
  apply binary_op_inv in E1, E2, E3.
  destruct E1 as (G1 & _ & V1), E2 as (G2 & _ & V2), E3 as (G3 & _ & V3).
  subst. split; [reflexivity|]. split.
  - unfold highway_layer_nodes, lin_name, gate_name.
    rewrite <- !app_assoc. reflexivity.
  - intros env. rewrite V3, V1, V2. reflexivity.
Qed.

Lemma highway_loop_ok (size : nat) (hp : HParams F) (scope : string)
    (idxs : list nat) (inp : Sym F) (o : option (Sym F)) (g : Graph) :
  depth inp = size ->
  exists out o',
    for_each idxs (highway_body size hp scope) (inp, o) g =
    (Ok (out, o'), g ++ flat_map (highway_layer_nodes scope) idxs) /\
    depth out = size /\
    (o' = match idxs with [] => o | _ => Some out end) /\
    forall env,
      eval out env = highway_eval size hp scope idxs (eval inp env) env.
Proof.
  revert inp o g. induction idxs as [|idx idxs IH]; intros inp o g D.
  - exists inp, o. cbn. rewrite app_nil_r. auto.
  - destruct (@highway_body_ok size hp scope idx inp o g D)
      as (mid & R & Dm & V).
    destruct (IH mid (Some mid) (g ++ highway_layer_nodes scope idx) Dm)
      as (out & o' & R' & Do & O & V').
    exists out, (Some out). cbn [for_each]. unfold bind at 1. rewrite R, R'.
    assert (O' : o' = Some out).
    { rewrite O. destruct idxs; [|reflexivity]. cbn in R'.
      injection R' as R' _. now subst. }
    rewrite O'.
    split; [cbn [flat_map]; now rewrite app_assoc|].
    split; [assumption|]. split.
    + reflexivity.
    + intros env. rewrite V'. cbn [highway_eval fold_left].
      unfold highway_eval. now rewrite V.
Qed.

Lemma highway_loop_inv (size : nat) (hp : HParams F) (scope : string)
    (idxs : list nat) (st st' : Sym F * option (Sym F)) (g g' : Graph) :
  for_each idxs (highway_body size hp scope) st g = (Ok st', g') ->
  g' = g ++ flat_map (highway_layer_nodes scope) idxs /\
  snd st' = match idxs with [] => snd st | _ => Some (fst st') end /\
  forall env,
    eval (fst st') env = highway_eval size hp scope idxs (eval (fst st) env) env.
Proof.
  revert st g g'. induction idxs as [|idx idxs IH]; intros st g g' R.
  - cbn in R. injection R as R1 R2. subst. cbn. rewrite app_nil_r. auto.
  - cbn [for_each] in R. unfold bind at 1 in R.
    destruct (highway_body size hp scope idx st g) as [[mid|e] g1] eqn:B;
      [|discriminate].
    apply highway_body_inv in B. destruct B as (S1 & G1 & V1).
    assert (L : idxs = [] -> st' = mid).
    { intros ->. cbn in R. now injection R as R _. }
    apply IH in R. destruct R as (G2 & S2 & V2). subst g1 g'.
    split; [cbn [flat_map]; now rewrite app_assoc|]. split.
    + rewrite S2. destruct idxs; [|reflexivity].
      now rewrite (L eq_refl).
    + intros env. rewrite V2. unfold highway_eval. cbn [fold_left].
      now rewrite V1.
Qed.

Lemma highway_ok (inputs : Sym F) (size : nat) (hp : HParams F) (b : F)
    (f : F -> F) (scope : string) (g : Graph) :
  1 <= num_highway_layers hp -> depth inputs = size ->
  exists out,
    highway inputs size hp b f scope g =
    (Ok out,
     g ++ flat_map (highway_layer_nodes scope)
            (seq 0 (num_highway_layers hp))) /\
    depth out = size /\
    forall env,
      eval out env = highway_eval size hp scope
                       (seq 0 (num_highway_layers hp)) (eval inputs env) env.
Proof.
  intros N D. unfold highway.
  destruct (@highway_loop_ok size hp scope (seq 0 (num_highway_layers hp))
              inputs None g D) as (out & o' & R & Do & O & V).
  exists out. unfold bind. rewrite R. cbn [snd]. rewrite O.
  destruct (num_highway_layers hp) as [|n]; [lia|].
  cbn [seq]. auto.
Qed.

Lemma highway_inv (inputs : Sym F) (size : nat) (hp : HParams F) (b : F)
    (f : F -> F) (scope : string) (g g' : Graph) (out : Sym F) :
  highway inputs size hp b f scope g = (Ok out, g') ->
  1 <= num_highway_layers hp /\
  g' = g ++ flat_map (highway_layer_nodes scope)
              (seq 0 (num_highway_layers hp)) /\
  forall env,
    eval out env = highway_eval size hp scope
                     (seq 0 (num_highway_layers hp)) (eval inputs env) env.
Proof.
  unfold highway, bind.
  destruct (for_each (seq 0 (num_highway_layers hp))
              (highway_body size hp scope) (inputs, None) g)
    as [[[last o]|e] g1] eqn:R; [|discriminate].
  apply highway_loop_inv in R. cbn [fst snd] in R.
  destruct R as (G1 & O & V). subst g1.
  destruct (num_highway_layers hp) as [|n].
  - cbn in O. subst o. discriminate.
  - cbn [seq] in O. subst o. cbn. intros E. injection E as E1 E2. subst.
    split; [lia|]. auto.
Qed.

(** C10: with a layer count of zero the loop of [highway] does not run,
    [output] is never assigned and [return output] raises: the call fails
    and adds nothing to the graph; it does not return its input.  With a
    layer count N >= 1 (and the projections as wide as the input, as the
    pipeline calls it) the call returns a tensor. *)
Theorem highway_zero_layers_unbound (inputs : Sym F) (size : nat)
    (hp : HParams F) (b : F) (f : F -> F) (scope : string) (g : Graph) :
  (num_highway_layers hp = 0 ->
   highway inputs size hp b f scope g
   = (Raise (UnboundLocalError "output"), g)) /\
  (1 <= num_highway_layers hp -> size = depth inputs ->
   exists out g',
     highway inputs size hp b f scope g = (Ok out, g') /\
     depth out = depth inputs).
Proof.
  split.
  - intros N. unfold highway. rewrite N. reflexivity.
  - intros N D. symmetry in D.
    destruct (@highway_ok inputs size hp b f scope g N D) as (out & R & Do & _).
    exists out. eexists. split; [exact R|]. congruence.
Qed.

(** *** The highway layer against its specification *)

Lemma bzip_map_map {A B C D} (f : A -> B -> C) (a : D -> A) (b : D -> B)
    (l : list D) :
  bzip f (map a l) (map b l) = map (fun x => f (a x) (b x)) l.
Proof.
  destruct l as [|x [|y l]]; try reflexivity.
  unfold bzip, zipWith. cbn [map combine fst snd]. do 2 f_equal.
  induction l as [|z l IH]; cbn; [reflexivity|now rewrite IH].
Qed.

Lemma bzip_map_l {A B C} (f : A -> B -> C) (a : B -> A) (l : list B) :
  bzip f (map a l) l = map (fun x => f (a x) x) l.
Proof.
  rewrite <- (map_id l) at 2. apply bzip_map_map.
Qed.

Lemma conv1d_same_1x1 (P : ConvParams F) (W : nat)
    (activation : option (F -> F)) (x : Tensor F) :
  conv1d_same P W 1 1 activation x =
  map (map (fun v => map (fun o => activate activation (linear P v o))
                         (seq 0 W))) x.
Proof.
  unfold conv1d_same. apply map_ext. intros row.
  rewrite same_windows_1x1, map_map. apply map_ext. intros v.
  apply map_ext. intros o. unfold linear, window_dot, imap. cbn.
  now rewrite add_0_r.
Qed.

Lemma map_nth_seq (v : list F) :
  map (fun c => nth c v zero) (seq 0 (length v)) = v.
Proof.
  induction v as [|a v IH]; [reflexivity|].
  cbn [length seq map nth]. f_equal.
  rewrite <- seq_shift, map_map. exact IH.
Qed.

Lemma highway_vector (ta gb : nat -> F) (v : list F) (W : nat) :
  length v = W ->
  bzip add (bzip mul (map ta (seq 0 W)) (map gb (seq 0 W)))
           (bzip mul (map (sub one) (map ta (seq 0 W))) v)
  = map (fun c => add (mul (ta c) (gb c))
                      (mul (sub one (ta c)) (nth c v zero)))
        (seq 0 W).
Proof.
  intros L. rewrite <- (map_nth_seq v) at 1. rewrite L.
  now rewrite map_map, !bzip_map_map.
Qed.

Lemma highway_layer_eval_spec (W : nat) (hp : HParams F) (scope : string)
    (idx : nat) (x : Tensor F) (env : Env F) :
  channels W x ->
  highway_layer_eval W hp scope idx x env
  = highway_layer_spec (weights env (lin_name scope idx))
                       (weights env (gate_name scope idx))
                       (chr_nonlinearity hp) W x.
Proof.
  intros C. unfold highway_layer_eval, highway_layer_spec, bzip3, map3.
  rewrite !conv1d_same_1x1. rewrite map_map, bzip_map_map.
  rewrite bzip_map_l, bzip_map_map.
  apply map_ext_in. intros row Hrow.
  rewrite map_map, bzip_map_map, bzip_map_l, bzip_map_map.
  apply map_ext_in. intros v Hv.
  unfold channels in C. rewrite Forall_forall in C.
  specialize (C row Hrow). rewrite Forall_forall in C.
  specialize (C v Hv). cbn [activate].
  now apply highway_vector.
Qed.

Lemma channels_highway_layer_spec (Plin Pgate : ConvParams F)
    (nl : F -> F) (W : nat) (x : Tensor F) :
  channels W (highway_layer_spec Plin Pgate nl W x).
Proof.
  unfold channels, highway_layer_spec. rewrite Forall_map.
  apply Forall_forall. intros row _. rewrite Forall_map.
  apply Forall_forall. intros v _. now rewrite length_map, length_seq.
Qed.

Lemma bt_shape_highway_layer_spec (Plin Pgate : ConvParams F)
    (nl : F -> F) (W : nat) (x : Tensor F) :
  bt_shape (highway_layer_spec Plin Pgate nl W x) = bt_shape x.
Proof.
  unfold bt_shape, highway_layer_spec. rewrite map_map. apply map_ext.
  intros row. apply length_map.
Qed.

Lemma highway_eval_spec (W : nat) (hp : HParams F) (scope : string)
    (idxs : list nat) (x : Tensor F) (env : Env F) :
  channels W x ->
  let y := fold_left (fun x i =>
               highway_layer_spec (weights env (lin_name scope i))
                                  (weights env (gate_name scope i))
                                  (chr_nonlinearity hp) W x) idxs x in
  highway_eval W hp scope idxs x env = y /\
  channels W y /\ bt_shape y = bt_shape x.
Proof.
  revert x. induction idxs as [|i idxs IH]; intros x C.
  - cbn. auto.
  - unfold highway_eval in IH.
    destruct (IH _ (channels_highway_layer_spec
                      (weights env (lin_name scope i))
                      (weights env (gate_name scope i))
                      (chr_nonlinearity hp) W x)) as (E & C' & B).
    cbn zeta in E, C', B |- *. unfold highway_eval. cbn [fold_left].
    rewrite highway_layer_eval_spec by assumption.
    rewrite E. split; [reflexivity|]. split; [assumption|].
    now rewrite B, bt_shape_highway_layer_spec.
Qed.

(** C4: for a layer count N >= 1, [highway] returns the tensor of N
    sequential layers, each computing at every position and channel
    [t * g + (1 - t) * input] with [t] the sigmoid of a linear projection
    of the layer's input and [g] the configured nonlinearity of a linear
    projection with parameters of its own (no two projections of the stack
    share a variable scope); the output has the shape of the input: the
    same batch and time shape and the same channel width. *)
Theorem highway_layers_spec (inputs : Sym F) (hp : HParams F) (b : F)
    (f : F -> F) (scope : string) (g : Graph) :
  1 <= num_highway_layers hp -> wf_sym inputs ->
  exists out g',
    highway inputs (depth inputs) hp b f scope g = (Ok out, g') /\
    depth out = depth inputs /\
    wf_sym out /\
    (forall env,
        eval out env
        = highway_spec env scope (chr_nonlinearity hp) (depth inputs)
                       (num_highway_layers hp) (eval inputs env) /\
        bt_shape (eval out env) = bt_shape (eval inputs env)) /\
    (forall i j, lin_name scope i <> gate_name scope j) /\
    (forall i j, lin_name scope i = lin_name scope j -> i = j) /\
    (forall i j, gate_name scope i = gate_name scope j -> i = j).
Proof.
  intros N WF.
  destruct (@highway_ok inputs (depth inputs) hp b f scope g N eq_refl)
    as (out & R & D & V).
  exists out. eexists. split; [exact R|]. split; [exact D|].
  assert (S : forall env,
             eval out env
             = highway_spec env scope (chr_nonlinearity hp) (depth inputs)
                 (num_highway_layers hp) (eval inputs env) /\
             channels (depth inputs) (eval out env) /\
             bt_shape (eval out env) = bt_shape (eval inputs env)).
  { intros env. rewrite V.
    destruct (@highway_eval_spec (depth inputs) hp scope
                (seq 0 (num_highway_layers hp)) (eval inputs env) env
                (WF env)) as (E & C & B).
    cbn zeta in E, C, B. rewrite E. unfold highway_spec. auto. }
  split.
  { intros env. rewrite D. apply (S env). }
  split.
  { intros env. split; apply (S env). }
  split; [apply lin_gate_names_differ|].
  split; [apply lin_name_inj | apply gate_name_inj].
Qed.

(** *** Channel width of the kernels *)

Lemma Forall_zipWith {A B C} (P : C -> Prop) (f : A -> B -> C)
    (a : list A) (b : list B) :
  (forall x y, In x a -> In y b -> P (f x y)) -> Forall P (zipWith f a b).
Proof.
  intros H. unfold zipWith. rewrite Forall_map. apply Forall_forall.
  intros [x y] Hxy. cbn. apply H.
  - eapply in_combine_l; eassumption.
  - eapply in_combine_r; eassumption.
Qed.

Lemma Forall_bzip {A B C} (P : C -> Prop) (f : A -> B -> C)
    (a : list A) (b : list B) :
  (forall x y, In x a -> In y b -> P (f x y)) -> Forall P (bzip f a b).
Proof.
  intros H.
  assert (Z : Forall P (zipWith f a b)) by now apply Forall_zipWith.
  assert (L : forall x, a = [x] -> Forall P (map (f x) b)).
  { intros x ->. rewrite Forall_map. apply Forall_forall. intros y Hy.
    apply H; cbn; auto. }
  assert (R : forall y, b = [y] -> Forall P (map (fun x => f x y) a)).
  { intros y ->. rewrite Forall_map. apply Forall_forall. intros x Hx.
    apply H; cbn; auto. }
  destruct a as [|x [|x' a]], b as [|y [|y' b]]; cbn;
    solve [ exact Z | now apply L | now apply R ].
Qed.

Lemma channels_in (d : nat) (x : Tensor F) (row : list (list F))
    (v : list F) :
  channels d x -> In row x -> In v row -> length v = d.
Proof.
  unfold channels. rewrite Forall_forall. intros C Hr Hv.
  specialize (C row Hr). rewrite Forall_forall in C. now apply C.
Qed.

Lemma channels_conv1d (P : ConvParams F) (filters k s : nat)
    (activation : option (F -> F)) (x : Tensor F) :
  channels filters (conv1d_same P filters k s activation x).
Proof.
  unfold channels, conv1d_same. rewrite Forall_map. apply Forall_forall.
  intros row _. rewrite Forall_map. apply Forall_forall. intros w _.
  now rewrite length_map, length_seq.
Qed.

Lemma channels_mask_value (x : Tensor F) : channels 1 (mask_value x).
Proof.
  unfold channels, mask_value. rewrite Forall_map. apply Forall_forall.
  intros row _. rewrite Forall_map. apply Forall_forall. now intros v _.
Qed.

(** A product with a one-channel tensor keeps the channel width. *)
Lemma channels_bzip3_mask (f : F -> F -> F) (d : nat) (x m : Tensor F) :
  channels d x -> channels 1 m -> channels d (bzip3 f x m).
Proof.
  intros Cx Cm. unfold channels, bzip3. apply Forall_bzip.
  intros r r' Hr Hr'. apply Forall_bzip. intros v v' Hv Hv'.
  pose proof (@channels_in _ _ _ _ Cx Hr Hv) as Lv.
  pose proof (@channels_in _ _ _ _ Cm Hr' Hv') as Lv'.
  destruct v' as [|y [|y' v']]; try discriminate.
  now rewrite bzip_singleton_r, length_map.
Qed.

Lemma length_fold_zipWith (f : F -> F -> F) (d : nat) (vs : list (list F))
    (v : list F) :
  length v = d -> Forall (fun u => length u = d) vs ->
  length (fold_left (zipWith f) vs v) = d.
Proof.
  intros Lv H. revert v Lv. induction H as [|u vs Lu _ IH]; intros v Lv;
    [assumption|].
  cbn. apply IH. rewrite length_zipWith. lia.
Qed.

Lemma channels_max_pool (p d : nat) (x : Tensor F) :
  1 <= p -> channels d x -> channels d (max_pool_same p p x).
Proof.
  intros Hp C. unfold channels, max_pool_same. rewrite Forall_map.
  apply Forall_forall. intros row Hrow. rewrite Forall_map.
  apply Forall_forall. intros w Hw.
  destruct (@same_windows_pool_real _ p row w Hp Hw) as ((x0 & Hx0) & Hin).
  assert (L : Forall (fun u => length u = d) (somes w)).
  { apply Forall_forall. intros u Hu.
    apply (@channels_in _ _ _ _ C Hrow). now apply Hin. }
  unfold pool_window. destruct (somes w) as [|v vs]; [destruct Hx0|].
  inversion L; subst. now apply length_fold_zipWith.
Qed.

Lemma channels_concat (d1 d2 : nat) (x y : Tensor F) :
  channels d1 x -> channels d2 y -> channels (d1 + d2) (concat_channels x y).
Proof.
  intros Cx Cy. unfold channels, concat_channels. apply Forall_zipWith.
  intros r r' Hr Hr'. apply Forall_zipWith. intros v v' Hv Hv'.
  rewrite length_app.
  now rewrite (@channels_in _ _ _ _ Cx Hr Hv), (@channels_in _ _ _ _ Cy Hr' Hv').
Qed.

(** *** Running [conv_emb] *)

Lemma conv_emb_body_inv (inputs : Sym F) (hp : HParams F) (mask : Sym F)
    (scope : string) (kf : nat * nat) (layers layers' : list (Sym F))
    (g g' : Graph) :
  conv_emb_body inputs hp mask scope kf layers g = (Ok layers', g') ->
  exists pool,
    layers' = layers ++ [pool] /\
    g' = g ++ branch_nodes scope kf /\
    1 <= chr_maxpool_size hp /\
    broadcast_depth (snd kf) (depth mask) = Some (depth pool) /\
    forall env,
      eval pool env
      = branch_eval hp scope kf (eval inputs env) (eval mask env) env.
Proof.
  unfold conv_emb_body, tf_layers_conv1d, tf_layers_max_pooling1d,
    tf_multiply, bind.
  cbn [Nat.eqb add_node ret].
  match goal with
  | |- context [binary_op ?l ?f ?x ?y ?g] =>
      destruct (binary_op l f x y g) as [[conv|e] g1] eqn:E1; [|discriminate]
  end.
  apply binary_op_inv in E1. destruct E1 as (G1 & D1 & V1). cbn in D1.
  destruct (chr_maxpool_size hp =? 0) eqn:P; [discriminate|].
  apply Nat.eqb_neq in P. cbn [add_node ret].
  intros E. injection E as E1 E2. subst.
  eexists. split; [reflexivity|]. split.
  { unfold branch_nodes, kernel_name. rewrite <- !app_assoc. reflexivity. }
  split; [lia|]. split; [exact D1|].
  intros env. cbn [eval]. rewrite V1. reflexivity.
Qed.

Lemma conv_emb_body_ok (inputs : Sym F) (hp : HParams F) (mask : Sym F)
    (scope : string) (kf : nat * nat) (layers : list (Sym F)) (g : Graph) :
  1 <= chr_maxpool_size hp -> depth mask = 1 ->
  exists pool,
    conv_emb_body inputs hp mask scope kf layers g
    = (Ok (layers ++ [pool]), g ++ branch_nodes scope kf) /\
    depth pool = snd kf /\
    forall env,
      eval pool env
      = branch_eval hp scope kf (eval inputs env) (eval mask env) env.
Proof.
  intros P D.
  unfold conv_emb_body, tf_layers_conv1d, tf_layers_max_pooling1d,
    tf_multiply, bind.
  cbn [Nat.eqb add_node ret].
  rewrite (@binary_op_ok _ _ _ _ (snd kf))
    by (cbn; rewrite D; apply broadcast_depth_1_r).
  replace (chr_maxpool_size hp =? 0) with false
    by (symmetry; apply Nat.eqb_neq; lia).
  cbn [add_node ret]. eexists. split.
  { unfold branch_nodes, kernel_name. rewrite <- !app_assoc. reflexivity. }
  split; reflexivity.
Qed.

Lemma conv_emb_loop_inv (inputs : Sym F) (hp : HParams F) (mask : Sym F)
    (scope : string) (kfs : list (nat * nat))
    (layers layers' : list (Sym F)) (g g' : Graph) :
  for_each kfs (conv_emb_body inputs hp mask scope) layers g
  = (Ok layers', g') ->
  exists pools,
    layers' = layers ++ pools /\
    g' = g ++ flat_map (branch_nodes scope) kfs /\
    Forall2 (fun kf pool =>
               broadcast_depth (snd kf) (depth mask) = Some (depth pool) /\
               forall env,
                 eval pool env
                 = branch_eval hp scope kf (eval inputs env) (eval mask env)
                               env)
            kfs pools.
Proof.
  revert layers g. induction kfs as [|kf kfs IH]; intros layers g R.
  - cbn in R. injection R as R1 R2. subst. exists []. cbn.
    rewrite !app_nil_r. auto.
  - cbn [for_each] in R. unfold bind at 1 in R.
    destruct (conv_emb_body inputs hp mask scope kf layers g)
      as [[mid|e] g1] eqn:B; [|discriminate].
    apply conv_emb_body_inv in B.
    destruct B as (pool & L & G1 & _ & D & V). subst mid g1.
    apply IH in R. destruct R as (pools & L' & G2 & FA). subst.
    exists (pool :: pools). rewrite <- app_assoc. split; [reflexivity|].
    split; [cbn [flat_map]; now rewrite app_assoc|].
    constructor; auto.
Qed.

Lemma conv_emb_loop_ok (inputs : Sym F) (hp : HParams F) (mask : Sym F)
    (scope : string) (kfs : list (nat * nat)) (layers : list (Sym F))
    (g : Graph) :
  1 <= chr_maxpool_size hp -> depth mask = 1 ->
  exists pools,
    for_each kfs (conv_emb_body inputs hp mask scope) layers g
    = (Ok (layers ++ pools), g ++ flat_map (branch_nodes scope) kfs) /\
    Forall2 (fun kf pool =>
               depth pool = snd kf /\
               forall env,
                 eval pool env
                 = branch_eval hp scope kf (eval inputs env) (eval mask env)
                               env)
            kfs pools.
Proof.
  intros P D. revert layers g.
  induction kfs as [|kf kfs IH]; intros layers g.
  - exists []. cbn. rewrite !app_nil_r. auto.
  - destruct (@conv_emb_body_ok inputs hp mask scope kf layers g P D)
      as (pool & R & Dp & V).
    destruct (IH (layers ++ [pool]) (g ++ branch_nodes scope kf))
      as (pools & R' & FA).
    exists (pool :: pools). cbn [for_each]. unfold bind at 1.
    rewrite R, R'. rewrite <- !app_assoc. split; [reflexivity|].
    constructor; auto.
Qed.

Lemma channels_branch_eval (hp : HParams F) (scope : string)
    (kf : nat * nat) (x m : Tensor F) (env : Env F) :
  1 <= chr_maxpool_size hp -> channels 1 m ->
  channels (snd kf) (branch_eval hp scope kf x m env).
Proof.
  intros P Cm. unfold branch_eval.
  apply channels_max_pool; [assumption|].
  apply channels_bzip3_mask; [apply channels_conv1d | assumption].
Qed.

Lemma fold_concat_eval (env : Env F) (vs : list (Sym F)) (acc : Tensor F) :
  fold_left (fun a s => concat_channels a (eval s env)) vs acc
  = fold_left concat_channels (map (fun s => eval s env) vs) acc.
Proof.
  revert acc. induction vs as [|v vs IH]; intros acc; [reflexivity|].
  cbn. apply IH.
Qed.

Lemma fold_depth_sum (vs : list (Sym F)) (d : nat) :
  fold_left (fun d s => d + depth s) vs d = d + list_sum (map (@depth F) vs).
Proof.
  revert d. induction vs as [|v vs IH]; intros d; cbn [fold_left map];
    [cbn; lia|].
  rewrite IH. cbn [list_sum fold_right]. fold (list_sum (map (@depth F) vs)).
  lia.
Qed.

Lemma channels_fold_concat (ds : list nat) (xs : list (Tensor F))
    (d : nat) (acc : Tensor F) :
  Forall2 channels ds xs -> channels d acc ->
  channels (d + list_sum ds) (fold_left concat_channels xs acc).
Proof.
  intros H. revert d acc. induction H as [|d' x ds xs C _ IH]; intros d acc A.
  - cbn. now rewrite Nat.add_0_r.
  - cbn. rewrite Nat.add_assoc. apply IH. now apply channels_concat.
Qed.

Lemma map_snd_combine {A B} (a : list A) (b : list B) :
  length a = length b -> map snd (combine a b) = b.
Proof.
  revert b. induction a as [|x a IH]; intros [|y b] E; try discriminate;
    [reflexivity|].
  cbn. f_equal. apply IH. now injection E.
Qed.

Lemma pools_eval (hp : HParams F) (scope : string) (inputs mask : Sym F)
    (P : nat * nat -> Sym F -> Prop) (kfs : list (nat * nat))
    (pools : list (Sym F)) (env : Env F) :
  Forall2 (fun kf pool =>
             P kf pool /\
             forall env,
               eval pool env
               = branch_eval hp scope kf (eval inputs env) (eval mask env)
                             env) kfs pools ->
  map (fun s => eval s env) pools
  = map (fun kf => branch_eval hp scope kf (eval inputs env) (eval mask env)
                               env) kfs.
Proof.
  induction 1 as [|kf pool kfs pools [_ V] _ IH]; [reflexivity|].
  cbn. now rewrite V, IH.
Qed.

Lemma conv_emb_inv (inputs : Sym F) (hp : HParams F) (mask : Sym F)
    (scope : string) (g g' : Graph) (out : Sym F) :
  conv_emb inputs hp mask scope g = (Ok out, g') ->
  length (chr_kernels hp) = length (chr_kernel_features hp) /\
  forall env,
    eval out env
    = conv_emb_eval hp scope (eval inputs env) (eval mask env) env.
Proof.
  unfold conv_emb, bind, py_assert.
  destruct (length (chr_kernels hp) =? length (chr_kernel_features hp))
    eqn:A; [|discriminate].
  apply Nat.eqb_eq in A. cbn [ret].
  destruct (for_each (combine (chr_kernels hp) (chr_kernel_features hp))
              (conv_emb_body inputs hp mask scope) [] g)
    as [[layers|e] g1] eqn:L; [|discriminate].
  apply conv_emb_loop_inv in L. destruct L as (pools & -> & -> & FA).
  cbn [app]. intros R. split; [assumption|]. intros env.
  unfold conv_emb_eval. rewrite <- (@pools_eval hp scope inputs mask _ _ _ env FA).
  destruct (1 <? length (chr_kernels hp)).
  - unfold tf_concat in R. destruct pools as [|v vs]; [discriminate|].
    cbn in R. injection R as R _. subst out. cbn [eval map].
    apply fold_concat_eval.
  - destruct pools as [|v vs]; [discriminate|].
    cbn in R. injection R as R _. now subst.
Qed.

Lemma concat_not_branch_node (scope : string) (kf : nat * nat) :
  ~ In "ConcatV2"%string (branch_nodes scope kf).
Proof.
  unfold branch_nodes. cbn. intros [H|[H|[H|[]]]]; discriminate.
Qed.

Lemma conv_emb_ok (inputs : Sym F) (hp : HParams F) (mask : Sym F)
    (scope : string) (g : Graph) :
  length (chr_kernels hp) = length (chr_kernel_features hp) ->
  1 <= chr_maxpool_size hp -> depth mask = 1 ->
  exists pools,
    Forall2 (fun kf pool =>
               depth pool = snd kf /\
               forall env,
                 eval pool env
                 = branch_eval hp scope kf (eval inputs env) (eval mask env)
                               env)
            (combine (chr_kernels hp) (chr_kernel_features hp)) pools /\
    conv_emb inputs hp mask scope g
    = (if 1 <? length (chr_kernels hp) then tf_concat pools
       else match pools with
            | output :: _ => ret output
            | [] => raise (IndexError "list index out of range")
            end)
        (g ++ flat_map (branch_nodes scope)
                (combine (chr_kernels hp) (chr_kernel_features hp))).
Proof.
  intros A P D.
  destruct (@conv_emb_loop_ok inputs hp mask scope
              (combine (chr_kernels hp) (chr_kernel_features hp)) [] g P D)
    as (pools & R & FA).
  exists pools. split; [exact FA|].
  unfold conv_emb, bind, py_assert.
  replace (length (chr_kernels hp) =? length (chr_kernel_features hp))
    with true by (symmetry; now apply Nat.eqb_eq).
  cbn [ret]. now rewrite R.
Qed.

(** C5: with exactly one kernel the tensor [conv_emb] returns is the
    pooled branch itself, no concatenation node is built, and its channel
    count is that kernel's feature count; with K > 1 kernels the branches
    are concatenated along the channel axis (the last node built is the
    concatenation) and the channel count is the sum of the K feature
    counts.  The channel count is the static one and, in every run, the
    width of every position.  The configuration is one the layers accept:
    kernel widths of at least 1 and pairwise distinct (every branch names
    its variables after its width, [kernel_%d]), and at least one filter
    per branch. *)
Theorem conv_emb_channel_count (inputs : Sym F) (hp : HParams F)
    (mask : Sym F) (scope : string) (g : Graph) :
  length (chr_kernels hp) = length (chr_kernel_features hp) ->
  NoDup (chr_kernels hp) ->
  Forall (fun k => 1 <= k) (chr_kernels hp) ->
  Forall (fun f => 1 <= f) (chr_kernel_features hp) ->
  1 <= chr_maxpool_size hp -> depth mask = 1 -> wf_sym mask ->
  (forall k f,
      chr_kernels hp = [k] -> chr_kernel_features hp = [f] ->
      exists out,
        conv_emb inputs hp mask scope g
        = (Ok out, g ++ branch_nodes scope (k, f)) /\
        ~ In "ConcatV2"%string (branch_nodes scope (k, f)) /\
        depth out = f /\ wf_sym out /\
        forall env,
          eval out env
          = branch_eval hp scope (k, f) (eval inputs env) (eval mask env)
                        env) /\
  (1 < length (chr_kernels hp) ->
   exists out g0,
     conv_emb inputs hp mask scope g = (Ok out, g0 ++ ["ConcatV2"%string]) /\
     depth out = list_sum (chr_kernel_features hp) /\ wf_sym out /\
     forall env,
       eval out env
       = fold_left concat_channels
           (map (fun kf => branch_eval hp scope kf (eval inputs env)
                                       (eval mask env) env)
                (tl (combine (chr_kernels hp) (chr_kernel_features hp))))
           (branch_eval hp scope
              (hd (0, 0) (combine (chr_kernels hp) (chr_kernel_features hp)))
              (eval inputs env) (eval mask env) env)).
Proof.
  intros A _ _ _ P D WF.
  destruct (@conv_emb_ok inputs hp mask scope g A P D) as (pools & FA & R).
  assert (Cm : forall env, channels 1 (eval mask env)).
  { intros env. rewrite <- D. apply WF. }
  split.
  - intros k f Ek Ef. rewrite Ek, Ef in *.
    cbn [combine flat_map length Nat.ltb Nat.leb] in FA, R.
    inversion FA as [|kf pool kfs ps [Dp V] FA' E1 E2]; subst.
    inversion FA'; subst. cbn [snd] in Dp.
    exists pool. split; [rewrite R, app_nil_r; reflexivity|].
    split; [apply concat_not_branch_node|]. split; [exact Dp|]. split.
    + intros env. rewrite V, Dp.
      apply (@channels_branch_eval hp scope (k, f)); auto.
    + exact V.
  - intros K. replace (1 <? length (chr_kernels hp)) with true in R
      by (symmetry; now apply Nat.ltb_lt).
    destruct (chr_kernels hp) as [|k ks] eqn:Ek; [cbn in K; lia|].
    destruct (chr_kernel_features hp) as [|f fs] eqn:Ef; [discriminate|].
    cbn [combine] in FA, R |- *.
    inversion FA as [|kf pool kfs ps [Dp V] FA' E1 E2]; subst.
    cbn in Dp. unfold tf_concat, bind, add_node, ret in R.
    eexists. eexists. split; [exact R|]. cbn [depth eval hd tl].
    assert (Ds : map (@depth F) ps = fs).
    { injection A as A. rewrite <- (map_snd_combine ks fs A).
      clear - FA'. induction FA' as [|? ? ? ? [E _] _ IH]; [reflexivity|].
      cbn. now rewrite E, IH. }
    split.
    { rewrite fold_depth_sum, Ds, Dp. reflexivity. }
    assert (Ev : forall env,
               map (fun s => eval s env) ps
               = map (fun kf => branch_eval hp scope kf (eval inputs env)
                                            (eval mask env) env)
                     (combine ks fs)).
    { intros env. apply (@pools_eval hp scope inputs mask _ _ _ env FA'). }
    split.
    + intros env. cbn [eval depth].
      rewrite fold_depth_sum, Ds, fold_concat_eval, Ev, V.
      apply channels_fold_concat.
      * injection A as A. rewrite <- (map_snd_combine ks fs A) at 1.
        clear - P Cm. induction (combine ks fs) as [|kf kfs IH]; cbn;
          constructor; auto.
        apply channels_branch_eval; auto.
      * rewrite Dp. apply (@channels_branch_eval hp scope (k, f)); auto.
    + intros env. now rewrite fold_concat_eval, Ev, V.
Qed.

Lemma bt_shape_branch_eval (hp : HParams F) (scope : string) (k f : nat)
    (x m : Tensor F) (env : Env F) :
  1 <= chr_maxpool_size hp -> 1 <= k -> bt_shape m = bt_shape x ->
  bt_shape (branch_eval hp scope (k, f) x m env)
  = map (fun L => ceil_div L (chr_maxpool_size hp)) (bt_shape x).
Proof.
  intros P K B. unfold branch_eval. cbn [fst snd].
  rewrite bt_shape_max_pool by assumption.
  rewrite bt_shape_bzip3 by (now rewrite bt_shape_conv1d).
  now rewrite bt_shape_conv1d.
Qed.

(** C6: for a pooling size p >= 1, SAME max-pooling with window and
    stride p turns a time dimension of length L into one of length
    ceil (L / p) (the least n with L <= n * p): so does the pooling
    operation on every tensor, and so does every branch of [conv_emb] on
    its input. *)
Theorem pooled_time_dimension (p : nat) :
  1 <= p ->
  (forall L,
      L <= ceil_div L p * p /\ forall n, L <= n * p -> ceil_div L p <= n) /\
  (forall (x : Sym F) (scope name : string) (g : Graph),
      exists pool g',
        tf_layers_max_pooling1d scope x p p name g = (Ok pool, g') /\
        forall env,
          bt_shape (eval pool env)
          = map (fun L => ceil_div L p) (bt_shape (eval x env))) /\
  (forall (inputs : Sym F) (hp : HParams F) (mask : Sym F) (scope : string)
          (k f : nat) (layers : list (Sym F)) (g : Graph),
      chr_maxpool_size hp = p -> 1 <= k -> depth mask = 1 ->
      (forall env, bt_shape (eval mask env) = bt_shape (eval inputs env)) ->
      exists pool g',
        conv_emb_body inputs hp mask scope (k, f) layers g
        = (Ok (layers ++ [pool]), g') /\
        forall env,
          bt_shape (eval pool env)
          = map (fun L => ceil_div L p) (bt_shape (eval inputs env))).
Proof.
  intros Hp. split; [intros L; now apply ceil_div_spec|]. split.
  - intros x scope name g. unfold tf_layers_max_pooling1d.
    replace (p =? 0) with false by (symmetry; apply Nat.eqb_neq; lia).
    eexists. eexists. split; [reflexivity|].
    intros env. cbn [eval]. now apply bt_shape_max_pool.
  - intros inputs hp mask scope k f layers g E K D B. subst p.
    destruct (@conv_emb_body_ok inputs hp mask scope (k, f) layers g Hp D)
      as (pool & R & _ & V).
    exists pool. eexists. split; [exact R|].
    intros env. rewrite V. now apply bt_shape_branch_eval.
Qed.

Lemma chrawr_embedding_prefix (emb : Sym F) (hp : HParams F) (g : Graph) :
  exists emb_mask masked,
    chrawr_embedding emb hp g
    = bind (conv_emb masked hp emb_mask "ConvEmb")
           (fun pooled => chrawr_after_conv pooled hp) (g ++ prefix_nodes hp) /\
    chrawr_pooled emb hp g
    = conv_emb masked hp emb_mask "ConvEmb" (g ++ prefix_nodes hp) /\
    depth emb_mask = 1 /\
    (forall env, eval emb_mask env = mask_value (eval emb env)) /\
    depth masked = reduced_input_size hp /\
    (forall env, eval masked env = rescaled_eval hp (eval emb env) env).
Proof.
  pose (emb_mask := {| depth := 1;
                       eval := fun env =>
                         map (map (fun s : F => [s]))
                           (map (map (fun b : bool => if b then one else zero))
                              (map (map (fun s => negb (feqb s zero)))
                                 (map (map sumF) (map3 fabs (eval emb env))))) |}).
  pose (r := fun env => conv1d_same (weights env "rescaled_embedding")
                          (reduced_input_size hp) 1 1 None (eval emb env)).
  pose (masked := {| depth := reduced_input_size hp;
                     eval := fun env =>
                       bzip3 mul
                         (if chr_pos_enc hp
                          then bzip3 add (r env)
                                 (timing_signal (length (hd [] (r env)))
                                                (reduced_input_size hp))
                          else r env)
                         (eval emb_mask env) |}).
  exists emb_mask, masked.
  assert (R : forall A (k : Sym F -> Sym F -> G A),
             bind (embedding_mask emb)
               (fun emb_mask =>
                  tf_summary_image "emb_mask" emb_mask ;;;
                  e <- tf_layers_conv1d EmptyString emb
                         (reduced_input_size hp) 1 1 None
                         "rescaled_embedding" ;;
                  e <- (if chr_pos_enc hp then add_timing_signal_1d e
                        else ret e) ;;
                  e <- tf_multiply e emb_mask ;;
                  k e emb_mask) g
             = k masked emb_mask (g ++ prefix_nodes hp)).
  { intros A k. unfold bind at 1. rewrite embedding_mask_run.
    fold emb_mask. unfold tf_summary_image, tf_layers_conv1d, prefix_nodes.
    cbn [Nat.eqb]. unfold bind at 1 2 3 4. cbn [add_node ret].
    unfold tf_multiply. destruct (chr_pos_enc hp).
    - unfold add_timing_signal_1d. unfold bind. cbn [add_node ret].
      rewrite (@binary_op_ok _ _ _ _ (reduced_input_size hp))
        by (cbn; apply broadcast_depth_1_r).
      rewrite <- !app_assoc. cbn [app]. reflexivity.
    - unfold bind. cbn [add_node ret].
      rewrite (@binary_op_ok _ _ _ _ (reduced_input_size hp))
        by (cbn; apply broadcast_depth_1_r).
      rewrite <- !app_assoc. cbn [app]. reflexivity. }
  split.
  { unfold chrawr_embedding.
    exact (R _ (fun e m => bind (conv_emb e hp m "ConvEmb")
                             (fun pooled => chrawr_after_conv pooled hp))). }
  split.
  { unfold chrawr_pooled.
    exact (R _ (fun e m => conv_emb e hp m "ConvEmb")). }
  subst masked emb_mask r. cbn [depth eval]. split; [reflexivity|].
  split; [intros env; apply mask_maps_eq|].
  split; [reflexivity|]. intros env. unfold rescaled_eval.
  now rewrite mask_maps_eq.
Qed.

(** C7: when the kernel widths and the kernel feature counts differ in
    number, [conv_emb] raises the assertion error before it adds a node
    to the graph, and [chrawr_embedding] fails with it during graph
    construction, whatever the symbolic input: the nodes built by then are
    those of the mask, the summary and the rescaling, no tensor is
    returned and no session run computes anything. *)
Theorem kernel_feature_mismatch_fails (hp : HParams F) :
  length (chr_kernels hp) <> length (chr_kernel_features hp) ->
  (forall (inputs mask : Sym F) (scope : string) (g : Graph),
      conv_emb inputs hp mask scope g
      = (Raise (AssertionError "Kernel and Features must have the same size"),
         g)) /\
  (forall (emb : Sym F) (g : Graph),
      chrawr_embedding emb hp g
      = (Raise (AssertionError "Kernel and Features must have the same size"),
         g ++ prefix_nodes hp) /\
      forall env, session_run (chrawr_embedding emb hp) g env = None).
Proof.
  intros N.
  assert (C : forall (inputs mask : Sym F) (scope : string) (g : Graph),
             conv_emb inputs hp mask scope g
             = (Raise (AssertionError
                         "Kernel and Features must have the same size"), g)).
  { intros inputs mask scope g. unfold conv_emb, bind, py_assert.
    replace (length (chr_kernels hp) =? length (chr_kernel_features hp))
      with false by (symmetry; now apply Nat.eqb_neq).
    reflexivity. }
  split; [exact C|]. intros emb g.
  destruct (chrawr_embedding_prefix emb hp g) as (m & x & R & _).
  assert (E : chrawr_embedding emb hp g
              = (Raise (AssertionError
                          "Kernel and Features must have the same size"),
                 g ++ prefix_nodes hp)).
  { rewrite R. unfold bind at 1. now rewrite C. }
  split; [exact E|]. intros env. unfold session_run. now rewrite E.
Qed.

(** *** Running the rest of the pipeline *)

Lemma tf_nn_dropout_inv (x y : Sym F) (keep : F) (g g' : Graph) :
  tf_nn_dropout x keep g = (Ok y, g') ->
  (feqb keep one = true /\ y = x /\ g' = g) \/
  (feqb keep one = false /\ g' = g ++ ["dropout"%string] /\
   depth y = depth x /\
   forall env, eval y env = dropout_eval keep (length g) (eval x env) env).
Proof.
  unfold tf_nn_dropout.
  destruct (negb (negb (fleb keep zero) && fleb keep one)); [discriminate|].
  destruct (feqb keep one).
  - cbn. intros E. injection E as E1 E2. left. auto.
  - unfold bind, add_node, ret. intros E. injection E as E1 E2. subst.
    right. auto.
Qed.

Lemma bt_shape_dropout (x y : Sym F) (keep : F) (g g' : Graph) :
  tf_nn_dropout x keep g = (Ok y, g') ->
  forall env, bt_shape (eval y env) = bt_shape (eval x env).
Proof.
  intros R env. apply tf_nn_dropout_inv in R.
  destruct R as [(_ & -> & _)|(_ & _ & _ & V)]; [reflexivity|].
  rewrite V. apply bt_shape_imap3.
Qed.

Lemma bt_shape_highway_layer_eval (size : nat) (hp : HParams F)
    (scope : string) (idx : nat) (x : Tensor F) (env : Env F) :
  bt_shape (highway_layer_eval size hp scope idx x env) = bt_shape x.
Proof.
  unfold highway_layer_eval.
  assert (C : forall P a,
             bt_shape (conv1d_same P size 1 1 a x) = bt_shape x)
    by (intros; now apply bt_shape_conv1d).
  rewrite bt_shape_bzip3.
  - rewrite bt_shape_bzip3; now rewrite !C.
  - rewrite !bt_shape_bzip3; rewrite ?bt_shape_map3, ?C; reflexivity.
Qed.

Lemma bt_shape_highway_eval (size : nat) (hp : HParams F) (scope : string)
    (idxs : list nat) (x : Tensor F) (env : Env F) :
  bt_shape (highway_eval size hp scope idxs x env) = bt_shape x.
Proof.
  unfold highway_eval. revert x.
  induction idxs as [|i idxs IH]; intros x; [reflexivity|].
  cbn [fold_left]. rewrite IH. apply bt_shape_highway_layer_eval.
Qed.

Lemma chrawr_after_conv_inv (pooled out : Sym F) (hp : HParams F)
    (g g' : Graph) :
  chrawr_after_conv pooled hp g = (Ok out, g') ->
  exists d g1,
    tf_nn_dropout pooled (sub one (chr_dropout_rate hp))
      (g ++ mask_nodes "emb_mask_in") = (Ok d, g1) /\
    1 <= num_highway_layers hp /\
    forall env,
      eval out env
      = restored_eval hp
          (highway_eval (depth d) hp "Highway"
             (seq 0 (num_highway_layers hp)) (eval d env) env)
          (eval pooled env) env.
Proof.
  unfold chrawr_after_conv. unfold bind at 1. rewrite embedding_mask_run.
  unfold bind at 1. unfold tf_summary_image, bind at 1.
  cbn [add_node ret]. unfold bind at 1.
  match goal with
  | |- context [tf_nn_dropout pooled _ ?gg] =>
      replace gg with (g ++ mask_nodes "emb_mask_in")
        by (unfold mask_nodes; now rewrite <- app_assoc)
  end.
  destruct (tf_nn_dropout pooled (sub one (chr_dropout_rate hp))
              (g ++ mask_nodes "emb_mask_in")) as [[d|e] g1] eqn:D;
    [|discriminate].
  unfold bind at 1.
  destruct (highway d (depth d) hp minus_two relu "Highway" g1)
    as [[h|e] g2] eqn:H; [|discriminate].
  apply highway_inv in H. destruct H as (N & _ & VH).
  unfold bind at 1. unfold tf_multiply at 1.
  match goal with
  | |- context [binary_op ?l ?f ?x ?y ?g] =>
      destruct (binary_op l f x y g) as [[hm|e] g3] eqn:M1; [|discriminate]
  end.
  apply binary_op_inv in M1. destruct M1 as (_ & _ & VM1).
  unfold bind at 1.
  destruct (tf_nn_dropout hm (sub one (chr_dropout_rate hp)) g3)
    as [[encoder_input|e] g4] eqn:D2; [|discriminate].
  unfold bind at 1. unfold tf_layers_conv1d. cbn [Nat.eqb].
  unfold bind at 1. cbn [add_node ret]. unfold bind at 1.
  unfold tf_multiply.
  match goal with
  | |- context [binary_op ?l ?f ?x ?y ?g] =>
      destruct (binary_op l f x y g) as [[res|e] g5] eqn:M2; [|discriminate]
  end.
  apply binary_op_inv in M2. destruct M2 as (_ & _ & VM2).
  intros E. injection E as E1 E2. subst res.
  exists d, g1. split; [reflexivity|]. split; [assumption|].
  intros env. rewrite VM2. cbn [eval]. rewrite VM1. cbn [eval].
  rewrite VH, mask_maps_eq. reflexivity.
Qed.

(** *** The output at the padding positions *)

Lemma nth_error_zipWith {A B C} (f : A -> B -> C) (a : list A) (b : list B)
    (n : nat) :
  nth_error (zipWith f a b) n
  = match nth_error a n, nth_error b n with
    | Some x, Some y => Some (f x y)
    | _, _ => None
    end.
Proof.
  revert b n. induction a as [|x a IH]; intros [|y b] [|n]; cbn;
    try reflexivity.
  - now destruct (nth_error a n).
  - apply IH.
Qed.

(** *** The value of the output depends on the variables only *)

Lemma highway_eval_weights (size : nat) (hp : HParams F) (scope : string)
    (idxs : list nat) (x : Tensor F) (env1 env2 : Env F) :
  weights env1 = weights env2 ->
  highway_eval size hp scope idxs x env1
  = highway_eval size hp scope idxs x env2.
Proof.
  intros W. unfold highway_eval. revert x.
  induction idxs as [|i idxs IH]; intros x; [reflexivity|].
  cbn [fold_left]. rewrite IH. f_equal.
  unfold highway_layer_eval. now rewrite W.
Qed.

Lemma conv_emb_eval_weights (hp : HParams F) (scope : string)
    (x m : Tensor F) (env1 env2 : Env F) :
  weights env1 = weights env2 ->
  conv_emb_eval hp scope x m env1 = conv_emb_eval hp scope x m env2.
Proof.
  intros W. unfold conv_emb_eval.
  rewrite (map_ext (fun kf => branch_eval hp scope kf x m env1)
                   (fun kf => branch_eval hp scope kf x m env2));
    [reflexivity|].
  intros kf. unfold branch_eval. now rewrite W.
Qed.

Lemma rescaled_eval_weights (hp : HParams F) (x : Tensor F)
    (env1 env2 : Env F) :
  weights env1 = weights env2 ->
  rescaled_eval hp x env1 = rescaled_eval hp x env2.
Proof. intros W. unfold rescaled_eval. now rewrite W. Qed.

Lemma restored_eval_weights (hp : HParams F) (h x : Tensor F)
    (env1 env2 : Env F) :
  weights env1 = weights env2 ->
  restored_eval hp h x env1 = restored_eval hp h x env2.
Proof. intros W. unfold restored_eval. now rewrite W. Qed.

Lemma feqb_refl (x : F) : feqb x x = true.
Proof. now apply feqb_eq. Qed.

(** C8: with a dropout rate of 0 and the positional signal off, the value
    of the tensor [chrawr_embedding] returns is a function of the input and
    of the variables: two runs with the same input and the same variables
    yield the same tensor, whatever their random draws. *)
Theorem chrawr_embedding_deterministic (emb out : Sym F) (hp : HParams F)
    (g g' : Graph) :
  chr_dropout_rate hp = zero -> chr_pos_enc hp = false ->
  chrawr_embedding emb hp g = (Ok out, g') ->
  forall env1 env2,
    weights env1 = weights env2 ->
    eval emb env1 = eval emb env2 ->
    eval out env1 = eval out env2.
Proof.
  intros Rate Pos R env1 env2 W I.
  destruct (chrawr_embedding_prefix emb hp g)
    as (m & x & E & _ & _ & Vm & _ & Vx).
  rewrite E in R. unfold bind at 1 in R.
  destruct (conv_emb x hp m "ConvEmb" (g ++ prefix_nodes hp))
    as [[pooled|e] g1] eqn:C; [|discriminate].
  apply conv_emb_inv in C. destruct C as (_ & Vp).
  apply chrawr_after_conv_inv in R. destruct R as (d & g3 & D & _ & V).
  rewrite Rate, sub_0_r in D. apply tf_nn_dropout_inv in D.
  destruct D as [(_ & -> & _)|(K & _)];
    [|rewrite feqb_refl in K; discriminate].
  assert (P : eval pooled env1 = eval pooled env2).
  { rewrite !Vp, !Vm, !Vx, I.
    rewrite (@rescaled_eval_weights hp (eval emb env2) env1 env2 W).
    apply conv_emb_eval_weights, W. }
  rewrite !V, P.
  rewrite (@highway_eval_weights (depth pooled) hp "Highway"
             (seq 0 (num_highway_layers hp)) (eval pooled env2) env1 env2 W).
  apply restored_eval_weights, W.
Qed.

Lemma list_eqb_refl {A} (e : A -> A -> bool) (a : list A) :
  (forall x, e x x = true) -> list_eqb e a a = true.
Proof.
  intros E. induction a as [|x a IH]; [reflexivity|].
  cbn. now rewrite E, IH.
Qed.

Lemma tensor_eqb_refl (a : Tensor F) : tensor_eqb a a = true.
Proof.
  unfold tensor_eqb. apply list_eqb_refl. intros r.
  apply list_eqb_refl. intros v. apply list_eqb_refl, feqb_refl.
Qed.

Lemma tensor_eqb_false (a b : Tensor F) : tensor_eqb a b = false -> a <> b.
Proof. intros E ->. rewrite tensor_eqb_refl in E. discriminate. Qed.

End Properties.

(** ** Properties of the whole pipeline *)

Section Pipeline.

Context {F : Type} {SF : Scalar F} {SL : ScalarLaws F}.

(** X9: with no kernel at all the assertion of [conv_emb] passes (0 = 0), the
    loop does not run, and [layers[0]] raises IndexError; nothing is added
    to the graph. *)
Theorem conv_emb_no_kernel (inputs : Sym F) (hp : HParams F) (mask : Sym F)
    (scope : string) (g : Graph) :
  chr_kernels hp = [] -> chr_kernel_features hp = [] ->
  conv_emb inputs hp mask scope g
  = (Raise (IndexError "list index out of range"), g).
Proof.
  intros K Fs. unfold conv_emb, bind, py_assert. rewrite K, Fs.
  reflexivity.
Qed.

Lemma broadcast_depth_mismatch (d1 d2 : nat) :
  d1 <> d2 -> d1 <> 1 -> d2 <> 1 -> broadcast_depth d1 d2 = None.
Proof.
  intros A B C. unfold broadcast_depth.
  replace (d1 =? d2) with false by (symmetry; now apply Nat.eqb_neq).
  replace (d1 =? 1) with false by (symmetry; now apply Nat.eqb_neq).
  replace (d2 =? 1) with false by (symmetry; now apply Nat.eqb_neq).
  reflexivity.
Qed.

(** X10: [highway] called with a projection width [size] that differs from the
    channel width of its input (neither being 1) fails in its first layer:
    the two projections, their product and the carry gate are built, and
    the product of the carry gate and the input raises the shape error. *)
Theorem highway_width_mismatch (inputs : Sym F) (size : nat)
    (hp : HParams F) (b : F) (f : F -> F) (scope : string) (g : Graph) :
  1 <= num_highway_layers hp ->
  size <> depth inputs -> size <> 1 -> depth inputs <> 1 ->
  highway inputs size hp b f scope g
  = (Raise (ValueError "Dimensions must be equal"),
     g ++ [("conv1d:" ++ lin_name scope 0)%string;
           ("conv1d:" ++ gate_name scope 0)%string;
           "Mul"%string; "Sub"%string]).
Proof.
  intros N A B C. unfold highway.
  destruct (num_highway_layers hp) as [|n]; [lia|].
  cbn [seq for_each]. unfold bind at 1. unfold bind at 1.
  unfold highway_body, tf_layers_conv1d, tf_multiply, tf_rsub.
  cbn [fst Nat.eqb]. unfold bind at 1. unfold bind at 1.
  cbn [add_node ret]. unfold bind at 1. unfold bind at 1.
  cbn [add_node ret]. unfold bind at 1.
  rewrite binary_op_ok with (d := size)
    by (cbn; apply broadcast_depth_refl).
  unfold bind at 1. unfold bind at 1. cbn [add_node ret].
  unfold bind at 1. unfold binary_op at 1. cbn [depth].
  rewrite broadcast_depth_mismatch by assumption.
  unfold raise, lin_name, gate_name. now rewrite <- !app_assoc.
Qed.

(** *** The shape of the tensor [conv_emb] returns *)

Lemma bt_shape_fold_concat (S : list nat) (bs : list (Tensor F))
    (b : Tensor F) :
  bt_shape b = S -> Forall (fun t => bt_shape t = S) bs ->
  bt_shape (fold_left concat_channels bs b) = S.
Proof.
  intros B H. revert b B. induction H as [|t bs Ht _ IH]; intros b B;
    [assumption|].
  cbn. apply IH. rewrite bt_shape_concat; congruence.
Qed.

Lemma bt_shape_conv_emb_eval (hp : HParams F) (scope : string)
    (x m : Tensor F) (env : Env F) :
  length (chr_kernels hp) = length (chr_kernel_features hp) ->
  chr_kernels hp <> [] ->
  Forall (fun k => 1 <= k) (chr_kernels hp) ->
  1 <= chr_maxpool_size hp -> bt_shape m = bt_shape x ->
  bt_shape (conv_emb_eval hp scope x m env)
  = map (fun L => ceil_div L (chr_maxpool_size hp)) (bt_shape x).
Proof.
  intros A N K P B. unfold conv_emb_eval.
  assert (H : Forall (fun t => bt_shape t
                       = map (fun L => ceil_div L (chr_maxpool_size hp))
                             (bt_shape x))
                (map (fun kf => branch_eval hp scope kf x m env)
                     (combine (chr_kernels hp) (chr_kernel_features hp)))).
  { rewrite Forall_map. apply Forall_forall. intros [k f] Hkf.
    apply bt_shape_branch_eval; try assumption.
    rewrite Forall_forall in K. apply K.
    eapply in_combine_l; eassumption. }
  destruct (chr_kernels hp) as [|k ks]; [congruence|].
  destruct (chr_kernel_features hp) as [|f fs]; [discriminate|].
  cbn [combine map] in H |- *. inversion H as [|? ? Hb Hbs]; subst.
  destruct (1 <? length (k :: ks)); [|assumption].
  now apply bt_shape_fold_concat.
Qed.

Lemma channels_conv_emb_eval (hp : HParams F) (scope : string)
    (x m : Tensor F) (env : Env F) :
  length (chr_kernels hp) = length (chr_kernel_features hp) ->
  1 <= chr_maxpool_size hp -> channels 1 m ->
  channels (if 1 <? length (chr_kernels hp)
            then list_sum (chr_kernel_features hp)
            else hd 0 (chr_kernel_features hp))
           (conv_emb_eval hp scope x m env).
Proof.
  intros A P Cm. unfold conv_emb_eval.
  destruct (chr_kernels hp) as [|k ks];
    destruct (chr_kernel_features hp) as [|f fs]; try discriminate.
  - cbn. constructor.
  - cbn [combine map hd]. injection A as A.
    destruct (1 <? length (k :: ks)).
    + cbn [list_sum fold_right]. fold (list_sum fs).
      apply channels_fold_concat.
      * rewrite <- (map_snd_combine ks fs A) at 1.
        clear - P Cm. induction (combine ks fs) as [|kf kfs IH]; cbn;
          constructor; auto.
        apply channels_branch_eval; auto.
      * apply (@channels_branch_eval _ _ hp scope (k, f)); auto.
    + apply (@channels_branch_eval _ _ hp scope (k, f)); auto.
Qed.

(** X8: the tensor [conv_emb] returns, one branch or several concatenated,
    has the batch size of its input and ceil (L / p) positions where the
    input has L: every branch pools the same input with the same pooling
    size, so the concatenation loses no position.  The kernel widths are
    taken pairwise distinct (every branch names its variables after its
    width) and every branch has at least one filter. *)
Theorem conv_emb_time_dimension (inputs : Sym F) (hp : HParams F)
    (mask : Sym F) (scope : string) (g : Graph) :
  length (chr_kernels hp) = length (chr_kernel_features hp) ->
  chr_kernels hp <> [] ->
  Forall (fun k => 1 <= k) (chr_kernels hp) ->
  NoDup (chr_kernels hp) ->
  Forall (fun f => 1 <= f) (chr_kernel_features hp) ->
  1 <= chr_maxpool_size hp -> depth mask = 1 ->
  (forall env, bt_shape (eval mask env) = bt_shape (eval inputs env)) ->
  exists out g',
    conv_emb inputs hp mask scope g = (Ok out, g') /\
    forall env,
      bt_shape (eval out env)
      = map (fun L => ceil_div L (chr_maxpool_size hp))
            (bt_shape (eval inputs env)).
Proof.
  intros A N K _ _ P D B.
  destruct (@conv_emb_ok _ _ inputs hp mask scope g A P D)
    as (pools & FA & R).
  assert (E : exists out g', conv_emb inputs hp mask scope g = (Ok out, g')).
  { rewrite R. clear R.
    destruct (chr_kernels hp) as [|k ks]; [congruence|].
    destruct (chr_kernel_features hp) as [|f fs]; [discriminate|].
    inversion FA; subst.
    destruct (1 <? length (k :: ks));
      unfold tf_concat, bind, add_node, ret; eauto. }
  destruct E as (out & g' & E). exists out, g'. split; [exact E|].
  intros env. apply conv_emb_inv in E. destruct E as (_ & V).
  rewrite V. now apply bt_shape_conv_emb_eval.
Qed.

(** *** The construction succeeds on a valid configuration *)

Lemma tf_nn_dropout_ok (x : Sym F) (keep : F) (g : Graph) :
  keep_prob_ok keep = true ->
  exists d,
    tf_nn_dropout x keep g = (Ok d, g ++ dropout_nodes keep) /\
    depth d = depth x.
Proof.
  intros K. unfold tf_nn_dropout, dropout_nodes. unfold keep_prob_ok in K.
  rewrite K. cbn [negb]. destruct (feqb keep one).
  - exists x. cbn. now rewrite app_nil_r.
  - eexists. unfold bind, add_node, ret. split; reflexivity.
Qed.

Lemma chrawr_after_conv_ok (pooled : Sym F) (hp : HParams F) (g : Graph) :
  keep_prob_ok (sub one (chr_dropout_rate hp)) = true ->
  1 <= num_highway_layers hp ->
  exists out,
    chrawr_after_conv pooled hp g = (Ok out, g ++ after_conv_nodes hp) /\
    depth out = hidden_size hp.
Proof.
  intros K N. unfold chrawr_after_conv, after_conv_nodes.
  unfold bind at 1. rewrite embedding_mask_run.
  unfold bind at 1. unfold tf_summary_image, bind at 1.
  cbn [add_node ret]. unfold bind at 1.
  match goal with
  | |- context [tf_nn_dropout pooled _ ?gg] =>
      replace gg with (g ++ mask_nodes "emb_mask_in")
        by (unfold mask_nodes; now rewrite <- app_assoc)
  end.
  destruct (@tf_nn_dropout_ok pooled (sub one (chr_dropout_rate hp))
              (g ++ mask_nodes "emb_mask_in") K) as (d & D & Dd).
  rewrite D. unfold bind at 1.
  destruct (@highway_ok _ _ d (depth d) hp minus_two relu "Highway"
              ((g ++ mask_nodes "emb_mask_in")
                 ++ dropout_nodes (sub one (chr_dropout_rate hp)))
              N eq_refl) as (h & H & Dh & _).
  rewrite H. unfold bind at 1. unfold tf_multiply at 1.
  rewrite binary_op_ok with (d := depth d)
    by (cbn [depth]; rewrite Dh; apply broadcast_depth_1_r).
  unfold bind at 1.
  match goal with
  | |- context [tf_nn_dropout ?hm _ ?gg] =>
      destruct (@tf_nn_dropout_ok hm (sub one (chr_dropout_rate hp)) gg K)
        as (e & E & _)
  end.
  rewrite E. unfold bind at 1. unfold tf_layers_conv1d. cbn [Nat.eqb].
  unfold bind at 1. cbn [add_node ret]. unfold bind at 1.
  unfold tf_multiply.
  rewrite binary_op_ok with (d := hidden_size hp)
    by (cbn [depth]; apply broadcast_depth_1_r).
  eexists. split.
  - cbn [ret]. f_equal. rewrite <- !app_assoc. reflexivity.
  - reflexivity.
Qed.

Lemma chrawr_after_conv_graph (pooled out : Sym F) (hp : HParams F)
    (g g' : Graph) :
  chrawr_after_conv pooled hp g = (Ok out, g') ->
  g' = g ++ after_conv_nodes hp /\ depth out = hidden_size hp.
Proof.
  intros R.
  assert (K : keep_prob_ok (sub one (chr_dropout_rate hp)) = true).
  { apply chrawr_after_conv_inv in R. destruct R as (d & g1 & D & _).
    unfold tf_nn_dropout in D. unfold keep_prob_ok.
    destruct (negb (fleb (sub one (chr_dropout_rate hp)) zero)
              && fleb (sub one (chr_dropout_rate hp)) one);
      [reflexivity | discriminate]. }
  assert (N : 1 <= num_highway_layers hp).
  { apply chrawr_after_conv_inv in R. now destruct R as (d & g1 & _ & N & _). }
  destruct (@chrawr_after_conv_ok pooled hp g K N) as (o & R' & Do).
  rewrite R in R'. injection R' as <- <-. auto.
Qed.

Lemma valid_config_spec (hp : HParams F) :
  valid_config hp = true ->
  length (chr_kernels hp) = length (chr_kernel_features hp) /\
  chr_kernels hp <> [] /\
  Forall (fun k => 1 <= k) (chr_kernels hp) /\
  1 <= chr_maxpool_size hp /\
  1 <= num_highway_layers hp /\
  keep_prob_ok (sub one (chr_dropout_rate hp)) = true.
Proof.
  unfold valid_config. rewrite !andb_true_iff.
  intros (((((((((A & N) & K) & P) & H) & D) & _) & _) & _) & _).
  apply Nat.eqb_eq in A. apply Nat.leb_le in N, P, H.
  split; [assumption|]. split.
  { intros E. rewrite E in N. cbn in N. lia. }
  split.
  { rewrite forallb_forall in K. apply Forall_forall. intros k Hk.
    now apply Nat.leb_le, K. }
  auto.
Qed.

Lemma conv_emb_returns (inputs : Sym F) (hp : HParams F) (mask : Sym F)
    (scope : string) (g : Graph) :
  length (chr_kernels hp) = length (chr_kernel_features hp) ->
  chr_kernels hp <> [] -> 1 <= chr_maxpool_size hp -> depth mask = 1 ->
  exists out g', conv_emb inputs hp mask scope g = (Ok out, g').
Proof.
  intros A N P D.
  destruct (@conv_emb_ok _ _ inputs hp mask scope g A P D)
    as (pools & FA & R).
  rewrite R. clear R.
  destruct (chr_kernels hp) as [|k ks]; [congruence|].
  destruct (chr_kernel_features hp) as [|f fs]; [discriminate|].
  inversion FA; subst.
  destruct (1 <? length (k :: ks));
    unfold tf_concat, bind, add_node, ret; eauto.
Qed.

Lemma length_bzip_same {A B C} (f : A -> B -> C) (a : list A) (b : list B) :
  length a = length b -> length (bzip f a b) = length a.
Proof.
  intros E. rewrite bzip_eq_zipWith, length_zipWith by assumption. lia.
Qed.

Lemma rectangular_bt_shape (a b : Tensor F) :
  bt_shape a = bt_shape b -> rectangular a -> rectangular b.
Proof.
  unfold rectangular, bt_shape. intros E [T H]. exists T.
  pose proof (proj2 (Forall_map (@length (list F)) (fun n => n = T) a) H)
    as H1.
  rewrite E in H1.
  exact (proj1 (Forall_map (@length (list F)) (fun n => n = T) b) H1).
Qed.

(** Adding the timing signal keeps the shape of a rectangular tensor. *)
Lemma bt_shape_timing (r : Tensor F) (d : nat) :
  rectangular r ->
  bt_shape (bzip3 add r (timing_signal (length (hd [] r)) d)) = bt_shape r.
Proof.
  intros [T H]. unfold bzip3, timing_signal, bt_shape.
  set (sig := map (fun pos => map (fun c => timing d pos c) (seq 0 d))
                  (seq 0 (length (hd [] r)))).
  assert (Ls : forall row, In row r -> length row = length sig).
  { intros row Hrow. unfold sig. rewrite length_map, length_seq.
    rewrite Forall_forall in H. rewrite (H row Hrow).
    destruct r as [|r0 r']; [destruct Hrow|]. cbn. symmetry. apply H.
    now left. }
  assert (M : map (@length (list F))
                (map (fun row => bzip (bzip add) row sig) r)
              = map (@length (list F)) r).
  { rewrite map_map. apply map_ext_in. intros row Hrow.
    apply length_bzip_same. now apply Ls. }
  destruct r as [|r0 [|r1 r']]; [reflexivity | | exact M].
  cbn [bzip map]. f_equal. apply length_bzip_same. apply Ls. now left.
Qed.

Lemma bt_shape_rescaled_eval (hp : HParams F) (x : Tensor F) (env : Env F) :
  rectangular x -> bt_shape (rescaled_eval hp x env) = bt_shape x.
Proof.
  intros R. unfold rescaled_eval.
  assert (C : bt_shape (conv1d_same (weights env "rescaled_embedding")
                          (reduced_input_size hp) 1 1 None x) = bt_shape x)
    by now apply bt_shape_conv1d.
  rewrite bt_shape_bzip3.
  - destruct (chr_pos_enc hp); [|exact C].
    rewrite bt_shape_timing; [exact C|].
    apply (@rectangular_bt_shape x); [now symmetry | assumption].
  - rewrite bt_shape_mask_value.
    destruct (chr_pos_enc hp); [|exact C].
    rewrite bt_shape_timing; [exact C|].
    apply (@rectangular_bt_shape x); [now symmetry | assumption].
Qed.

Lemma after_conv_shape (pooled out : Sym F) (hp : HParams F)
    (g g' : Graph) :
  chrawr_after_conv pooled hp g = (Ok out, g') ->
  forall env,
    bt_shape (eval out env) = bt_shape (eval pooled env) /\
    channels (hidden_size hp) (eval out env).
Proof.
  intros R env. apply chrawr_after_conv_inv in R.
  destruct R as (d & g1 & D & _ & V). rewrite V. unfold restored_eval.
  split.
  - rewrite bt_shape_bzip3; rewrite bt_shape_conv1d by lia;
      rewrite bt_shape_bzip3;
      rewrite ?bt_shape_mask_value, ?bt_shape_highway_eval;
      try reflexivity; apply (@bt_shape_dropout _ _ _ _ _ _ _ D).
  - apply channels_bzip3_mask;
      [apply channels_conv1d | apply channels_mask_value].
Qed.

Lemma chrawr_embedding_builds (emb : Sym F) (hp : HParams F) (g : Graph) :
  valid_config hp = true ->
  (forall env, rectangular (eval emb env)) ->
  exists out g',
    chrawr_embedding emb hp g = (Ok out, g') /\
    depth out = hidden_size hp /\ wf_sym out /\
    forall env,
      bt_shape (eval out env)
      = map (fun L => ceil_div L (chr_maxpool_size hp))
            (bt_shape (eval emb env)).
Proof.
  intros V R. apply valid_config_spec in V.
  destruct V as (A & N & K & P & H & D).
  destruct (chrawr_embedding_prefix emb hp g)
    as (m & x & E & _ & Dm & Vm & _ & Vx).
  destruct (@conv_emb_returns x hp m "ConvEmb" (g ++ prefix_nodes hp)
              A N P Dm) as (pooled & g1 & C).
  destruct (@chrawr_after_conv_ok pooled hp g1 D H) as (out & Ro & Do).
  exists out. eexists. split.
  { rewrite E. unfold bind at 1. rewrite C. exact Ro. }
  split; [exact Do|].
  pose proof (@after_conv_shape pooled out hp g1 _ Ro) as S.
  split.
  { intros env. rewrite Do. apply (S env). }
  intros env. rewrite (proj1 (S env)).
  apply conv_emb_inv in C. destruct C as (_ & Vp). rewrite Vp.
  assert (Bx : bt_shape (eval x env) = bt_shape (eval emb env)).
  { rewrite Vx. apply bt_shape_rescaled_eval, R. }
  rewrite <- Bx. apply bt_shape_conv_emb_eval; try assumption.
  now rewrite Vm, bt_shape_mask_value.
Qed.

(** X1: on a valid configuration and a rectangular input, [chrawr_embedding]
    returns a tensor with [hidden_size] channels, the batch size of the
    input and ceil (L / p) positions where the input has L. *)
Theorem chrawr_embedding_shape (emb : Sym F) (hp : HParams F) (g : Graph) :
  valid_config hp = true ->
  (forall env, rectangular (eval emb env)) ->
  exists out g',
    chrawr_embedding emb hp g = (Ok out, g') /\
    depth out = hidden_size hp /\ wf_sym out /\
    forall env,
      bt_shape (eval out env)
      = map (fun L => ceil_div L (chr_maxpool_size hp))
            (bt_shape (eval emb env)).
Proof. apply chrawr_embedding_builds. Qed.

(** *** Which configurations build, and with which error the others fail *)

Lemma conv_emb_ok_inv (inputs : Sym F) (hp : HParams F) (mask : Sym F)
    (scope : string) (g g' : Graph) (out : Sym F) :
  conv_emb inputs hp mask scope g = (Ok out, g') ->
  chr_kernels hp <> [] /\ 1 <= chr_maxpool_size hp.
Proof.
  intros R. pose proof R as R0. apply conv_emb_inv in R0.
  destruct R0 as (A & _).
  unfold conv_emb, bind, py_assert in R.
  replace (length (chr_kernels hp) =? length (chr_kernel_features hp))
    with true in R by (symmetry; now apply Nat.eqb_eq).
  cbn [ret] in R.
  destruct (chr_kernels hp) as [|k ks].
  - destruct (chr_kernel_features hp); [|discriminate]. discriminate.
  - destruct (chr_kernel_features hp) as [|f fs]; [discriminate|].
    split; [discriminate|].
    cbn [combine for_each] in R. unfold bind at 1 in R.
    destruct (conv_emb_body inputs hp mask scope (k, f) [] g)
      as [[l|e] g1] eqn:B; [|discriminate].
    apply conv_emb_body_inv in B. now destruct B as (_ & _ & _ & P & _).
Qed.

Lemma chrawr_after_conv_ok_inv (pooled out : Sym F) (hp : HParams F)
    (g g' : Graph) :
  chrawr_after_conv pooled hp g = (Ok out, g') ->
  keep_prob_ok (sub one (chr_dropout_rate hp)) = true /\
  1 <= num_highway_layers hp.
Proof.
  intros R. apply chrawr_after_conv_inv in R.
  destruct R as (d & g1 & D & N & _). split; [|exact N].
  unfold tf_nn_dropout in D. unfold keep_prob_ok.
  destruct (negb (fleb (sub one (chr_dropout_rate hp)) zero)
            && fleb (sub one (chr_dropout_rate hp)) one);
    [reflexivity | discriminate].
Qed.

(** X2: [chrawr_embedding] returns a tensor only when the kernel widths and
    feature counts are equally many and at least one, the pooling size is
    at least 1, there is at least one highway layer and [1 - rate] passes
    the check of the dropout: a configuration that breaks one of these
    makes the construction raise. *)
Theorem chrawr_embedding_returns_only_if (emb out : Sym F) (hp : HParams F)
    (g g' : Graph) :
  chrawr_embedding emb hp g = (Ok out, g') ->
  length (chr_kernels hp) = length (chr_kernel_features hp) /\
  chr_kernels hp <> [] /\
  1 <= chr_maxpool_size hp /\
  1 <= num_highway_layers hp /\
  keep_prob_ok (sub one (chr_dropout_rate hp)) = true.
Proof.
  destruct (chrawr_embedding_prefix emb hp g)
    as (m & x & E & _ & Dm & _ & _ & _).
  rewrite E. unfold bind at 1.
  destruct (conv_emb x hp m "ConvEmb" (g ++ prefix_nodes hp))
    as [[pooled|e] g1] eqn:C; [|discriminate].
  intros R. pose proof C as C0. apply conv_emb_inv in C0.
  destruct C0 as (A & _).
  apply conv_emb_ok_inv in C. apply chrawr_after_conv_ok_inv in R.
  tauto.
Qed.

(** *** The random draws the output depends on *)

Lemma nth_error_middle {A} (a b : list A) (x : A) :
  nth_error (a ++ x :: b) (length a) = Some x.
Proof.
  rewrite nth_error_app2 by lia. now rewrite Nat.sub_diag.
Qed.

Lemma dropout_eval_noise (keep : F) (id : nat) (x : Tensor F)
    (env1 env2 : Env F) :
  noise env1 id = noise env2 id ->
  dropout_eval keep id x env1 = dropout_eval keep id x env2.
Proof. intros N. unfold dropout_eval. now rewrite N. Qed.

Lemma pooled_eval_weights (emb pooled : Sym F) (hp : HParams F)
    (g g1 : Graph) (env1 env2 : Env F) :
  chrawr_pooled emb hp g = (Ok pooled, g1) ->
  weights env1 = weights env2 -> eval emb env1 = eval emb env2 ->
  eval pooled env1 = eval pooled env2.
Proof.
  intros C W I.
  destruct (chrawr_embedding_prefix emb hp g)
    as (m & x & _ & Ep & _ & Vm & _ & Vx).
  rewrite Ep in C. apply conv_emb_inv in C. destruct C as (_ & Vp).
  rewrite !Vp, !Vm, !Vx, I.
  rewrite (@rescaled_eval_weights _ _ hp (eval emb env2) env1 env2 W).
  apply conv_emb_eval_weights, W.
Qed.

(** X6: with an active dropout ([1 - rate] is not 1) the graph of
    [chrawr_embedding] holds two dropout nodes, the second right before
    the restoring convolution, and the value of the tensor returned
    depends on the random draws of the first only: two runs with the same
    input, the same variables and the same draws at the first dropout
    node return the same tensor, whatever the second node draws. *)
Theorem chrawr_embedding_second_dropout_unused (emb out : Sym F)
    (hp : HParams F) (g g' : Graph) :
  chrawr_embedding emb hp g = (Ok out, g') ->
  feqb (sub one (chr_dropout_rate hp)) one = false ->
  exists n1 n2,
    n1 < n2 /\
    nth_error g' n1 = Some "dropout"%string /\
    nth_error g' n2 = Some "dropout"%string /\
    nth_error g' (S n2) = Some "conv1d:restored_embedding"%string /\
    forall env1 env2,
      weights env1 = weights env2 ->
      eval emb env1 = eval emb env2 ->
      noise env1 n1 = noise env2 n1 ->
      eval out env1 = eval out env2.
Proof.
  intros R K.
  destruct (chrawr_embedding_prefix emb hp g)
    as (m & x & E & Ep & _ & _ & _ & _).
  rewrite E in R. unfold bind at 1 in R.
  destruct (conv_emb x hp m "ConvEmb" (g ++ prefix_nodes hp))
    as [[pooled|e] g1] eqn:C; [|discriminate].
  pose proof R as G. apply chrawr_after_conv_graph in G.
  destruct G as (G & _).
  apply chrawr_after_conv_inv in R. destruct R as (d & gd & D & _ & V).
  apply tf_nn_dropout_inv in D.
  destruct D as [(K' & _)|(_ & _ & Dd & Vd)]; [congruence|].
  unfold after_conv_nodes, dropout_nodes in G. rewrite K in G.
  set (hw := flat_map (highway_layer_nodes "Highway")
               (seq 0 (num_highway_layers hp))) in *.
  exists (length (g1 ++ mask_nodes "emb_mask_in")),
         (length ((g1 ++ mask_nodes "emb_mask_in") ++ ["dropout"%string]
                    ++ hw ++ ["Mul"%string])).
  split; [rewrite !length_app; cbn; lia|].
  split.
  { rewrite G.
    replace (g1 ++ mask_nodes "emb_mask_in" ++ ["dropout"%string] ++ hw
               ++ ["Mul"%string] ++ ["dropout"%string]
               ++ ["conv1d:restored_embedding"%string; "Mul"%string])
      with ((g1 ++ mask_nodes "emb_mask_in")
              ++ "dropout"%string
                 :: (hw ++ ["Mul"%string] ++ ["dropout"%string]
                     ++ ["conv1d:restored_embedding"%string; "Mul"%string]))
      by (now rewrite <- !app_assoc).
    apply nth_error_middle. }
  split.
  { rewrite G.
    replace (g1 ++ mask_nodes "emb_mask_in" ++ ["dropout"%string] ++ hw
               ++ ["Mul"%string] ++ ["dropout"%string]
               ++ ["conv1d:restored_embedding"%string; "Mul"%string])
      with (((g1 ++ mask_nodes "emb_mask_in") ++ ["dropout"%string]
               ++ hw ++ ["Mul"%string])
              ++ "dropout"%string
                 :: ["conv1d:restored_embedding"%string; "Mul"%string])
      by (now rewrite <- !app_assoc).
    apply nth_error_middle. }
  split.
  { rewrite G.
    replace (g1 ++ mask_nodes "emb_mask_in" ++ ["dropout"%string] ++ hw
               ++ ["Mul"%string] ++ ["dropout"%string]
               ++ ["conv1d:restored_embedding"%string; "Mul"%string])
      with ((((g1 ++ mask_nodes "emb_mask_in") ++ ["dropout"%string]
                ++ hw ++ ["Mul"%string]) ++ ["dropout"%string])
              ++ "conv1d:restored_embedding"%string :: ["Mul"%string])
      by (now rewrite <- !app_assoc).
    replace (S (length ((g1 ++ mask_nodes "emb_mask_in")
                          ++ ["dropout"%string] ++ hw ++ ["Mul"%string])))
      with (length (((g1 ++ mask_nodes "emb_mask_in") ++ ["dropout"%string]
                       ++ hw ++ ["Mul"%string]) ++ ["dropout"%string]))
      by (rewrite (length_app _ ["dropout"%string]); cbn; lia).
    apply nth_error_middle. }
  intros env1 env2 W I N.
  assert (P : eval pooled env1 = eval pooled env2)
    by (apply (@pooled_eval_weights emb pooled hp g g1 env1 env2 Ep W I)).
  rewrite !V, !Vd, P.
  rewrite (@dropout_eval_noise _ _ (eval pooled env2) env1 env2 N).
  rewrite (@highway_eval_weights _ _ (depth d) hp "Highway"
             (seq 0 (num_highway_layers hp))
             (dropout_eval (sub one (chr_dropout_rate hp))
                (length (g1 ++ mask_nodes "emb_mask_in"))
                (eval pooled env2) env2) env1 env2 W).
  apply restored_eval_weights, W.
Qed.

(** *** Padding through the pooling *)

Lemma window_content {A} (k st s0 : nat) (xs : list A) (v : A) :
  In (Some v) (firstn k (skipn s0 (same_padded k st xs))) ->
  exists j,
    nth_error xs j = Some v /\
    s0 <= same_pad_total k st (length xs) / 2 + j < s0 + k.
Proof.
  intros H. apply In_nth_error in H. destruct H as (n & H).
  rewrite nth_error_firstn in H.
  destruct (n <? k) eqn:Hn; [|discriminate]. apply Nat.ltb_lt in Hn.
  rewrite nth_error_skipn in H. unfold same_padded in H.
  set (padl := same_pad_total k st (length xs) / 2) in *.
  rewrite nth_error_app, repeat_length in H.
  destruct (s0 + n <? padl) eqn:Hl.
  { apply nth_error_In, repeat_spec in H. discriminate. }
  apply Nat.ltb_ge in Hl.
  rewrite nth_error_app, length_map in H.
  destruct (s0 + n - padl <? length xs) eqn:Hx.
  - rewrite nth_error_map in H.
    destruct (nth_error xs (s0 + n - padl)) as [v'|] eqn:E; [|discriminate].
    cbn in H. injection H as ->. exists (s0 + n - padl). split; [exact E|].
    lia.
  - apply nth_error_In, repeat_spec in H. discriminate.
Qed.

Lemma is_padding_zipWith_fmax (u v : list F) :
  is_padding u -> is_padding v -> is_padding (zipWith fmax u v).
Proof.
  unfold is_padding. rewrite !Forall_forall. intros Hu Hv.
  apply Forall_forall, Forall_zipWith. intros x y Hx Hy.
  rewrite (Hu x Hx), (Hv y Hy). unfold fmax. now destruct (fleb zero zero).
Qed.

Lemma is_padding_pool_window (w : list (option (list F))) :
  (forall v, In (Some v) w -> is_padding v) -> is_padding (pool_window w).
Proof.
  intros H.
  assert (S : Forall is_padding (somes w)).
  { apply Forall_forall. intros v Hv. now apply H, in_somes. }
  unfold pool_window. destruct (somes w) as [|v vs]; [constructor|].
  inversion S as [|? ? Hv Hvs]; subst. clear S H.
  revert v Hv. induction Hvs as [|u vs Hu _ IH]; intros v Hv; [assumption|].
  cbn. apply IH. now apply is_padding_zipWith_fmax.
Qed.

Lemma nth_error_map_seq {A} (f : nat -> A) (n i : nat) :
  nth_error (map f (seq 0 n)) i = if i <? n then Some (f i) else None.
Proof.
  rewrite nth_error_map.
  destruct (i <? n) eqn:E.
  - apply Nat.ltb_lt in E. rewrite nth_error_seq.
    replace (i <? n) with true by (symmetry; now apply Nat.ltb_lt).
    reflexivity.
  - apply Nat.ltb_ge in E.
    replace (nth_error (seq 0 n) i) with (@None nat); [reflexivity|].
    symmetry. apply nth_error_None. now rewrite length_seq.
Qed.

(** A pooled position is all-zero when every position of its window
    is. *)
Lemma max_pool_padding (p : nat) (X : Tensor F) (b i : nat)
    (row : list (list F)) (u : list F) :
  nth_error X b = Some row ->
  (forall j v, in_pool_window p (length row) i j ->
               nth_error row j = Some v -> is_padding v) ->
  lookup2 (max_pool_same p p X) b i = Some u -> is_padding u.
Proof.
  intros Hb W. unfold lookup2, max_pool_same.
  rewrite nth_error_map, Hb. cbn [option_map].
  unfold same_windows. rewrite map_map, nth_error_map_seq.
  destruct (i <? valid_count p p (length (same_padded p p row)));
    [|discriminate].
  intros E. injection E as <-. apply is_padding_pool_window.
  intros v Hv. apply window_content in Hv. destruct Hv as (j & Hj & R).
  exact (W j v R Hj).
Qed.

Lemma lookup2_concat (x y : Tensor F) (b i : nat) (u : list F) :
  lookup2 (concat_channels x y) b i = Some u ->
  exists u1 u2,
    lookup2 x b i = Some u1 /\ lookup2 y b i = Some u2 /\ u = u1 ++ u2.
Proof.
  unfold lookup2, concat_channels. rewrite nth_error_zipWith.
  destruct (nth_error x b) as [rx|]; [|discriminate].
  destruct (nth_error y b) as [ry|]; [|discriminate].
  rewrite nth_error_zipWith.
  destruct (nth_error rx i) as [u1|]; [|discriminate].
  destruct (nth_error ry i) as [u2|]; [|discriminate].
  intros E. injection E as <-. eauto.
Qed.

Lemma fold_concat_padding (bs : list (Tensor F)) (b0 : Tensor F)
    (b i : nat) (u : list F) :
  (forall t v, In t (b0 :: bs) -> lookup2 t b i = Some v -> is_padding v) ->
  lookup2 (fold_left concat_channels bs b0) b i = Some u -> is_padding u.
Proof.
  revert b0. induction bs as [|t bs IH]; intros b0 H E.
  - apply (H b0); [now left | exact E].
  - cbn in E. apply IH in E; [exact E|].
    intros t' v [<-|Ht'] Hv.
    + apply lookup2_concat in Hv. destruct Hv as (u1 & u2 & H1 & H2 & ->).
      unfold is_padding. apply Forall_app. split.
      * apply (H b0); [now left | exact H1].
      * apply (H t); [right; now left | exact H2].
    + apply (H t'); [right; now right | exact Hv].
Qed.

(** *** The registered hyperparameter sets build *)

Lemma keep_prob_ok_no_dropout : keep_prob_ok (sub one zero) = true.
Proof.
  unfold keep_prob_ok. now rewrite sub_0_r, fleb_1_0, fleb_refl.
Qed.

(** X11: every hyperparameter set the file registers for the character-aware
    model is a valid configuration of the embedding (for the one with
    dropout rate .2, provided [1 - .2] lies in (0, 1]): on every
    rectangular input [chrawr_embedding] returns a tensor with
    [hidden_size] channels and ceil (L / p) positions. *)
Theorem chrawr_presets_build (tf_nn_tanh tf_nn_elu : F -> F) (point_two : F)
    (hp : HParams F) :
  keep_prob_ok (sub one point_two) = true ->
  In hp (chrawr_presets tf_nn_tanh tf_nn_elu point_two) ->
  valid_config hp = true /\
  forall (emb : Sym F) (g : Graph),
    (forall env, rectangular (eval emb env)) ->
    exists out g',
      chrawr_embedding emb hp g = (Ok out, g') /\
      depth out = hidden_size hp /\ wf_sym out /\
      forall env,
        bt_shape (eval out env)
        = map (fun L => ceil_div L (chr_maxpool_size hp))
              (bt_shape (eval emb env)).
Proof.
  intros K H.
  assert (V : valid_config hp = true).
  { pose proof keep_prob_ok_no_dropout as K0.
    unfold chrawr_presets in H. cbn [In] in H.
    repeat (destruct H as [<-|H];
            [unfold valid_config; cbn -[keep_prob_ok sub];
             rewrite ?andb_true_r; first [exact K0 | exact K]|]).
    destruct H. }
  split; [exact V|]. intros emb g R. now apply chrawr_embedding_builds.
Qed.

(** *** The nodes the construction adds to the graph *)

Lemma conv_emb_graph (inputs : Sym F) (hp : HParams F) (mask : Sym F)
    (scope : string) (g g' : Graph) (out : Sym F) :
  conv_emb inputs hp mask scope g = (Ok out, g') ->
  g' = g ++ conv_emb_nodes hp scope.
Proof.
  unfold conv_emb, conv_emb_nodes, bind, py_assert.
  destruct (length (chr_kernels hp) =? length (chr_kernel_features hp));
    [|discriminate].
  cbn [ret].
  destruct (for_each (combine (chr_kernels hp) (chr_kernel_features hp))
              (conv_emb_body inputs hp mask scope) [] g)
    as [[layers|e] g1] eqn:L; [|discriminate].
  apply conv_emb_loop_inv in L. destruct L as (pools & -> & -> & _).
  cbn [app]. destruct (1 <? length (chr_kernels hp)).
  - unfold tf_concat. destruct pools as [|v vs]; [discriminate|].
    unfold bind, add_node, ret. intros E. injection E as _ <-.
    now rewrite <- app_assoc.
  - destruct pools as [|v vs]; [discriminate|].
    cbn. intros E. injection E as _ <-. now rewrite app_nil_r.
Qed.

(** X3: [chrawr_embedding] leaves the nodes of the graph in place and appends
    its own, which the hyperparameters determine: the mask, the summary
    and the rescaling; per kernel a convolution, a product with the mask
    and a pooling, and one concatenation when there are several kernels;
    the recomputed mask and its summary; per highway layer two
    projections and the four operations of the gate; the two dropouts
    when the rate is not 0; the restoring convolution and the products
    with the recomputed mask. *)
Theorem chrawr_embedding_graph (emb out : Sym F) (hp : HParams F)
    (g g' : Graph) :
  chrawr_embedding emb hp g = (Ok out, g') ->
  g' = g ++ prefix_nodes hp ++ conv_emb_nodes hp "ConvEmb"
         ++ after_conv_nodes hp.
Proof.
  intros R.
  destruct (chrawr_embedding_prefix emb hp g)
    as (m & x & E & _ & _ & _ & _ & _).
  rewrite E in R. unfold bind at 1 in R.
  destruct (conv_emb x hp m "ConvEmb" (g ++ prefix_nodes hp))
    as [[pooled|e] g1] eqn:C; [|discriminate].
  apply conv_emb_graph in C. apply chrawr_after_conv_graph in R.
  destruct R as (-> & _). subst g1. now rewrite <- !app_assoc.
Qed.

(** X7: with no highway layer, and a configuration valid otherwise (as
    many feature counts as kernels, at least one kernel, pairwise distinct
    kernel widths of at least 1, at least one filter per kernel, pooling
    and reduced size of at least 1, [1 - rate] in (0, 1]), the pipeline
    fails with the unbound [output] of [highway], after it added to the
    graph the nodes up to the rescaling, those of [conv_emb], the
    recomputed mask with its summary and the first dropout. *)
Theorem chrawr_embedding_no_highway_layer (emb : Sym F) (hp : HParams F)
    (g : Graph) :
  length (chr_kernels hp) = length (chr_kernel_features hp) ->
  chr_kernels hp <> [] ->
  NoDup (chr_kernels hp) ->
  Forall (fun k => 1 <= k) (chr_kernels hp) ->
  Forall (fun f => 1 <= f) (chr_kernel_features hp) ->
  1 <= chr_maxpool_size hp ->
  1 <= reduced_input_size hp ->
  keep_prob_ok (sub one (chr_dropout_rate hp)) = true ->
  num_highway_layers hp = 0 ->
  chrawr_embedding emb hp g
  = (Raise (UnboundLocalError "output"),
     g ++ prefix_nodes hp ++ conv_emb_nodes hp "ConvEmb"
       ++ mask_nodes "emb_mask_in"
       ++ dropout_nodes (sub one (chr_dropout_rate hp))).
Proof.
  intros A N _ _ _ P _ D H.
  destruct (chrawr_embedding_prefix emb hp g)
    as (m & x & E & _ & Dm & _ & _ & _).
  destruct (@conv_emb_returns x hp m "ConvEmb" (g ++ prefix_nodes hp)
              A N P Dm) as (pooled & g1 & C).
  rewrite E. unfold bind at 1. rewrite C.
  apply conv_emb_graph in C. subst g1.
  unfold chrawr_after_conv.
  unfold bind at 1. rewrite embedding_mask_run.
  unfold bind at 1. unfold tf_summary_image, bind at 1.
  cbn [add_node ret]. unfold bind at 1.
  match goal with
  | |- context [tf_nn_dropout pooled _ ?gg] =>
      replace gg
        with ((g ++ prefix_nodes hp) ++ conv_emb_nodes hp "ConvEmb"
                ++ mask_nodes "emb_mask_in")
        by (unfold mask_nodes; now rewrite <- !app_assoc)
  end.
  match goal with
  | |- context [tf_nn_dropout pooled _ ?gg] =>
      destruct (@tf_nn_dropout_ok pooled (sub one (chr_dropout_rate hp))
                  gg D) as (d & Dd & _)
  end.
  rewrite Dd. unfold bind at 1. unfold highway. rewrite H.
  cbn -[prefix_nodes conv_emb_nodes mask_nodes dropout_nodes app].
  f_equal. now rewrite <- !app_assoc.
Qed.

(** *** Every batch element is embedded on its own *)

Lemma rowwise_id : rowwise (fun x : Tensor F => x).
Proof. exists (fun r => r). intros x _. now rewrite map_id. Qed.

Lemma rowwise_ext (t u : Tensor F -> Tensor F) :
  (forall x, t x = u x) -> rowwise t -> rowwise u.
Proof.
  intros E [tr H]. exists tr. intros x R. rewrite <- E. now apply H.
Qed.

Lemma rowwise_map (h : list (list F) -> list (list F))
    (t : Tensor F -> Tensor F) :
  rowwise t -> rowwise (fun x => map h (t x)).
Proof.
  intros [tr H]. exists (fun r => h (tr r)). intros x R.
  now rewrite (H x R), map_map.
Qed.

Lemma rowwise_conv1d (P : ConvParams F) (f k st : nat)
    (a : option (F -> F)) (t : Tensor F -> Tensor F) :
  rowwise t -> rowwise (fun x => conv1d_same P f k st a (t x)).
Proof. intros H. unfold conv1d_same. now apply rowwise_map. Qed.

Lemma rowwise_max_pool (p q : nat) (t : Tensor F -> Tensor F) :
  rowwise t -> rowwise (fun x => max_pool_same p q (t x)).
Proof. intros H. unfold max_pool_same. now apply rowwise_map. Qed.

Lemma rowwise_map3 (f : F -> F) (t : Tensor F -> Tensor F) :
  rowwise t -> rowwise (fun x => map3 f (t x)).
Proof. intros H. unfold map3. now apply rowwise_map. Qed.

Lemma rowwise_mask_value (t : Tensor F -> Tensor F) :
  rowwise t -> rowwise (fun x => mask_value (t x)).
Proof. intros H. unfold mask_value. now apply rowwise_map. Qed.

Lemma rowwise_bzip3 (op : F -> F -> F) (t u : Tensor F -> Tensor F) :
  rowwise t -> rowwise u -> rowwise (fun x => bzip3 op (t x) (u x)).
Proof.
  intros [tr Ht] [ur Hu].
  exists (fun r => bzip (bzip op) (tr r) (ur r)). intros x R.
  rewrite (Ht x R), (Hu x R). unfold bzip3. apply bzip_map_map.
Qed.

Lemma zipWith_map_map {A B C D} (f : A -> B -> C) (a : D -> A) (b : D -> B)
    (l : list D) :
  zipWith f (map a l) (map b l) = map (fun x => f (a x) (b x)) l.
Proof.
  unfold zipWith. induction l as [|x l IH]; cbn; [reflexivity|].
  f_equal. exact IH.
Qed.

Lemma rowwise_concat (t u : Tensor F -> Tensor F) :
  rowwise t -> rowwise u -> rowwise (fun x => concat_channels (t x) (u x)).
Proof.
  intros [tr Ht] [ur Hu].
  exists (fun r => zipWith (@app F) (tr r) (ur r)). intros x R.
  rewrite (Ht x R), (Hu x R). unfold concat_channels.
  apply zipWith_map_map.
Qed.

Lemma rowwise_fold_concat {A} (B : A -> Tensor F -> Tensor F)
    (l : list A) (t : Tensor F -> Tensor F) :
  (forall a, rowwise (B a)) -> rowwise t ->
  rowwise (fun x => fold_left concat_channels (map (fun a => B a x) l) (t x)).
Proof.
  intros HB. revert t. induction l as [|a l IH]; intros t Ht; [exact Ht|].
  cbn [map fold_left].
  apply (IH (fun x => concat_channels (t x) (B a x))).
  now apply rowwise_concat.
Qed.

Lemma rowwise_highway_eval (size : nat) (hp : HParams F) (scope : string)
    (idxs : list nat) (env : Env F) (t : Tensor F -> Tensor F) :
  rowwise t ->
  rowwise (fun x => highway_eval size hp scope idxs (t x) env).
Proof.
  unfold highway_eval. revert t.
  induction idxs as [|i idxs IH]; intros t Ht; [exact Ht|].
  cbn [fold_left].
  apply (IH (fun x => highway_layer_eval size hp scope i (t x) env)).
  unfold highway_layer_eval.
  repeat first [ apply rowwise_bzip3 | apply rowwise_map3
               | apply rowwise_conv1d | exact Ht ].
Qed.

Lemma rowwise_timing (P : ConvParams F) (f d : nat) (a : option (F -> F)) :
  rowwise (fun x =>
             let r := conv1d_same P f 1 1 a x in
             bzip3 add r (timing_signal (length (hd [] r)) d)).
Proof.
  exists (fun row =>
            let c := map (fun w =>
                            map (fun o => activate a
                                            (add (window_dot P w o) (bias P o)))
                                (seq 0 f))
                         (same_windows 1 1 row) in
            bzip (bzip add) c
                 (map (fun pos => map (fun c => timing d pos c) (seq 0 d))
                      (seq 0 (length c)))).
  intros x [T R]. cbn zeta. unfold bzip3, timing_signal.
  rewrite bzip_singleton_r. unfold conv1d_same. rewrite map_map.
  apply map_ext_in. intros row Hrow. cbn zeta.
  do 3 f_equal.
  rewrite Forall_forall in R.
  rewrite !length_map, !length_same_windows_conv by lia.
  rewrite (R row Hrow).
  destruct x as [|r0 x']; [destruct Hrow|]. cbn [map hd].
  rewrite !length_map, !length_same_windows_conv by lia.
  apply R. now left.
Qed.

Lemma rowwise_rescaled_eval (hp : HParams F) (env : Env F) :
  rowwise (fun x => rescaled_eval hp x env).
Proof.
  unfold rescaled_eval. cbn zeta.
  apply rowwise_bzip3; [|apply rowwise_mask_value, rowwise_id].
  destruct (chr_pos_enc hp).
  - apply rowwise_timing.
  - apply rowwise_conv1d, rowwise_id.
Qed.

Lemma rowwise_conv_emb_eval (hp : HParams F) (scope : string)
    (env : Env F) (t u : Tensor F -> Tensor F) :
  chr_kernels hp <> [] ->
  length (chr_kernels hp) = length (chr_kernel_features hp) ->
  rowwise t -> rowwise u ->
  rowwise (fun x => conv_emb_eval hp scope (t x) (u x) env).
Proof.
  intros N A Ht Hu. unfold conv_emb_eval.
  assert (HB : forall kf,
             rowwise (fun x => branch_eval hp scope kf (t x) (u x) env)).
  { intros kf. unfold branch_eval.
    now apply rowwise_max_pool, rowwise_bzip3; [apply rowwise_conv1d|]. }
  destruct (chr_kernels hp) as [|k ks]; [congruence|].
  destruct (chr_kernel_features hp) as [|f fs]; [discriminate|].
  cbn [combine map]. destruct (1 <? length (k :: ks)).
  - apply (@rowwise_fold_concat _
             (fun kf x => branch_eval hp scope kf (t x) (u x) env)
             (combine ks fs)
             (fun x => branch_eval hp scope (k, f) (t x) (u x) env));
      [exact HB | apply HB].
  - apply HB.
Qed.

Lemma rowwise_chrawr_eval_nodrop (hp : HParams F) (env : Env F) :
  chr_kernels hp <> [] ->
  length (chr_kernels hp) = length (chr_kernel_features hp) ->
  rowwise (chrawr_eval_nodrop hp env).
Proof.
  intros N A. unfold chrawr_eval_nodrop. cbn zeta.
  assert (P : rowwise (fun x => conv_emb_eval hp "ConvEmb"
                                  (rescaled_eval hp x env) (mask_value x)
                                  env)).
  { apply rowwise_conv_emb_eval; try assumption.
    - apply rowwise_rescaled_eval.
    - apply rowwise_mask_value, rowwise_id. }
  unfold restored_eval.
  apply rowwise_bzip3; [|now apply rowwise_mask_value].
  apply rowwise_conv1d, rowwise_bzip3; [|now apply rowwise_mask_value].
  now apply rowwise_highway_eval.
Qed.

Lemma conv_emb_static_depth (inputs : Sym F) (hp : HParams F)
    (mask : Sym F) (scope : string) (g g' : Graph) (out : Sym F) :
  conv_emb inputs hp mask scope g = (Ok out, g') -> depth mask = 1 ->
  depth out = conv_emb_depth hp.
Proof.
  intros R D. pose proof R as R0. apply conv_emb_inv in R0.
  destruct R0 as (A & _).
  unfold conv_emb, conv_emb_depth, bind, py_assert in *.
  replace (length (chr_kernels hp) =? length (chr_kernel_features hp))
    with true in R by (symmetry; now apply Nat.eqb_eq).
  cbn [ret] in R.
  destruct (for_each (combine (chr_kernels hp) (chr_kernel_features hp))
              (conv_emb_body inputs hp mask scope) [] g)
    as [[layers|e] g1] eqn:L; [|discriminate].
  apply conv_emb_loop_inv in L. destruct L as (pools & -> & -> & FA).
  cbn [app] in R.
  assert (Ds : map (@depth F) pools = chr_kernel_features hp).
  { rewrite <- (map_snd_combine (chr_kernels hp) (chr_kernel_features hp) A).
    clear - FA D. induction FA as [|kf pool ? ? [E _] _ IH]; [reflexivity|].
    cbn [map]. rewrite IH. f_equal.
    rewrite D, broadcast_depth_1_r in E. now injection E. }
  destruct (1 <? length (chr_kernels hp)).
  - unfold tf_concat in R. destruct pools as [|v vs]; [discriminate|].
    unfold bind, add_node, ret in R. injection R as <- _. cbn [depth].
    rewrite fold_depth_sum, <- Ds. reflexivity.
  - destruct pools as [|v vs]; [discriminate|].
    cbn in R. injection R as <- _. now rewrite <- Ds.
Qed.

(** X5: with a dropout rate of 0 the pipeline embeds every batch element on
    its own: in a run, one function of a single sequence (fixed by the
    hyperparameters and the variables) gives the output of every
    rectangular batch, element by element; so the output for a sequence
    does not depend on what else is in its batch. *)
Theorem chrawr_embedding_batchwise (hp : HParams F) (env : Env F) :
  chr_dropout_rate hp = zero ->
  exists fr : list (list F) -> list (list F),
    forall (emb out : Sym F) (g g' : Graph),
      chrawr_embedding emb hp g = (Ok out, g') ->
      rectangular (eval emb env) ->
      eval out env = map fr (eval emb env).
Proof.
  intros Rate.
  destruct (list_eq_dec Nat.eq_dec (chr_kernels hp) []) as [N|N].
  { exists (fun r => r). intros emb out g g' R _. exfalso.
    apply chrawr_embedding_returns_only_if in R. tauto. }
  destruct (Nat.eq_dec (length (chr_kernels hp))
                       (length (chr_kernel_features hp))) as [A|A].
  2:{ exists (fun r => r). intros emb out g g' R _. exfalso.
      apply chrawr_embedding_returns_only_if in R. tauto. }
  destruct (rowwise_chrawr_eval_nodrop hp env N A) as (fr & H).
  exists fr. intros emb out g g' R Rect. rewrite <- (H _ Rect).
  destruct (chrawr_embedding_prefix emb hp g)
    as (m & x & E & _ & Dm & Vm & _ & Vx).
  rewrite E in R. unfold bind at 1 in R.
  destruct (conv_emb x hp m "ConvEmb" (g ++ prefix_nodes hp))
    as [[pooled|e] g1] eqn:C; [|discriminate].
  pose proof (@conv_emb_static_depth _ _ _ _ _ _ _ C Dm) as Dp.
  apply conv_emb_inv in C. destruct C as (_ & Vp).
  apply chrawr_after_conv_inv in R. destruct R as (d & g3 & D & _ & V).
  rewrite Rate, sub_0_r in D. apply tf_nn_dropout_inv in D.
  destruct D as [(_ & -> & _)|(K & _)];
    [|rewrite feqb_refl in K; discriminate].
  rewrite V, Dp, Vp, Vx, Vm. reflexivity.
Qed.

End Pipeline.

(** ** Padding stays zero where the values are finite *)

Section PaddingInvariant.

Context {F : Type} {SF : Scalar F} {FL : FiniteLaws F}.

Lemma sum_abs_zeros (v : list F) : is_padding v -> sumF (map fabs v) = zero.
Proof.
  unfold is_padding, sumF. induction 1 as [|x v -> _ IH]; [reflexivity|].
  cbn. now rewrite IH, fabs_0, add_0_0.
Qed.

Lemma mask_bit_zeros (v : list F) : is_padding v -> mask_bit v = zero.
Proof.
  intros P. unfold mask_bit. now rewrite (sum_abs_zeros P), feqb_0_0.
Qed.

(** The mask is 0 at every all-zero position. *)
Lemma mask_value_zeros (P : Tensor F) (b t : nat) (v : list F) :
  lookup2 P b t = Some v -> is_padding v ->
  lookup2 (mask_value P) b t = Some [zero].
Proof.
  unfold lookup2, mask_value. intros L Z. rewrite nth_error_map.
  destruct (nth_error P b) as [row|]; [|discriminate]. cbn [option_map].
  rewrite nth_error_map, L. cbn [option_map]. now rewrite (mask_bit_zeros Z).
Qed.

(** Where the mask is 0 a product with the mask is the left factor times
    0, channel by channel. *)
Lemma masked_position (R P : Tensor F) (b t : nat) :
  bt_shape R = bt_shape P ->
  lookup2 (mask_value P) b t = Some [zero] ->
  exists r,
    lookup2 R b t = Some r /\
    lookup2 (bzip3 mul R (mask_value P)) b t
    = Some (map (fun x => mul x zero) r).
Proof.
  intros B M.
  assert (B' : bt_shape R = bt_shape (mask_value P))
    by now rewrite bt_shape_mask_value.
  rewrite bzip3_eq_zipWith by assumption.
  unfold lookup2 in *. rewrite nth_error_zipWith.
  destruct (nth_error (mask_value P) b) as [mrow|] eqn:Em; [|discriminate].
  assert (L : nth_error (bt_shape R) b = Some (length mrow)).
  { rewrite B'. unfold bt_shape. now rewrite nth_error_map, Em. }
  unfold bt_shape in L. rewrite nth_error_map in L.
  destruct (nth_error R b) as [row|]; [|discriminate].
  cbn in L. injection L as L. rewrite nth_error_zipWith, M.
  destruct (nth_error row t) as [v|] eqn:Ev.
  - exists v. split; [reflexivity|]. now rewrite bzip_singleton_r.
  - apply nth_error_None in Ev.
    assert (t < length mrow) by (apply nth_error_Some; congruence). lia.
Qed.

Lemma times_zero_padding (r : list F) :
  Forall finite r -> is_padding (map (fun x => mul x zero) r).
Proof.
  unfold is_padding. intros H. rewrite Forall_map. revert H.
  apply Forall_impl. intros x. apply mul_0_r_finite.
Qed.

(** C3: the tensor [chrawr_embedding] returns is the restoring convolution
    (line 95) times the mask recomputed after the pooling, and it has the
    batch and time shape of the pooled embedding.  The mask is 0 at every
    all-zero position of the pooled embedding.  At a position where the
    mask is 0 the output is the vector of the restoring convolution times
    0: all-zero when that vector is finite (always, in exact arithmetic),
    and not when it holds an infinity or NaN, whose product with 0 is
    NaN. *)
Theorem chrawr_embedding_padding_zero (emb out : Sym F) (hp : HParams F)
    (g g' : Graph) :
  chrawr_embedding emb hp g = (Ok out, g') ->
  exists pooled g1 emb_mask_in g2 restored restored_input,
    chrawr_pooled emb hp g = (Ok pooled, g1) /\
    embedding_mask pooled g1 = (Ok emb_mask_in, g2) /\
    forall env,
      eval restored env
      = conv1d_same (weights env "restored_embedding") (hidden_size hp) 1 1
                    None (eval restored_input env) /\
      eval out env = bzip3 mul (eval restored env) (eval emb_mask_in env) /\
      bt_shape (eval out env) = bt_shape (eval pooled env) /\
      (forall b t v,
          lookup2 (eval pooled env) b t = Some v -> is_padding v ->
          lookup2 (eval emb_mask_in env) b t = Some [zero]) /\
      forall b t,
        lookup2 (eval emb_mask_in env) b t = Some [zero] ->
        exists r v,
          lookup2 (eval restored env) b t = Some r /\
          lookup2 (eval out env) b t = Some v /\
          v = map (fun x => mul x zero) r /\
          (Forall finite r -> is_padding v).
Proof.
  intros R.
  destruct (chrawr_embedding_prefix emb hp g)
    as (m & x & E & Ep & _ & _ & _ & _).
  rewrite E in R. unfold bind at 1 in R.
  destruct (conv_emb x hp m "ConvEmb" (g ++ prefix_nodes hp))
    as [[pooled|e] g1] eqn:C; [|discriminate].
  apply chrawr_after_conv_inv in R. destruct R as (d & g3 & D & _ & V).
  pose (restored_input :=
          {| depth := depth d;
             eval := fun env =>
               bzip3 mul
                 (highway_eval (depth d) hp "Highway"
                    (seq 0 (num_highway_layers hp)) (eval d env) env)
                 (mask_value (eval pooled env)) |}).
  pose (restored :=
          {| depth := hidden_size hp;
             eval := fun env =>
               conv1d_same (weights env "restored_embedding")
                 (hidden_size hp) 1 1 None (eval restored_input env) |}).
  exists pooled, g1. eexists. eexists. exists restored, restored_input.
  split; [now rewrite Ep|]. split; [apply embedding_mask_run|].
  intros env. cbn [eval]. rewrite mask_maps_eq, V. unfold restored_eval.
  assert (B : bt_shape
                (conv1d_same (weights env "restored_embedding")
                   (hidden_size hp) 1 1 None
                   (bzip3 mul
                      (highway_eval (depth d) hp "Highway"
                         (seq 0 (num_highway_layers hp)) (eval d env) env)
                      (mask_value (eval pooled env))))
              = bt_shape (eval pooled env)).
  { rewrite bt_shape_conv1d by lia.
    assert (H : bt_shape
                  (highway_eval (depth d) hp "Highway"
                     (seq 0 (num_highway_layers hp)) (eval d env) env)
                = bt_shape (eval pooled env)).
    { rewrite bt_shape_highway_eval. apply (@bt_shape_dropout _ _ _ _ _ _ _ D). }
    rewrite bt_shape_bzip3; [exact H|].
    now rewrite bt_shape_mask_value. }
  split; [reflexivity|]. split; [reflexivity|]. split.
  { rewrite bt_shape_bzip3; [exact B|]. now rewrite bt_shape_mask_value. }
  split.
  { intros b t v. apply mask_value_zeros. }
  intros b t M.
  destruct (@masked_position _ (eval pooled env) b t B M) as (r & Hr & Ho).
  exists r. eexists. split; [exact Hr|]. split; [exact Ho|].
  split; [reflexivity|]. apply times_zero_padding.
Qed.

(** *** Padding of the input survives the convolutions *)

(** The masked convolution is all-zero at the padding positions of the
    tensor the mask was taken from, where the convolution is finite. *)
Lemma masked_conv_padding (c e : Tensor F) (b : nat) (erow : list (list F)) :
  bt_shape c = bt_shape e -> nth_error e b = Some erow ->
  exists row,
    nth_error (bzip3 mul c (mask_value e)) b = Some row /\
    length row = length erow /\
    forall j u,
      nth_error row j = Some u ->
      exists v,
        nth_error erow j = Some v /\
        (is_padding v -> finite_at c b j -> is_padding u).
Proof.
  intros B He.
  rewrite bzip3_eq_zipWith by (now rewrite bt_shape_mask_value).
  rewrite nth_error_zipWith. unfold mask_value at 1.
  rewrite nth_error_map, He. cbn [option_map].
  assert (L : nth_error (bt_shape c) b = Some (length erow)).
  { rewrite B. unfold bt_shape. now rewrite nth_error_map, He. }
  unfold bt_shape in L. rewrite nth_error_map in L.
  destruct (nth_error c b) as [crow|] eqn:Ec; [|discriminate].
  cbn in L. injection L as L. eexists. split; [reflexivity|]. split.
  { rewrite length_zipWith, length_map. lia. }
  intros j u. rewrite nth_error_zipWith, nth_error_map.
  destruct (nth_error crow j) as [cv|] eqn:Ecv; [|discriminate].
  destruct (nth_error erow j) as [v|]; [|discriminate].
  cbn [option_map]. intros E. injection E as <-. exists v.
  split; [reflexivity|]. intros P Fc. rewrite bzip_singleton_r.
  rewrite (mask_bit_zeros P). apply times_zero_padding. apply Fc.
  unfold lookup2. now rewrite Ec.
Qed.

Lemma branch_padding (hp : HParams F) (scope : string) (k f : nat)
    (x e : Tensor F) (env : Env F) (b i : nat) (erow : list (list F))
    (u : list F) :
  1 <= k -> bt_shape x = bt_shape e -> nth_error e b = Some erow ->
  (forall j v, in_pool_window (chr_maxpool_size hp) (length erow) i j ->
               nth_error erow j = Some v -> is_padding v) ->
  (forall j, in_pool_window (chr_maxpool_size hp) (length erow) i j ->
             finite_at (branch_conv_eval hp scope (k, f) x env) b j) ->
  lookup2 (branch_eval hp scope (k, f) x (mask_value e) env) b i = Some u ->
  is_padding u.
Proof.
  intros K B He W Fc. unfold branch_eval.
  fold (branch_conv_eval hp scope (k, f) x env).
  assert (Bc : bt_shape (branch_conv_eval hp scope (k, f) x env)
               = bt_shape e).
  { unfold branch_conv_eval. cbn [fst snd]. now rewrite bt_shape_conv1d. }
  destruct (@masked_conv_padding _ e b erow Bc He) as (row & Hr & Lr & P).
  apply (@max_pool_padding _ _ (chr_maxpool_size hp) _ b i row u Hr).
  rewrite Lr.
  intros j v Hw Hj. destruct (P j v Hj) as (ev & Hev & Z).
  apply Z; [exact (W j ev Hw Hev) | exact (Fc j Hw)].
Qed.

Lemma conv_emb_eval_padding (hp : HParams F) (scope : string)
    (x e : Tensor F) (env : Env F) (b i : nat) (erow : list (list F))
    (u : list F) :
  Forall (fun k => 1 <= k) (chr_kernels hp) ->
  bt_shape x = bt_shape e -> nth_error e b = Some erow ->
  (forall j v, in_pool_window (chr_maxpool_size hp) (length erow) i j ->
               nth_error erow j = Some v -> is_padding v) ->
  (forall kf j,
      In kf (combine (chr_kernels hp) (chr_kernel_features hp)) ->
      in_pool_window (chr_maxpool_size hp) (length erow) i j ->
      finite_at (branch_conv_eval hp scope kf x env) b j) ->
  lookup2 (conv_emb_eval hp scope x (mask_value e) env) b i = Some u ->
  is_padding u.
Proof.
  intros K B He W Fc. unfold conv_emb_eval.
  assert (H : forall t v,
             In t (map (fun kf => branch_eval hp scope kf x (mask_value e) env)
                       (combine (chr_kernels hp) (chr_kernel_features hp))) ->
             lookup2 t b i = Some v -> is_padding v).
  { intros t v Ht Hv. apply in_map_iff in Ht.
    destruct Ht as ([k f] & <- & Hkf).
    apply (@branch_padding hp scope k f x e env b i erow v); auto.
    rewrite Forall_forall in K. apply K. eapply in_combine_l; eassumption. }
  destruct (map (fun kf => branch_eval hp scope kf x (mask_value e) env)
                (combine (chr_kernels hp) (chr_kernel_features hp)))
    as [|b0 bs]; [destruct b; discriminate|].
  destruct (1 <? length (chr_kernels hp)).
  - now apply fold_concat_padding.
  - apply (H b0). now left.
Qed.

(** X4: padding survives the convolutions at the pooled resolution: when
    every position of the input that falls into the pooling window of
    position [i] of batch element [b] is padding (all-zero), and the
    convolution of every kernel is finite at these positions (in float32
    an overflow there gives inf * 0 = NaN), the pooled embedding that
    [chrawr_embedding] computes in its lines 74 to 85 is all-zero at
    position [i] of [b], and the mask recomputed from it is 0 there. *)
Theorem chrawr_embedding_padding_windows (emb pooled : Sym F)
    (hp : HParams F) (g g1 : Graph) :
  chrawr_pooled emb hp g = (Ok pooled, g1) ->
  Forall (fun k => 1 <= k) (chr_kernels hp) ->
  (forall env, rectangular (eval emb env)) ->
  forall env b i row,
    nth_error (eval emb env) b = Some row ->
    (forall j v, in_pool_window (chr_maxpool_size hp) (length row) i j ->
                 nth_error row j = Some v -> is_padding v) ->
    (forall kf j,
        In kf (combine (chr_kernels hp) (chr_kernel_features hp)) ->
        in_pool_window (chr_maxpool_size hp) (length row) i j ->
        finite_at (branch_conv_eval hp "ConvEmb" kf
                     (rescaled_eval hp (eval emb env) env) env) b j) ->
    forall u,
      lookup2 (eval pooled env) b i = Some u ->
      is_padding u /\
      lookup2 (mask_value (eval pooled env)) b i = Some [zero].
Proof.
  intros R K Rect env b i row Hrow W Fc u Hu.
  destruct (chrawr_embedding_prefix emb hp g)
    as (m & x & _ & Ep & _ & Vm & _ & Vx).
  rewrite Ep in R. apply conv_emb_inv in R. destruct R as (_ & Vp).
  assert (Z : is_padding u).
  { rewrite Vp, Vm, Vx in Hu.
    apply (@conv_emb_eval_padding hp "ConvEmb"
             (rescaled_eval hp (eval emb env) env) (eval emb env) env b i
             row u); auto.
    apply bt_shape_rescaled_eval, Rect. }
  split; [exact Z|]. exact (mask_value_zeros _ _ _ Hu Z).
Qed.

End PaddingInvariant.

(** Exact arithmetic is the instance of these laws in which the proviso
    of finiteness always holds. *)
Lemma exact_finite {F : Type} {SF : Scalar F} (SL : ScalarLaws F) (x : F) :
  @finite F SF (exact_FiniteLaws SL) x.
Proof. exact I. Qed.

(** ** The rationals satisfy the laws *)

Module QcLaws.
Import QArith Qcanon Qcabs QcScalar.

Lemma Qc_leb_le (x y : Qc) : Qc_leb x y = true <-> (x <= y)%Qc.
Proof.
  unfold Qc_leb. destruct (Qclt_le_dec y x) as [H|H].
  - split; [discriminate|]. intros C. now apply Qcle_not_lt in C.
  - tauto.
Qed.

Lemma Qc_add_eq_0 (x y : Qc) :
  (0 <= x)%Qc -> (0 <= y)%Qc -> (x + y)%Qc = 0%Qc -> x = 0%Qc /\ y = 0%Qc.
Proof.
  intros Hx Hy E.
  assert (X : (x <= 0)%Qc).
  { rewrite <- E. rewrite <- (Qcplus_0_r x) at 1.
    apply Qcplus_le_compat; [apply Qcle_refl | assumption]. }
  assert (Y : (y <= 0)%Qc).
  { rewrite <- E. rewrite <- (Qcplus_0_l y) at 1.
    apply Qcplus_le_compat; [assumption | apply Qcle_refl]. }
  split; apply Qcle_antisym; assumption.
Qed.

#[export] Instance Qc_ScalarLaws : ScalarLaws Qc.
Proof.
  constructor; cbn.
  - intros x y. split; [apply Qc_eq_bool_correct|].
    intros ->. unfold Qc_eq_bool.
    destruct (Qc_eq_dec y y) as [_|N]; [reflexivity | now elim N].
  - intros x. apply Qc_leb_le, Qcle_refl.
  - reflexivity.
  - apply Qcplus_0_r.
  - intros x. change (q 0 1) with 0%Qc. ring.
  - apply Qcmult_0_r.
  - apply Qcmult_1_r.
  - intros x. apply Qc_leb_le, Qcabs_nonneg.
  - intros x. split; [apply Qcabs_null|]. intros ->.
    now apply Qc_is_canon.
  - intros x y Hx Hy. apply Qc_leb_le in Hx, Hy. apply Qc_leb_le.
    change (q 0 1) with (0 + 0)%Qc. now apply Qcplus_le_compat.
  - intros x y Hx Hy. apply Qc_leb_le in Hx, Hy. now apply Qc_add_eq_0.
Qed.

End QcLaws.

(** ** The properties at the concrete configuration *)

(** ** The range of float32 keeps the laws of zero *)

Module Fl32Laws.
Import QArith Qcanon Qcabs QcScalar Fl32.

Lemma overflow_0 : overflow (q 0 1) = Fin (q 0 1).
Proof. vm_compute. reflexivity. Qed.

Lemma fl_mul_0_r_finite (a : fl) : is_finite a -> mul a zero = zero.
Proof.
  destruct a as [x| | |]; intros H; try destruct H.
  change (overflow (x * 0)%Qc = Fin (q 0 1)).
  rewrite Qcmult_0_r. exact overflow_0.
Qed.

Lemma fl_fabs_0 : fabs (zero : fl) = zero.
Proof.
  change (Fin (Qcabs (q 0 1)) = Fin (q 0 1)). f_equal.
  apply Qc_is_canon. reflexivity.
Qed.

Lemma fl_add_0_0 : add (zero : fl) zero = zero.
Proof. vm_compute. reflexivity. Qed.

Lemma fl_feqb_0_0 : feqb (zero : fl) zero = true.
Proof. vm_compute. reflexivity. Qed.

Definition fl_FiniteLaws : FiniteLaws fl := {|
  finite := is_finite;
  mul_0_r_finite := fl_mul_0_r_finite;
  fabs_0 := fl_fabs_0;
  add_0_0 := fl_add_0_0;
  feqb_0_0 := fl_feqb_0_0
|}.

End Fl32Laws.

Import QcScalar QcLaws Example.
Import Fl32 Fl32Laws.

Lemma is_ok_run {A} (m : Result A * Graph) (d : A) :
  is_ok (fst m) = true ->
  m = (Ok (match fst m with Ok s => s | Raise _ => d end), snd m).
Proof. destruct m as [[a|e] g]; cbn; [reflexivity | discriminate]. Qed.

Lemma built_ok : built = (Ok out, snd built).
Proof. apply is_ok_run. vm_compute. reflexivity. Qed.

Lemma built_nodrop_ok : built_nodrop = (Ok out_nodrop, snd built_nodrop).
Proof. apply is_ok_run. vm_compute. reflexivity. Qed.

Lemma wf_inp : wf_sym inp.
Proof. intros env. repeat constructor. Qed.

Lemma wf_x_mask : wf_sym x_mask.
Proof. intros env. repeat constructor. Qed.

(** C2 (the code at the failing input): with dropout at rate 1/2 the
    graph of [chrawr_embedding] holds the second dropout node (node 35)
    right before the restoring convolution, and the tensor returned is the
    same whether the draw of that node keeps every element or drops every
    element: the convolution reads the masked output of the highway stack,
    not the output of the dropout.  The pipeline of the specification,
    where the convolution consumes the dropout's output, returns different
    tensors in the two runs. *)
Theorem second_dropout_not_consumed :
  chrawr_embedding inp hp [] = (Ok out, snd built) /\
  nth_error (snd built) 35 = Some "dropout"%string /\
  nth_error (snd built) 36 = Some "conv1d:restored_embedding"%string /\
  eval out (env_at 35 true) = eval out (env_at 35 false) /\
  fst (chrawr_embedding_sequential inp hp []) = Ok out_sequential /\
  eval out_sequential (env_at 35 true) <> eval out_sequential (env_at 35 false).
Proof.
  split; [exact built_ok|].
  split; [vm_compute; reflexivity|].
  split; [vm_compute; reflexivity|].
  split; [vm_compute; reflexivity|].
  split.
  { pose proof (@is_ok_run _ (chrawr_embedding_sequential inp hp []) inp)
      as H.
    rewrite H at 1 by (vm_compute; reflexivity). reflexivity. }
  apply tensor_eqb_false. vm_compute. reflexivity.
Qed.

(** *** Witnesses: the hypotheses of the theorems hold at the example *)

Lemma embedding_mask_spec_witness :
  ScalarLaws Qcanon.Qc /\
  ltac:(let t := type of (@embedding_mask_spec _ _ Qc_ScalarLaws inp [])
        in exact t).
Proof.
  split; [exact Qc_ScalarLaws|].
  exact (@embedding_mask_spec _ _ Qc_ScalarLaws inp []).
Defined.

Lemma embedding_mask_idempotent_witness :
  ScalarLaws Qcanon.Qc /\
  ltac:(let t := type of (@embedding_mask_idempotent _ _ Qc_ScalarLaws inp [])
        in exact t).
Proof.
  split; [exact Qc_ScalarLaws|].
  exact (@embedding_mask_idempotent _ _ Qc_ScalarLaws inp []).
Defined.

Lemma overflow_built_ok :
  Overflow.built = (Ok Overflow.out, snd Overflow.built).
Proof. apply is_ok_run. vm_compute. reflexivity. Qed.

Lemma chrawr_embedding_padding_zero_witness :
  chrawr_embedding Overflow.inp Overflow.hp []
  = (Ok Overflow.out, snd Overflow.built) /\
  ltac:(let t := type of (@chrawr_embedding_padding_zero _ _ fl_FiniteLaws
                            Overflow.inp Overflow.out Overflow.hp []
                            (snd Overflow.built) overflow_built_ok)
        in exact t).
Proof.
  split; [exact overflow_built_ok|].
  exact (@chrawr_embedding_padding_zero _ _ fl_FiniteLaws
           Overflow.inp Overflow.out Overflow.hp [] (snd Overflow.built)
           overflow_built_ok).
Defined.

(** C3 without the proviso fails in the range of float32: with finite
    variables and a finite input, position 1 of the pooled embedding is
    all-zero and the recomputed mask is 0 there, the second highway layer
    overflows (2^127 * 2), and the tensor [chrawr_embedding] returns holds
    NaN at that position. *)
Lemma padding_zero_fails_on_overflow :
  chrawr_embedding Overflow.inp Overflow.hp []
  = (Ok Overflow.out, snd Overflow.built) /\
  chrawr_pooled Overflow.inp Overflow.hp []
  = (Ok Overflow.pooled, snd Overflow.built_pooled) /\
  embedding_mask Overflow.pooled (snd Overflow.built_pooled)
  = (Ok Overflow.emb_mask_in, snd Overflow.built_mask) /\
  (forall name j c o,
      Fl32.is_finite (kernel (Overflow.w name) j c o) /\
      Fl32.is_finite (bias (Overflow.w name) o)) /\
  Forall (Forall (Forall Fl32.is_finite)) (eval Overflow.inp Overflow.env) /\
  lookup2 (eval Overflow.pooled Overflow.env) 0 1 = Some [zero] /\
  lookup2 (eval Overflow.emb_mask_in Overflow.env) 0 1 = Some [zero] /\
  lookup2 (eval Overflow.out Overflow.env) 0 1 = Some [Fl32.NaN] /\
  ~ is_padding [Fl32.NaN].
Proof.
  split; [exact overflow_built_ok|].
  split; [apply is_ok_run; vm_compute; reflexivity|].
  split; [apply is_ok_run; vm_compute; reflexivity|].
  split.
  { intros name j c o. unfold Overflow.w.
    destruct (String.eqb name "Highway/highway_gate_0"); [cbn; auto|].
    destruct (String.eqb name "Highway/highway_gate_1"); [cbn; auto|].
    destruct (String.eqb name "Highway/highway_lin_0"
              || String.eqb name "Highway/highway_lin_1"); cbn; auto. }
  split; [cbn; repeat constructor|].
  split; [vm_compute; reflexivity|].
  split; [vm_compute; reflexivity|].
  split; [vm_compute; reflexivity|].
  intros P. inversion P as [|? ? E _]. discriminate E.
Qed.

Lemma two_layers : 1 <= num_highway_layers hp.
Proof. cbn. apply le_S, le_n. Qed.

Lemma highway_layers_spec_witness :
  ScalarLaws Qcanon.Qc /\ 1 <= num_highway_layers hp /\ wf_sym inp /\
  ltac:(let t := type of (@highway_layers_spec _ _ Qc_ScalarLaws inp hp
                            minus_two relu "Highway" [] two_layers wf_inp)
        in exact t).
Proof.
  split; [exact Qc_ScalarLaws|]. split; [exact two_layers|].
  split; [exact wf_inp|].
  exact (@highway_layers_spec _ _ Qc_ScalarLaws inp hp minus_two relu
           "Highway" [] two_layers wf_inp).
Defined.

Lemma pool_two : 1 <= chr_maxpool_size hp.
Proof. cbn. apply le_S, le_n. Qed.

Lemma kernels_distinct : NoDup (chr_kernels hp).
Proof.
  cbn. repeat constructor; cbn; intuition discriminate.
Qed.

Lemma kernels_positive : Forall (fun k => 1 <= k) (chr_kernels hp).
Proof. cbn. repeat constructor. Qed.

Lemma features_positive : Forall (fun f => 1 <= f) (chr_kernel_features hp).
Proof. cbn. repeat constructor. Qed.

Lemma single_kernel_distinct : NoDup (chr_kernels hp_single).
Proof. cbn. repeat constructor. intros []. Qed.

Lemma single_kernel_positive :
  Forall (fun k => 1 <= k) (chr_kernels hp_single).
Proof. cbn. repeat constructor. Qed.

Lemma single_features_positive :
  Forall (fun f => 1 <= f) (chr_kernel_features hp_single).
Proof. cbn. repeat constructor. Qed.

Lemma pool_two_single : 1 <= chr_maxpool_size hp_single.
Proof. cbn. apply le_S, le_n. Qed.

Lemma two_kernels : 1 < length (chr_kernels hp).
Proof. cbn. apply le_n. Qed.

(** Both cases: the two kernels of [hp] and the single kernel of
    [hp_single] *)
Lemma conv_emb_channel_count_witness :
  (length (chr_kernels hp) = length (chr_kernel_features hp) /\
   NoDup (chr_kernels hp) /\
   Forall (fun k => 1 <= k) (chr_kernels hp) /\
   Forall (fun f => 1 <= f) (chr_kernel_features hp) /\
   1 <= chr_maxpool_size hp /\ depth x_mask = 1 /\ wf_sym x_mask /\
   1 < length (chr_kernels hp) /\
   ltac:(let t := type of (proj2 (@conv_emb_channel_count _ _ inp hp x_mask
                                    "ConvEmb" [] eq_refl kernels_distinct
                                    kernels_positive features_positive
                                    pool_two eq_refl wf_x_mask)
                             two_kernels)
         in exact t)) /\
  (length (chr_kernels hp_single) = length (chr_kernel_features hp_single) /\
   NoDup (chr_kernels hp_single) /\
   Forall (fun k => 1 <= k) (chr_kernels hp_single) /\
   Forall (fun f => 1 <= f) (chr_kernel_features hp_single) /\
   1 <= chr_maxpool_size hp_single /\
   chr_kernels hp_single = [3] /\ chr_kernel_features hp_single = [2] /\
   ltac:(let t := type of (proj1 (@conv_emb_channel_count _ _ inp hp_single
                                    x_mask "ConvEmb" [] eq_refl
                                    single_kernel_distinct
                                    single_kernel_positive
                                    single_features_positive
                                    pool_two_single eq_refl wf_x_mask)
                             3 2 eq_refl eq_refl)
         in exact t)).
Proof.
  split.
  - split; [reflexivity|]. split; [exact kernels_distinct|].
    split; [exact kernels_positive|]. split; [exact features_positive|].
    split; [exact pool_two|]. split; [reflexivity|].
    split; [exact wf_x_mask|]. split; [exact two_kernels|].
    exact (proj2 (@conv_emb_channel_count _ _ inp hp x_mask "ConvEmb" []
                    eq_refl kernels_distinct kernels_positive
                    features_positive pool_two eq_refl wf_x_mask)
             two_kernels).
  - split; [reflexivity|]. split; [exact single_kernel_distinct|].
    split; [exact single_kernel_positive|].
    split; [exact single_features_positive|].
    split; [exact pool_two_single|]. split; [reflexivity|].
    split; [reflexivity|].
    exact (proj1 (@conv_emb_channel_count _ _ inp hp_single x_mask
                    "ConvEmb" [] eq_refl single_kernel_distinct
                    single_kernel_positive single_features_positive
                    pool_two_single eq_refl wf_x_mask)
             3 2 eq_refl eq_refl).
Defined.

Lemma pooled_time_dimension_witness :
  1 <= 2 /\
  ltac:(let t := type of (@pooled_time_dimension Qcanon.Qc _ 2
                            (le_S 1 1 (le_n 1)))
        in exact t).
Proof.
  split; [exact (le_S 1 1 (le_n 1))|].
  exact (@pooled_time_dimension Qcanon.Qc _ 2 (le_S 1 1 (le_n 1))).
Defined.

Lemma three_kernels_two_features :
  length (chr_kernels hp_mismatch) <> length (chr_kernel_features hp_mismatch).
Proof. cbn. discriminate. Qed.

Lemma kernel_feature_mismatch_fails_witness :
  length (chr_kernels hp_mismatch)
  <> length (chr_kernel_features hp_mismatch) /\
  conv_emb inp hp_mismatch x_mask "ConvEmb" []
  = (Raise (AssertionError "Kernel and Features must have the same size"),
     []) /\
  fst (chrawr_embedding inp hp_mismatch [])
  = Raise (AssertionError "Kernel and Features must have the same size") /\
  session_run (chrawr_embedding inp hp_mismatch) [] (env_at 0 true) = None.
Proof.
  pose proof (@kernel_feature_mismatch_fails _ _ hp_mismatch
                three_kernels_two_features) as [C P].
  split; [exact three_kernels_two_features|].
  split; [exact (C inp x_mask "ConvEmb"%string [])|].
  destruct (P inp []) as [E S].
  split; [exact (f_equal fst E) | exact (S (env_at 0 true))].
Defined.

Lemma chrawr_embedding_deterministic_witness :
  ScalarLaws Qcanon.Qc /\
  chr_dropout_rate hp_nodrop = zero /\ chr_pos_enc hp_nodrop = false /\
  chrawr_embedding inp hp_nodrop [] = (Ok out_nodrop, snd built_nodrop) /\
  eval out_nodrop (env_at 0 true) = eval out_nodrop (env_at 0 false).
Proof.
  split; [exact Qc_ScalarLaws|]. split; [reflexivity|].
  split; [reflexivity|]. split; [exact built_nodrop_ok|].
  exact (@chrawr_embedding_deterministic _ _ Qc_ScalarLaws inp out_nodrop
           hp_nodrop [] (snd built_nodrop) eq_refl eq_refl built_nodrop_ok
           (env_at 0 true) (env_at 0 false) eq_refl eq_refl).
Defined.

Lemma highway_zero_layers_unbound_witness :
  highway inp 2 hp_nolayer minus_two relu "Highway" []
  = (Raise (UnboundLocalError "output"), []) /\
  exists out g',
    highway inp 2 hp minus_two relu "Highway" [] = (Ok out, g') /\
    depth out = depth inp.
Proof.
  split.
  - exact (proj1 (@highway_zero_layers_unbound _ _ inp 2 hp_nolayer
                    minus_two relu "Highway" []) eq_refl).
  - exact (proj2 (@highway_zero_layers_unbound _ _ inp 2 hp
                    minus_two relu "Highway" []) two_layers eq_refl).
Defined.

(** *** Instances of the pipeline properties *)

Import PipelineExample.

Lemma conv_emb_no_kernel_witness :
  chr_kernels hp_nokernel = [] /\ chr_kernel_features hp_nokernel = [] /\
  conv_emb inp hp_nokernel x_mask "ConvEmb" []
  = (Raise (IndexError "list index out of range"), []).
Proof.
  split; [reflexivity|]. split; [reflexivity|].
  exact (@conv_emb_no_kernel _ _ inp hp_nokernel x_mask "ConvEmb" []
           eq_refl eq_refl).
Defined.

Lemma three_is_not_two : 3 <> depth inp.
Proof. cbn. discriminate. Qed.

Lemma three_is_not_one : 3 <> 1.
Proof. discriminate. Qed.

Lemma two_channels_not_one : depth inp <> 1.
Proof. cbn. discriminate. Qed.

Lemma highway_width_mismatch_witness :
  1 <= num_highway_layers hp /\ 3 <> depth inp /\ 3 <> 1 /\
  depth inp <> 1 /\
  highway inp 3 hp minus_two relu "Highway" []
  = (Raise (ValueError "Dimensions must be equal"),
     ["conv1d:Highway/highway_lin_0"; "conv1d:Highway/highway_gate_0";
      "Mul"; "Sub"]%string).
Proof.
  split; [exact two_layers|]. split; [exact three_is_not_two|].
  split; [exact three_is_not_one|]. split; [exact two_channels_not_one|].
  exact (@highway_width_mismatch _ _ inp 3 hp minus_two relu "Highway" []
           two_layers three_is_not_two three_is_not_one
           two_channels_not_one).
Defined.

Lemma some_kernel : chr_kernels hp <> [].
Proof. cbn. discriminate. Qed.

Lemma mask_shape_of_input (env : Env Qcanon.Qc) :
  bt_shape (eval x_mask env) = bt_shape (eval inp env).
Proof. reflexivity. Qed.

Lemma conv_emb_time_dimension_witness :
  length (chr_kernels hp) = length (chr_kernel_features hp) /\
  chr_kernels hp <> [] /\ Forall (fun k => 1 <= k) (chr_kernels hp) /\
  NoDup (chr_kernels hp) /\
  Forall (fun f => 1 <= f) (chr_kernel_features hp) /\
  1 <= chr_maxpool_size hp /\ depth x_mask = 1 /\
  (forall env, bt_shape (eval x_mask env) = bt_shape (eval inp env)) /\
  exists out g',
    conv_emb inp hp x_mask "ConvEmb" [] = (Ok out, g') /\
    forall env,
      bt_shape (eval out env)
      = map (fun L => ceil_div L (chr_maxpool_size hp))
            (bt_shape (eval inp env)).
Proof.
  split; [reflexivity|]. split; [exact some_kernel|].
  split; [exact kernels_positive|]. split; [exact kernels_distinct|].
  split; [exact features_positive|]. split; [exact pool_two|].
  split; [reflexivity|]. split; [exact mask_shape_of_input|].
  exact (@conv_emb_time_dimension _ _ inp hp x_mask "ConvEmb" []
           eq_refl some_kernel kernels_positive kernels_distinct
           features_positive pool_two eq_refl mask_shape_of_input).
Defined.

Lemma hp_valid : valid_config hp = true.
Proof. vm_compute. reflexivity. Qed.

Lemma inp_rectangular (env : Env Qcanon.Qc) : rectangular (eval inp env).
Proof. exists 5. cbn. repeat constructor. Qed.

Lemma chrawr_embedding_shape_witness :
  valid_config hp = true /\ (forall env, rectangular (eval inp env)) /\
  exists out g',
    chrawr_embedding inp hp [] = (Ok out, g') /\
    depth out = hidden_size hp /\ wf_sym out /\
    forall env,
      bt_shape (eval out env)
      = map (fun L => ceil_div L (chr_maxpool_size hp))
            (bt_shape (eval inp env)).
Proof.
  split; [exact hp_valid|]. split; [exact inp_rectangular|].
  exact (@chrawr_embedding_shape _ _ inp hp [] hp_valid inp_rectangular).
Defined.

Lemma chrawr_embedding_returns_only_if_witness :
  chrawr_embedding inp hp [] = (Ok out, snd built) /\
  length (chr_kernels hp) = length (chr_kernel_features hp) /\
  chr_kernels hp <> [] /\ 1 <= chr_maxpool_size hp /\
  1 <= num_highway_layers hp /\
  keep_prob_ok (sub one (chr_dropout_rate hp)) = true.
Proof.
  split; [exact built_ok|].
  exact (@chrawr_embedding_returns_only_if _ _ inp out hp [] (snd built)
           built_ok).
Defined.

Lemma some_kernel_nolayer : chr_kernels hp_nolayer <> [].
Proof. cbn. discriminate. Qed.

Lemma pool_two_nolayer : 1 <= chr_maxpool_size hp_nolayer.
Proof. cbn. apply le_S, le_n. Qed.

Lemma keep_all_nolayer :
  keep_prob_ok (sub one (chr_dropout_rate hp_nolayer)) = true.
Proof. vm_compute. reflexivity. Qed.

Lemma kernels_distinct_nolayer : NoDup (chr_kernels hp_nolayer).
Proof.
  cbn. repeat constructor; cbn; intuition discriminate.
Qed.

Lemma kernels_positive_nolayer :
  Forall (fun k => 1 <= k) (chr_kernels hp_nolayer).
Proof. cbn. repeat constructor. Qed.

Lemma features_positive_nolayer :
  Forall (fun f => 1 <= f) (chr_kernel_features hp_nolayer).
Proof. cbn. repeat constructor. Qed.

Lemma reduced_size_nolayer : 1 <= reduced_input_size hp_nolayer.
Proof. cbn. repeat constructor. Qed.

Lemma chrawr_embedding_no_highway_layer_witness :
  length (chr_kernels hp_nolayer) = length (chr_kernel_features hp_nolayer) /\
  chr_kernels hp_nolayer <> [] /\
  NoDup (chr_kernels hp_nolayer) /\
  Forall (fun k => 1 <= k) (chr_kernels hp_nolayer) /\
  Forall (fun f => 1 <= f) (chr_kernel_features hp_nolayer) /\
  1 <= chr_maxpool_size hp_nolayer /\
  1 <= reduced_input_size hp_nolayer /\
  keep_prob_ok (sub one (chr_dropout_rate hp_nolayer)) = true /\
  num_highway_layers hp_nolayer = 0 /\
  chrawr_embedding inp hp_nolayer []
  = (Raise (UnboundLocalError "output"),
     [] ++ prefix_nodes hp_nolayer ++ conv_emb_nodes hp_nolayer "ConvEmb"
        ++ mask_nodes "emb_mask_in"
        ++ dropout_nodes (sub one (chr_dropout_rate hp_nolayer))).
Proof.
  split; [reflexivity|]. split; [exact some_kernel_nolayer|].
  split; [exact kernels_distinct_nolayer|].
  split; [exact kernels_positive_nolayer|].
  split; [exact features_positive_nolayer|].
  split; [exact pool_two_nolayer|]. split; [exact reduced_size_nolayer|].
  split; [exact keep_all_nolayer|]. split; [reflexivity|].
  exact (@chrawr_embedding_no_highway_layer _ _ inp hp_nolayer [] eq_refl
           some_kernel_nolayer kernels_distinct_nolayer
           kernels_positive_nolayer features_positive_nolayer
           pool_two_nolayer reduced_size_nolayer keep_all_nolayer eq_refl).
Defined.

Lemma dropout_is_active : feqb (sub one (chr_dropout_rate hp)) one = false.
Proof. vm_compute. reflexivity. Qed.

Lemma chrawr_embedding_second_dropout_unused_witness :
  chrawr_embedding inp hp [] = (Ok out, snd built) /\
  feqb (sub one (chr_dropout_rate hp)) one = false /\
  exists n1 n2,
    n1 < n2 /\
    nth_error (snd built) n1 = Some "dropout"%string /\
    nth_error (snd built) n2 = Some "dropout"%string /\
    nth_error (snd built) (S n2) = Some "conv1d:restored_embedding"%string /\
    forall env1 env2,
      weights env1 = weights env2 ->
      eval inp env1 = eval inp env2 ->
      noise env1 n1 = noise env2 n1 ->
      eval out env1 = eval out env2.
Proof.
  split; [exact built_ok|]. split; [exact dropout_is_active|].
  exact (@chrawr_embedding_second_dropout_unused _ _ inp out hp []
           (snd built) built_ok dropout_is_active).
Defined.

Lemma fl_built_pooled_ok :
  Fl32Example.built_pooled
  = (Ok Fl32Example.pooled, snd Fl32Example.built_pooled).
Proof. apply is_ok_run. vm_compute. reflexivity. Qed.

Lemma fl_kernels_positive :
  Forall (fun k => 1 <= k) (chr_kernels Fl32Example.hp).
Proof. cbn. repeat constructor. Qed.

Lemma fl_inp_rectangular (env : Env fl) :
  rectangular (eval Fl32Example.inp env).
Proof. exists 4. cbn. repeat constructor. Qed.

Lemma fl_last_window_is_padding (j : nat) (v : list fl) :
  in_pool_window (chr_maxpool_size Fl32Example.hp)
    (length Fl32Example.row0) 1 j ->
  nth_error Fl32Example.row0 j = Some v -> is_padding v.
Proof.
  intros [A B] E. vm_compute in A. vm_compute in B.
  assert (J : j = 2 \/ j = 3) by lia.
  destruct J as [-> | ->]; cbn in E; injection E as <-; repeat constructor.
Qed.

(** No convolution overflows on the last window. *)
Lemma fl_last_window_is_finite (kf : nat * nat) (j : nat) :
  In kf (combine (chr_kernels Fl32Example.hp)
                 (chr_kernel_features Fl32Example.hp)) ->
  in_pool_window (chr_maxpool_size Fl32Example.hp)
    (length Fl32Example.row0) 1 j ->
  @finite_at _ _ fl_FiniteLaws
    (branch_conv_eval Fl32Example.hp "ConvEmb" kf
       (rescaled_eval Fl32Example.hp (eval Fl32Example.inp Overflow.env)
          Overflow.env)
       Overflow.env) 0 j.
Proof.
  intros K [A B]. vm_compute in A. vm_compute in B.
  assert (J : j = 2 \/ j = 3) by lia.
  cbn in K. intros v E.
  destruct K as [<- | [<- | []]]; destruct J as [-> | ->];
    vm_compute in E; injection E as <-; repeat constructor.
Qed.

Lemma chrawr_embedding_padding_windows_witness :
  chrawr_pooled Fl32Example.inp Fl32Example.hp []
  = (Ok Fl32Example.pooled, snd Fl32Example.built_pooled) /\
  Forall (fun k => 1 <= k) (chr_kernels Fl32Example.hp) /\
  (forall env, rectangular (eval Fl32Example.inp env)) /\
  nth_error (eval Fl32Example.inp Overflow.env) 0 = Some Fl32Example.row0 /\
  (forall j v,
      in_pool_window (chr_maxpool_size Fl32Example.hp)
        (length Fl32Example.row0) 1 j ->
      nth_error Fl32Example.row0 j = Some v -> is_padding v) /\
  (forall kf j,
      In kf (combine (chr_kernels Fl32Example.hp)
                     (chr_kernel_features Fl32Example.hp)) ->
      in_pool_window (chr_maxpool_size Fl32Example.hp)
        (length Fl32Example.row0) 1 j ->
      @finite_at _ _ fl_FiniteLaws
        (branch_conv_eval Fl32Example.hp "ConvEmb" kf
           (rescaled_eval Fl32Example.hp
              (eval Fl32Example.inp Overflow.env) Overflow.env)
           Overflow.env) 0 j) /\
  forall u,
    lookup2 (eval Fl32Example.pooled Overflow.env) 0 1 = Some u ->
    is_padding u /\
    lookup2 (mask_value (eval Fl32Example.pooled Overflow.env)) 0 1
    = Some [zero].
Proof.
  split; [exact fl_built_pooled_ok|].
  split; [exact fl_kernels_positive|]. split; [exact fl_inp_rectangular|].
  split; [reflexivity|]. split; [exact fl_last_window_is_padding|].
  split; [exact fl_last_window_is_finite|].
  exact (@chrawr_embedding_padding_windows _ _ fl_FiniteLaws
           Fl32Example.inp Fl32Example.pooled Fl32Example.hp []
           (snd Fl32Example.built_pooled) fl_built_pooled_ok
           fl_kernels_positive fl_inp_rectangular Overflow.env 0 1
           Fl32Example.row0 eq_refl fl_last_window_is_padding
           fl_last_window_is_finite).
Defined.

Lemma keep_four_fifths :
  keep_prob_ok (sub one (QcScalar.q 1 5)) = true.
Proof. vm_compute. reflexivity. Qed.

Lemma base_is_a_preset :
  In (transformer_chrawr_base soft_sign) presets.
Proof. left. reflexivity. Qed.

Lemma chrawr_presets_build_witness :
  ScalarLaws Qcanon.Qc /\
  keep_prob_ok (sub one (QcScalar.q 1 5)) = true /\
  In (transformer_chrawr_base soft_sign) presets /\
  valid_config (transformer_chrawr_base soft_sign) = true /\
  forall (emb : Sym Qcanon.Qc) (g : Graph),
    (forall env, rectangular (eval emb env)) ->
    exists out g',
      chrawr_embedding emb (transformer_chrawr_base soft_sign) g
      = (Ok out, g') /\
      depth out = hidden_size (transformer_chrawr_base soft_sign) /\
      wf_sym out /\
      forall env,
        bt_shape (eval out env)
        = map (fun L =>
                 ceil_div L
                   (chr_maxpool_size (transformer_chrawr_base soft_sign)))
              (bt_shape (eval emb env)).
Proof.
  split; [exact Qc_ScalarLaws|]. split; [exact keep_four_fifths|].
  split; [exact base_is_a_preset|].
  exact (@chrawr_presets_build _ _ Qc_ScalarLaws soft_sign soft_elu
           (QcScalar.q 1 5) (transformer_chrawr_base soft_sign)
           keep_four_fifths base_is_a_preset).
Defined.

Lemma chrawr_embedding_graph_witness :
  chrawr_embedding inp hp [] = (Ok out, snd built) /\
  snd built
  = [] ++ prefix_nodes hp ++ conv_emb_nodes hp "ConvEmb"
       ++ after_conv_nodes hp.
Proof.
  split; [exact built_ok|].
  exact (@chrawr_embedding_graph _ _ inp out hp [] (snd built) built_ok).
Defined.

Lemma chrawr_embedding_batchwise_witness :
  ScalarLaws Qcanon.Qc /\ chr_dropout_rate hp_nodrop = zero /\
  exists fr,
    forall (emb out : Sym Qcanon.Qc) (g g' : Graph),
      chrawr_embedding emb hp_nodrop g = (Ok out, g') ->
      rectangular (eval emb (env_at 0 true)) ->
      eval out (env_at 0 true) = map fr (eval emb (env_at 0 true)).
Proof.
  split; [exact Qc_ScalarLaws|]. split; [reflexivity|].
  exact (@chrawr_embedding_batchwise _ _ Qc_ScalarLaws hp_nodrop
           (env_at 0 true) eq_refl).
Defined.
